(** * waifu2x-caffe: tiling, padding and pass orchestration of [common/waifu2x.cpp]

    A shallow embedding of the geometry, tile extraction and stitching,
    batched reconstruction and pass sequencing of [Waifu2x], and the
    properties of those parts.

    Conventions of the embedding.
    - A C++ [int] is a [Z].  Signed overflow is undefined in C++, so the
      model describes the runs in which every intermediate value is in
      range; [/] and [%] on [int] are [Z.quot] and [Z.rem] (truncation).
    - A [float] sample is an exact rational [Q]: the tiling code only
      copies samples.
    - A [double] is a finite value, an infinity or NaN; a product or a
      quotient of two of them is rounded to the nearest [double], ties to
      even.  The conversion of an [int] to [double] is exact.
    - A [cv::Mat] is its logical content: [rows], [cols] and the row-major
      samples, contiguous, so that [step1()] is [cols].
    - A raw [float *] is a buffer name and an offset into a store of
      buffers; [memcpy] moves samples between buffers of that store.
    - What lies outside the file (image files, colour conversion, resizing,
      the two networks, the content of fresh memory, the [log2] of the C
      library) is a record of functions [Env]; a call of [waifu2x] returns its code together with
      the history of what it did: passes, polls, the final resize and the
      write of the output file. *)

From Stdlib Require Import ZArith QArith Qround Qpower Qabs List Bool String Ascii Lia Lqa.
Import ListNotations.

Local Open Scope Z_scope.

(** ** Buffers indexed by [int] *)

Definition float := Q.

Definition zth (l : list float) (k : Z) : float :=
  if k <? 0 then 0%Q else nth (Z.to_nat k) l 0%Q.

Definition ztab (n : Z) (f : Z -> float) : list float :=
  map (fun i => f (Z.of_nat i)) (seq 0 (Z.to_nat n)).

Definition zlen (l : list float) : Z := Z.of_nat (List.length l).

(** ** [cv::Mat], single channel, 32-bit float *)

Record Mat := mkMat { rows : Z; cols : Z; data : list float }.

Definition step1 (m : Mat) : Z := cols m.

Definition Mat_at (m : Mat) (y x : Z) : float := zth (data m) (y * step1 m + x).

Definition Mat_tab (r c : Z) (f : Z -> Z -> float) : Mat :=
  mkMat r c (ztab (r * c) (fun k => f (k / c) (k mod c))).

Definition Mat_wf (m : Mat) : Prop :=
  0 <= rows m /\ 0 <= cols m /\ zlen (data m) = rows m * cols m.

Definition Mat_empty (m : Mat) : bool := (rows m * cols m =? 0).

(** [cv::borderInterpolate] for [cv::BORDER_REPLICATE]. *)
Definition borderInterpolate (p len : Z) : Z :=
  if p <? 0 then 0 else if p >=? len then len - 1 else p.

(** [cv::copyMakeBorder(src, dst, top, bottom, left, right, BORDER_REPLICATE)]. *)
Definition copyMakeBorder (src : Mat) (top bottom left right : Z) : Mat :=
  Mat_tab (rows src + top + bottom) (cols src + left + right)
    (fun y x => Mat_at src (borderInterpolate (y - top) (rows src))
                           (borderInterpolate (x - left) (cols src))).

(** [m(cv::Rect(x, y, width, height))], read as a matrix of its own. *)
Definition Mat_roi (m : Mat) (x y width height : Z) : Mat :=
  Mat_tab height width (fun i j => Mat_at m (y + i) (x + j)).

(** ** [double] *)

(** A [double] is a finite value, given by the rational it holds, an
    infinity or NaN.  The two zeros are not told apart. *)
Inductive double :=
| Fin (q : Q)
| Inf (negative : bool)
| NaN.

(** Truncation towards zero. *)
Definition Qtrunc (q : Q) : Z := if Qle_bool 0 q then Qfloor q else Qceiling q.

(** The [e] with [2 ^ e <= q < 2 ^ (e + 1)], for a positive [q]. *)
Definition Qlog2 (q : Q) : Z :=
  let e := Z.log2 (Qnum q) - Z.log2 (Zpos (Qden q)) in
  if Qle_bool (Qpower 2 e) q then e else e - 1.

(** To the nearest integer, ties to even. *)
Definition nearest_even (q : Q) : Z :=
  let f := Qfloor q in
  match (q - inject_Z f ?= 1 # 2)%Q with
  | Lt => f
  | Gt => f + 1
  | Eq => if Z.even f then f else f + 1
  end.

Definition is_negative (q : Q) : bool := negb (Qle_bool 0 q).

(** Rounding to [double]: 53 significant bits, the last of them worth
    [2 ^ -1074] at least, to the nearest, ties to even; a result of
    [2 ^ 1024] or more is an infinity. *)
Definition round_double (q : Q) : double :=
  if Qeq_bool q 0 then Fin 0 else
  let p := Z.max (Qlog2 (Qabs q) - 52) (-1074) in
  let v := (inject_Z (nearest_even (q / Qpower 2 p)) * Qpower 2 p)%Q in
  if Qle_bool (Qpower 2 1024) (Qabs v) then Inf (is_negative q) else Fin (Qred v).

(** [q] is the value of a finite [double]. *)
Definition is_double (q : Q) : bool :=
  match round_double q with Fin v => Qeq_bool v q | _ => false end.

(** [x <= y]. *)
Definition dleb (x y : double) : bool :=
  match x, y with
  | NaN, _ | _, NaN => false
  | Fin a, Fin b => Qle_bool a b
  | Inf true, _ => true
  | _, Inf false => true
  | Inf false, _ => false
  | _, Inf true => false
  end.

(** [x * y]. *)
Definition dmul (x y : double) : double :=
  match x, y with
  | NaN, _ | _, NaN => NaN
  | Fin a, Fin b => round_double (a * b)
  | Fin a, Inf s | Inf s, Fin a =>
      if Qeq_bool a 0 then NaN else Inf (xorb s (is_negative a))
  | Inf s, Inf s' => Inf (xorb s s')
  end.

(** [x / y]. *)
Definition ddiv (x y : double) : double :=
  match x, y with
  | NaN, _ | _, NaN => NaN
  | Fin a, Fin b =>
      if Qeq_bool b 0 then (if Qeq_bool a 0 then NaN else Inf (is_negative a))
      else round_double (a / b)
  | Fin _, Inf _ => Fin 0
  | Inf s, Fin b => Inf (xorb s (is_negative b))
  | Inf _, Inf _ => NaN
  end.

(** [ceil]. *)
Definition ceil (x : double) : double :=
  match x with Fin q => Fin (inject_Z (Qceiling q)) | _ => x end.

(** The conversion of a [double] to [int]: truncation.  C++ leaves it
    undefined for NaN, for the infinities and outside the range of [int];
    the model gives 0 for NaN and the infinities. *)
Definition to_int (x : double) : Z :=
  match x with Fin q => Qtrunc q | _ => 0 end.

(** The conversion of an [int] to [double]. *)
Definition of_int (z : Z) : double := Fin (inject_Z z).

(** [std::pow(2.0, y)] for an integral [y]: the power of two where it is a
    [double], infinity from [2 ^ 1024] on, 0 below [2 ^ -1074]. *)
Definition pow2 (y : double) : double :=
  match y with
  | Fin q =>
      let k := Qfloor q in
      if 1024 <=? k then Inf false
      else if k <? -1074 then Fin 0
      else Fin (Qpower 2 k)
  | Inf false => Inf false
  | Inf true => Fin 0
  | NaN => NaN
  end.

(** The gap between 1 and the [double] below it. *)
Definition half_ulp : Q := 1 # 9007199254740992.

(** ** The constants and the object *)

Definition offset : Z := 0.
Definition layer_num : Z := 7.

(** The largest [int]. *)
Definition INT_MAX : Z := 2147483647.

Inductive eWaifu2xError :=
| eWaifu2xError_OK
| eWaifu2xError_Cancel
| eWaifu2xError_NotInitialized
| eWaifu2xError_InvalidParameter
| eWaifu2xError_FailedOpenInputFile
| eWaifu2xError_FailedOpenOutputFile
| eWaifu2xError_FailedOpenModelFile
| eWaifu2xError_FailedParseModelFile
| eWaifu2xError_FailedConstructModel
| eWaifu2xError_FailedProcessCaffe
| eWaifu2xError_FailedCudaCheck.

Record Waifu2x := mkWaifu2x {
  is_inited : bool;
  mode : string;
  noise_level : Z;
  scale_ratio : double;
  crop_size : Z;
  batch_size : Z;
  inner_padding : Z;
  outer_padding : Z;
  output_size : Z;
  input_block_size : Z;
  original_width_height : Z;
  output_block_size : Z;
  input_block : list float;
  dummy_data : list float;
  output_block : list float
}.

(** [Waifu2x::Waifu2x()]: nothing set, no buffer. *)
Definition Waifu2x_new : Waifu2x :=
  mkWaifu2x false EmptyString 0 (Fin 0) 0 0 0 0 0 0 0 0 [] [] [].

(** [Waifu2x::init].  [env] is the outcome of the steps that leave the
    program (CUDA probing, model directory lookup, network construction and
    weight loading, the room in memory for the buffers): the code they
    return, [eWaifu2xError_InvalidParameter] when one of them throws;
    [junk] is the content of freshly allocated memory.  The allocation of
    an array of negative length throws, and [catch (...)] makes it
    [eWaifu2xError_InvalidParameter]. *)
Definition init (W : Waifu2x) (Mode : string) (NoiseLevel : Z) (ScaleRatio : double)
    (CropSize BatchSize : Z) (env : eWaifu2xError) (junk : Z -> float)
  : eWaifu2xError * Waifu2x :=
  if is_inited W then (eWaifu2xError_OK, W)
  else if dleb ScaleRatio (Fin 0) then (eWaifu2xError_InvalidParameter, W)
  else
    let inner := layer_num in
    let outer := 1 in
    let out_size := CropSize - offset * 2 in
    let ibs := CropSize + (inner + outer) * 2 in
    let owh := 128 + layer_num * 2 in
    let obs := CropSize + (inner + outer - layer_num) * 2 in
    let W1 := mkWaifu2x false Mode NoiseLevel ScaleRatio CropSize BatchSize
                inner outer out_size ibs owh obs
                (input_block W) (dummy_data W) (output_block W) in
    match env with
    | eWaifu2xError_OK =>
        let input_block_plane_size := ibs * ibs in
        let output_block_plane_size := obs * obs in
        if input_block_plane_size * BatchSize <? 0
        then (eWaifu2xError_InvalidParameter, W1)
        else if output_block_plane_size * BatchSize <? 0
        then (eWaifu2xError_InvalidParameter,
              mkWaifu2x false Mode NoiseLevel ScaleRatio CropSize BatchSize
                inner outer out_size ibs owh obs
                (ztab (input_block_plane_size * BatchSize) junk)
                (ztab (input_block_plane_size * BatchSize) junk)
                (output_block W))
        else
        (eWaifu2xError_OK,
         mkWaifu2x true Mode NoiseLevel ScaleRatio CropSize BatchSize
           inner outer out_size ibs owh obs
           (ztab (input_block_plane_size * BatchSize) junk)
           (ztab (input_block_plane_size * BatchSize) (fun _ => 0%Q))
           (ztab (output_block_plane_size * BatchSize) junk))
    | e => (e, W1)
    end.

(** The two allocations of [init] get lengths that are not negative:
    [input_block_size] is [CropSize + 16] and [output_block_size] is
    [CropSize + 2]. *)
Definition room (CropSize BatchSize : Z) : bool :=
  (0 <=? (CropSize + 16) * (CropSize + 16) * BatchSize)
  && (0 <=? (CropSize + 2) * (CropSize + 2) * BatchSize).

(** ** The context window of one tile ([ReconstructImage], lines 490-532) *)

Record ContextWindow := mkCW {
  cw_x : Z; cw_y : Z; cw_width : Z; cw_height : Z;
  cw_top : Z; cw_bottom : Z; cw_left : Z; cw_right : Z
}.

Definition context_window (W : Waifu2x) (Width Height w h : Z) : ContextWindow :=
  let x := w - inner_padding W in
  let y := h - inner_padding W in
  let width := crop_size W + inner_padding W * 2 in
  let height := crop_size W + inner_padding W * 2 in
  let top_ := outer_padding W in
  let bottom_ := outer_padding W in
  let left_ := outer_padding W in
  let right_ := outer_padding W in
  let '(left_, width, x) :=
    if x <? 0 then (left_ + - x, width - - x, 0) else (left_, width, x) in
  let '(right_, width) :=
    if x + width >? Width then (right_ + ((x + width) - Width), Width - x)
    else (right_, width) in
  let '(top_, height, y) :=
    if y <? 0 then (top_ + - y, height - - y, 0) else (top_, height, y) in
  let '(bottom_, height) :=
    if y + height >? Height then (bottom_ + ((y + height) - Height), Height - y)
    else (bottom_, height) in
  mkCW x y width height top_ bottom_ left_ right_.

(** The tile with linear index [k] of a canvas with [WidthNum] tiles per row. *)
Definition tile_wn (WidthNum k : Z) : Z := Z.rem k WidthNum.
Definition tile_hn (WidthNum k : Z) : Z := Z.quot k WidthNum.
Definition tile_w (W : Waifu2x) (WidthNum k : Z) : Z := tile_wn WidthNum k * output_size W.
Definition tile_h (W : Waifu2x) (WidthNum k : Z) : Z := tile_hn WidthNum k * output_size W.

(** The guard of line 490 and, under it, the window of tile [k]. *)
Definition tile_window (W : Waifu2x) (Width Height k : Z) : option ContextWindow :=
  let WidthNum := Z.quot Width (output_size W) in
  let w := tile_w W WidthNum k in
  let h := tile_h W WidthNum k in
  if (w + crop_size W <=? Width) && (h + crop_size W <=? Height)
  then Some (context_window W Width Height w h)
  else None.

(** The bordered tile of lines 534-542. *)
Definition extract_tile (im : Mat) (cw : ContextWindow) : Mat :=
  let someimg_tmp := Mat_roi im (cw_x cw) (cw_y cw) (cw_width cw) (cw_height cw) in
  copyMakeBorder someimg_tmp (cw_top cw) (cw_bottom cw) (cw_left cw) (cw_right cw).

(** ** [PaddingImage] and [Zoom2xAndPaddingImage] *)

(** The canvas is enlarged to multiples of [output_size]; the image sits at
    the top left and the margin is filled with [cv::BORDER_REPLICATE].  The
    local names follow the source, where the block count called [h_blocks]
    is taken from the width and the one called [w_blocks] from the height. *)
Definition PaddingImage (W : Waifu2x) (input : Mat) : Mat :=
  let h_blocks := Z.quot (cols input) (output_size W)
                  + (if Z.rem (cols input) (output_size W) =? 0 then 0 else 1) in
  let w_blocks := Z.quot (rows input) (output_size W)
                  + (if Z.rem (rows input) (output_size W) =? 0 then 0 else 1) in
  let height := offset + h_blocks * output_size W + offset in
  let width := offset + w_blocks * output_size W + offset in
  let pad_h1 := offset in
  let pad_w1 := offset in
  let pad_h2 := (height - offset) - cols input in
  let pad_w2 := (width - offset) - rows input in
  copyMakeBorder input pad_w1 pad_w2 pad_h1 pad_h2.

(** [cv::Size_<int>]. *)
Record Size := mkSize { width : Z; height : Z }.

Definition Mat_size (m : Mat) : Size := mkSize (cols m) (rows m).

(** The removal of the padding: [im(cv::Rect(offset, offset, w, h))]. *)
Definition crop_padding (im : Mat) (image_size : Size) : Mat :=
  Mat_roi im offset offset (width image_size) (height image_size).

(** ** The buffers of one reconstruction pass *)

Inductive buffer := Buf_im | Buf_outim | Buf_input_block | Buf_output_block.

Record Store := mkStore {
  st_im : list float;
  st_outim : list float;
  st_input_block : list float;
  st_output_block : list float
}.

Record ptr := mkptr { p_buf : buffer; p_off : Z }.

Definition ptr_add (p : ptr) (d : Z) : ptr := mkptr (p_buf p) (p_off p + d).

Definition load (s : Store) (b : buffer) : list float :=
  match b with
  | Buf_im => st_im s
  | Buf_outim => st_outim s
  | Buf_input_block => st_input_block s
  | Buf_output_block => st_output_block s
  end.

Definition store_upd (s : Store) (b : buffer) (l : list float) : Store :=
  match b with
  | Buf_im => mkStore l (st_outim s) (st_input_block s) (st_output_block s)
  | Buf_outim => mkStore (st_im s) l (st_input_block s) (st_output_block s)
  | Buf_input_block => mkStore (st_im s) (st_outim s) l (st_output_block s)
  | Buf_output_block => mkStore (st_im s) (st_outim s) (st_input_block s) l
  end.

(** [n] samples of [src] from [soff] on replace those of [dst] from [doff] on. *)
Definition memcpy_list (dst : list float) (doff : Z) (src : list float) (soff n : Z)
  : list float :=
  ztab (zlen dst)
    (fun k => if (doff <=? k) && (k <? doff + n)
              then zth src (soff + (k - doff)) else zth dst k).

Definition memcpy (s : Store) (dst : ptr) (src : list float) (soff n : Z) : Store :=
  store_upd s (p_buf dst) (memcpy_list (load s (p_buf dst)) (p_off dst) src soff n).

(** [for (int i = 0; i < n; i++) body]. *)
Definition for_loop {S : Type} (n : Z) (body : Z -> S -> S) (s : S) : S :=
  fold_left (fun s i => body (Z.of_nat i) s) (seq 0 (Z.to_nat n)) s.

Definition ztake (n : Z) (l : list float) : list float := firstn (Z.to_nat n) l.

(** ** [ReconstructImage] *)

(** The network: the batch size it was told and the samples handed to
    [Reset]; [None] when the forward pass throws. *)
Definition Engine := Z -> list float -> option (list float).

Section Reconstruct.

Variable W : Waifu2x.
Variable net : Engine.
Variables Height Width Line : Z.

Let WidthNum := Z.quot Width (output_size W).
Let HeightNum := Z.quot Height (output_size W).
Let BlockNum := WidthNum * HeightNum.
Let input_block_plane_size := input_block_size W * input_block_size W.
Let output_block_plane_size := output_block_size W * output_block_size W.
Let output_padding := inner_padding W + outer_padding W - layer_num.

(** Line 448: the stitched result goes to [outim]. *)
Definition imptr : ptr := mkptr Buf_outim 0.

(** Lines 546-559: the bordered tile becomes slot [n] of [input_block]. *)
Definition serialize_tile (someborderimg : Mat) (n : Z) (s : Store) : Store :=
  let fptr := mkptr Buf_input_block (input_block_plane_size * n) in
  let uptr := data someborderimg in
  let Line := step1 someborderimg in
  if input_block_size W =? Line
  then memcpy s fptr uptr 0 (input_block_size W * input_block_size W)
  else for_loop (input_block_size W)
         (fun i s => memcpy s (ptr_add fptr (i * input_block_size W))
                       uptr (i * Line) (input_block_size W)) s.

(** Lines 484-560: one turn of the extraction loop. *)
Definition fill_tile (num n : Z) (s : Store) : Store :=
  let wn := Z.rem (num + n) WidthNum in
  let hn := Z.quot (num + n) WidthNum in
  let w := wn * output_size W in
  let h := hn * output_size W in
  if (w + crop_size W <=? Width) && (h + crop_size W <=? Height) then
    let cw := context_window W Width Height w h in
    let im := mkMat Height Width (load s Buf_im) in
    serialize_tile (extract_tile im cw) n s
  else s.

(** The destination of row [i] of the core of tile [k], relative to [imptr]. *)
Definition stitch_offset (k i : Z) : Z :=
  (tile_h W WidthNum k + i) * Line + tile_w W WidthNum k.

(** Lines 584-594: one turn of the stitching loop. *)
Definition stitch_tile (num n : Z) (s : Store) : Store :=
  let fptr := output_block_plane_size * n in
  for_loop (crop_size W)
    (fun i s => memcpy s (ptr_add imptr (stitch_offset (num + n) i))
                  (load s Buf_output_block)
                  (fptr + (i + output_padding) * output_block_size W + output_padding)
                  (crop_size W)) s.

Definition processNum_of (num : Z) : Z :=
  if (BlockNum - num) >=? batch_size W then batch_size W else BlockNum - num.

(** Lines 475-596.  The loop advances by [batch_size]; with a positive
    [batch_size] it ends within [BlockNum] turns, and [None] stands for a
    loop that does not end. *)
Fixpoint batch_loop (fuel : nat) (num : Z) (s : Store) : option (eWaifu2xError * Store) :=
  if num <? BlockNum then
    match fuel with
    | O => None
    | S fuel' =>
        let processNum := processNum_of num in
        let s1 := for_loop processNum (fill_tile num) s in
        match net processNum
                (ztake (input_block_plane_size * processNum) (load s1 Buf_input_block)) with
        | None => Some (eWaifu2xError_FailedProcessCaffe, s1)
        | Some b =>
            let s2 := memcpy s1 (mkptr Buf_output_block 0) b 0
                        (output_block_plane_size * processNum) in
            let s3 := for_loop processNum (stitch_tile num) s2 in
            batch_loop fuel' (num + batch_size W) s3
        end
    end
  else Some (eWaifu2xError_OK, s).

Definition block_count : Z := BlockNum.

End Reconstruct.

Definition with_buffers (W : Waifu2x) (s : Store) : Waifu2x :=
  mkWaifu2x (is_inited W) (mode W) (noise_level W) (scale_ratio W) (crop_size W)
    (batch_size W) (inner_padding W) (outer_padding W) (output_size W)
    (input_block_size W) (original_width_height W) (output_block_size W)
    (st_input_block s) (dummy_data W) (st_output_block s).

(** The store at the start of a pass: [outim] is fresh memory. *)
Definition pass_store (W : Waifu2x) (im : Mat) (junk : Z -> float) : Store :=
  mkStore (data im) (ztab (rows im * cols im) junk) (input_block W) (output_block W).

(** The pass up to the [catch]: the error code and the final buffers. *)
Definition ReconstructImage_run (W : Waifu2x) (net : Engine) (im : Mat) (junk : Z -> float)
  : option (eWaifu2xError * Store) :=
  let Height := rows im in
  let Width := cols im in
  let Line := step1 im in
  batch_loop W net Height Width Line
    (Z.to_nat (block_count W Height Width)) 0 (pass_store W im junk).

(** [Waifu2x::ReconstructImage]: the error code, [im] after the call and the
    object with its buffers; [im = outim] is reached on success only.  The
    [assert]s are preconditions and are not part of the model; of what the
    [catch (...)] can catch, the model has the failure of the forward pass. *)
Definition ReconstructImage (W : Waifu2x) (net : Engine) (im : Mat) (junk : Z -> float)
  : option (eWaifu2xError * Mat * Waifu2x) :=
  match ReconstructImage_run W net im junk with
  | None => None
  | Some (eWaifu2xError_OK, s) =>
      Some (eWaifu2xError_OK, mkMat (rows im) (cols im) (load s Buf_outim), with_buffers W s)
  | Some (e, s) =>
      Some (e, mkMat (rows im) (cols im) (load s Buf_im), with_buffers W s)
  end.

(** The core of tile [k]: the [crop_size] square the stitching loop writes. *)
Definition in_core (W : Waifu2x) (Width k y x : Z) : bool :=
  let WidthNum := Z.quot Width (output_size W) in
  (tile_h W WidthNum k <=? y) && (y <? tile_h W WidthNum k + crop_size W) &&
  (tile_w W WidthNum k <=? x) && (x <? tile_w W WidthNum k + crop_size W).

(** ** Sample arithmetic *)

Definition Mat_nil : Mat := mkMat 0 0 [].

Definition Mat_map (f : float -> float) (m : Mat) : Mat :=
  mkMat (rows m) (cols m) (map f (data m)).

Definition Mat_map2 (f : float -> float -> float) (a b : Mat) : Mat :=
  mkMat (rows a) (cols a) (map (fun p => f (fst p) (snd p)) (combine (data a) (data b))).

(** Line 179: [planes[i].mul(w2) + w1], with [w1 = 1.0 - w2]. *)
Definition premultiply (c a : float) : float := (c * a + (1 - a))%Q.

(** Line 870: [(planes[i] - 1.0).mul(1.0 / w2) + 1.0].  What the
    element-wise [1.0 / w2] of OpenCV holds where [w2] is 0 is not fixed by
    this file; the properties below are about the other samples. *)
Definition unpremultiply (c a : float) : float := ((c - 1) * (1 / a) + 1)%Q.

(** [cvRound]: to the nearest integer, ties to even. *)
Definition cvRound (q : Q) : Z :=
  let f := Qfloor q in
  match (q - inject_Z f ?= 1 # 2)%Q with
  | Lt => f
  | Gt => f + 1
  | Eq => if Z.even f then f else f + 1
  end.

Definition saturate_uchar (z : Z) : Z := Z.max 0 (Z.min 255 z).

(** [convertTo(dst, CV_8U, 255.0)]. *)
Definition convertTo_8U (m : Mat) : Mat :=
  Mat_map (fun v => inject_Z (saturate_uchar (cvRound (v * 255)%Q))) m.

(** [convertTo(dst, CV_32F, 1.0 / 255.0)]. *)
Definition convertTo_32F (m : Mat) : Mat := Mat_map (fun v => (v * (1 # 255))%Q) m.

(** ** The final size *)

(** Line 877: each side, converted to [double], is multiplied by the factor
    and the product is converted to [int]. *)
Definition shrink_size (image_size : Size) (shrinkRatio : double) : Size :=
  mkSize (to_int (dmul (of_int (width image_size)) shrinkRatio))
         (to_int (dmul (of_int (height image_size)) shrinkRatio)).

Definition Size_eqb (a b : Size) : bool :=
  (width a =? width b) && (height a =? height b).

(** ** File names *)

Definition to_lower (c : ascii) : ascii :=
  let n := nat_of_ascii c in
  if (Nat.leb 65 n && Nat.leb n 90)%bool then ascii_of_nat (n + 32) else c.

(** [boost::iequals] on ASCII text. *)
Fixpoint iequals (a b : string) : bool :=
  match a, b with
  | EmptyString, EmptyString => true
  | String x a', String y b' => Ascii.eqb (to_lower x) (to_lower y) && iequals a' b'
  | _, _ => false
  end.

Fixpoint has_char (c : ascii) (s : string) : bool :=
  match s with
  | EmptyString => false
  | String x s' => Ascii.eqb x c || has_char c s'
  end.

(** [boost::filesystem::path::extension]: the file name from its last dot
    on (the names "." and ".." are not told apart here; they are no JPEG
    names either way). *)
Fixpoint path_extension (s : string) : string :=
  match s with
  | EmptyString => EmptyString
  | String c s' =>
      if has_char "/" s' || has_char "." s' then path_extension s'
      else if Ascii.eqb c "." then s else EmptyString
  end.

(** ** The collaborators and the observable history of a run *)

Inductive ColorConversion := CV_RGB2YUV | CV_YUV2RGB | COLOR_GRAY2BGR.
Inductive Interpolation := INTER_NEAREST | INTER_LINEAR | INTER_CUBIC.

Definition ConvertMode := CV_RGB2YUV.
Definition ConvertInverseMode := CV_YUV2RGB.

Inductive NetKind := NetNoise | NetScale.

(** A multi-channel image is the list of its planes. *)
Definition Image := list Mat.

Record Env := mkEnv {
  imread : string -> option Image;
  imwrite : string -> Image -> bool;
  cvtColor : ColorConversion -> Image -> Image;
  resize : Mat -> Size -> Interpolation -> Mat;
  net_noise : Engine;
  net_scale : Engine;
  uninit : Z -> float;
  log2 : double -> double
}.

Definition net_of (env : Env) (k : NetKind) : Engine :=
  match k with NetNoise => net_noise env | NetScale => net_scale env end.

(** Line 809: [ceil(log2(r))], converted to [int]. *)
Definition ceil_log2 (env : Env) (r : double) : Z := to_int (ceil (log2 env r)).

(** Line 810: [r / std::pow(2.0, (double)scale2)]. *)
Definition shrink_ratio (env : Env) (r : double) : double :=
  ddiv r (pow2 (of_int (ceil_log2 env r))).

Inductive Event :=
| EvReconstruct (k : NetKind) (e : eWaifu2xError)
| EvCancelPoll (b : bool)
| EvResize (ns : Size)
| EvWrite (file : string) (image : Image) (ok : bool).

(** The cancellation probe answers from what has happened so far. *)
Definition waifu2xCancelFunc := option (list Event -> bool).

Inductive outcome (X : Type) :=
| Ret (x : X)
| Err (e : eWaifu2xError)
| Diverge.
Arguments Ret {X} x.
Arguments Err {X} e.
Arguments Diverge {X}.

Definition M (X : Type) := list Event -> outcome X * list Event.

Definition ret {X} (x : X) : M X := fun t => (Ret x, t).

Definition bind {X Y} (c : M X) (k : X -> M Y) : M Y :=
  fun t => match c t with
           | (Ret x, t') => k x t'
           | (Err e, t') => (Err e, t')
           | (Diverge, t') => (Diverge, t')
           end.

Definition throw {X} (e : eWaifu2xError) : M X := fun t => (Err e, t).

Definition emit (e : Event) : M unit := fun t => (Ret tt, t ++ [e]).

Declare Scope w2x_scope.
Notation "x <- c ;; k" := (bind c (fun x => k))
  (at level 61, c at next level, right associativity) : w2x_scope.
Notation "' p <- c ;; k" := (bind c (fun x => let p := x in k))
  (at level 61, p pattern, c at next level, right associativity) : w2x_scope.
Local Open Scope w2x_scope.

Definition is_OK (e : eWaifu2xError) : bool :=
  match e with eWaifu2xError_OK => true | _ => false end.

(** [cancel_func && cancel_func()]. *)
Definition poll (cancel_func : waifu2xCancelFunc) : M bool :=
  match cancel_func with
  | None => ret false
  | Some f => fun t => let b := f t in (Ret b, t ++ [EvCancelPoll b])
  end.

(** ** The steps of [waifu2x] *)

Definition channels (im : Image) : Z := Z.of_nat (List.length im).

Definition plane (im : Image) (i : nat) : Mat := nth i im Mat_nil.

Fixpoint set_plane (im : Image) (i : nat) (m : Mat) : Image :=
  match im, i with
  | [], _ => []
  | _ :: t, O => m :: t
  | p :: t, S i' => p :: set_plane t i' m
  end.

Definition LoadImage (env : Env) (input_file : string) : eWaifu2xError * Image :=
  match imread env input_file with
  | None => (eWaifu2xError_FailedOpenInputFile, [])
  | Some original_image =>
      let convert := map convertTo_32F original_image in
      let convert :=
        if channels convert =? 1 then cvtColor env COLOR_GRAY2BGR convert
        else if channels convert =? 4 then
          let planes := convert in
          let w2 := plane planes 3 in
          let planes := set_plane planes 0 (Mat_map2 premultiply (plane planes 0) w2) in
          let planes := set_plane planes 1 (Mat_map2 premultiply (plane planes 1) w2) in
          let planes := set_plane planes 2 (Mat_map2 premultiply (plane planes 2) w2) in
          planes
        else convert in
      (eWaifu2xError_OK, convert)
  end.

Definition CreateBrightnessImage (env : Env) (float_image : Image) : Mat :=
  let converted_color := cvtColor env ConvertMode float_image in
  plane converted_color 0.

Definition Zoom2xAndPaddingImage (env : Env) (W : Waifu2x) (input : Mat) : Mat * Size :=
  let zoom_size := mkSize (width (Mat_size input) * 2) (height (Mat_size input) * 2) in
  let zoom_image := resize env input zoom_size INTER_NEAREST in
  (PaddingImage W zoom_image, zoom_size).

Definition CreateZoomColorImage (env : Env) (float_image : Image) (zoom_size : Size) : Image :=
  let zoom_cubic_image := map (fun p => resize env p zoom_size INTER_CUBIC) float_image in
  let converted_cubic_image := cvtColor env ConvertMode zoom_cubic_image in
  set_plane converted_cubic_image 0 Mat_nil.

(** A call of [ReconstructImage], entered in the history with its result. *)
Definition reconstruct (env : Env) (k : NetKind) (W : Waifu2x) (im : Mat)
  : M (eWaifu2xError * Mat * Waifu2x) :=
  fun t => match ReconstructImage W (net_of env k) im (uninit env) with
           | None => (Diverge, t)
           | Some (e, im', W') => (Ret (e, im', W'), t ++ [EvReconstruct k e])
           end.

(** Lines 815-825, [n] turns. *)
Fixpoint scale_loop (env : Env) (n : nat) (W : Waifu2x) (im : Mat) (image_size : Size)
  : M (Waifu2x * Mat * Size) :=
  match n with
  | O => ret (W, im, image_size)
  | S n' =>
      let '(im, image_size) := Zoom2xAndPaddingImage env W im in
      '(e, im, W) <- reconstruct env NetScale W im ;;
      if is_OK e then scale_loop env n' W (crop_padding im image_size) image_size
      else throw e
  end.

(** Lines 860-875. *)
Definition remove_alpha (process_image : Image) (alpha : Mat) : Image :=
  let planes := process_image ++ [alpha] in
  let w2 := plane planes 3 in
  let planes := set_plane planes 0 (Mat_map2 unpremultiply (plane planes 0) w2) in
  let planes := set_plane planes 1 (Mat_map2 unpremultiply (plane planes 1) w2) in
  let planes := set_plane planes 2 (Mat_map2 unpremultiply (plane planes 2) w2) in
  planes.

Definition isJpeg_of (input_file : string) : bool :=
  let ipext := path_extension input_file in
  iequals ipext ".jpg" || iequals ipext ".jpeg".

Definition isReconstructNoise_of (W : Waifu2x) (isJpeg : bool) : bool :=
  String.eqb (mode W) "noise" || String.eqb (mode W) "noise_scale"
  || (String.eqb (mode W) "auto_scale" && isJpeg).

Definition isReconstructScale_of (W : Waifu2x) : bool :=
  String.eqb (mode W) "scale" || String.eqb (mode W) "noise_scale".

(** Lines 794-804: the denoise stage. *)
Definition noise_stage (env : Env) (W : Waifu2x) (im : Mat) (image_size : Size)
    (isReconstructNoise : bool) : M (Waifu2x * Mat) :=
  if isReconstructNoise then
    let im := PaddingImage W im in
    '(e, im, W) <- reconstruct env NetNoise W im ;;
    if is_OK e then ret (W, crop_padding im image_size) else throw e
  else ret (W, im).

(** Lines 812-826: the upscale stage. *)
Definition scale_stage (env : Env) (W : Waifu2x) (im : Mat) (image_size : Size)
    (isReconstructScale : bool) (scale2 : Z) : M (Waifu2x * Mat * Size) :=
  if isReconstructScale then scale_loop env (Z.to_nat scale2) W im image_size
  else ret (W, im, image_size).

(** Lines 833-875: the colour image around the reconstructed luminance. *)
Definition recompose (env : Env) (float_image : Image) (im : Mat) (image_size : Size)
  : Image :=
  let color_planes := CreateZoomColorImage env float_image image_size in
  let alpha :=
    if channels float_image =? 4
    then resize env (plane float_image 3) image_size INTER_CUBIC
    else Mat_nil in
  let color_planes := set_plane color_planes 0 im in
  let converted_image := color_planes in
  let process_image := cvtColor env ConvertInverseMode converted_image in
  if negb (Mat_empty alpha) then remove_alpha process_image alpha
  else process_image.

(** Lines 877-890: the final resize and the output file. *)
Definition write_stage (env : Env) (output_file : string) (process_image : Image)
    (image_size : Size) (shrinkRatio : double) : M unit :=
  let ns := shrink_size image_size shrinkRatio in
  process_image <-
    (if negb (Size_eqb image_size ns) then
       _ <- emit (EvResize ns) ;;
       ret (map (fun p => resize env p ns INTER_LINEAR) process_image)
     else ret process_image) ;;
  let write_iamge := map convertTo_8U process_image in
  let ok := imwrite env output_file write_iamge in
  _ <- emit (EvWrite output_file write_iamge ok) ;;
  if negb ok then throw eWaifu2xError_FailedOpenOutputFile else ret tt.

Definition waifu2x_body (env : Env) (W : Waifu2x) (input_file output_file : string)
    (cancel_func : waifu2xCancelFunc) : M unit :=
  if negb (is_inited W) then throw eWaifu2xError_NotInitialized else
  let '(ret0, float_image) := LoadImage env input_file in
  if negb (is_OK ret0) then throw ret0 else
  let im := CreateBrightnessImage env float_image in
  let image_size := Mat_size im in
  let isJpeg := isJpeg_of input_file in
  let isReconstructNoise := isReconstructNoise_of W isJpeg in
  let isReconstructScale := isReconstructScale_of W in
  '(W, im) <- noise_stage env W im image_size isReconstructNoise ;;
  c <- poll cancel_func ;;
  if c then throw eWaifu2xError_Cancel else
  let scale2 := ceil_log2 env (scale_ratio W) in
  let shrinkRatio := ddiv (scale_ratio W) (pow2 (of_int scale2)) in
  '(W, im, image_size) <- scale_stage env W im image_size isReconstructScale scale2 ;;
  c <- poll cancel_func ;;
  if c then throw eWaifu2xError_Cancel else
  write_stage env output_file (recompose env float_image im image_size)
    image_size shrinkRatio.

(** [Waifu2x::waifu2x]: the returned code ([None] if the call does not
    return) and the history of the call. *)
Definition code_of {X} (o : outcome X) : option eWaifu2xError :=
  match o with
  | Ret _ => Some eWaifu2xError_OK
  | Err e => Some e
  | Diverge => None
  end.

Definition waifu2x (env : Env) (W : Waifu2x) (input_file output_file : string)
    (cancel_func : waifu2xCancelFunc) : option eWaifu2xError * list Event :=
  let '(o, t) := waifu2x_body env W input_file output_file cancel_func [] in
  (code_of o, t).

(** ** Reading a history *)

Definition is_pass (k : NetKind) (ev : Event) : bool :=
  match ev, k with
  | EvReconstruct NetNoise _, NetNoise => true
  | EvReconstruct NetScale _, NetScale => true
  | _, _ => false
  end.

Definition is_poll (ev : Event) : bool :=
  match ev with EvCancelPoll _ => true | _ => false end.

Definition is_write (ev : Event) : bool :=
  match ev with EvWrite _ _ _ => true | _ => false end.

Definition count (p : Event -> bool) (t : list Event) : nat :=
  List.length (filter p t).

Definition passes (k : NetKind) (t : list Event) : nat := count (is_pass k) t.
Definition polls (t : list Event) : nat := count is_poll t.
Definition writes (t : list Event) : nat := count is_write t.

Definition resizes (t : list Event) : list Size :=
  flat_map (fun ev => match ev with EvResize ns => [ns] | _ => [] end) t.

Definition probe_fires (c : waifu2xCancelFunc) (t : list Event) : bool :=
  match c with None => false | Some f => f t end.

Definition poll_events (c : waifu2xCancelFunc) (t : list Event) : list Event :=
  match c with None => [] | Some f => [EvCancelPoll (f t)] end.

(** A network whose forward pass never throws. *)
Definition engine_total (net : Engine) : Prop := forall n b, net n b <> None.

(** The fields [init] sets, without the buffers. *)
Definition config (W : Waifu2x) :=
  (is_inited W, mode W, noise_level W, scale_ratio W, crop_size W, batch_size W,
   (inner_padding W, outer_padding W, output_size W, input_block_size W,
    original_width_height W, output_block_size W)).

(** ** The ways a call of [waifu2x] can go *)

Definition ok_passes (k : NetKind) (n : nat) : list Event :=
  repeat (EvReconstruct k eWaifu2xError_OK) n.

(** The size after [n] doublings. *)
Definition scaled (sz : Size) (n : nat) : Size :=
  mkSize (width sz * 2 ^ Z.of_nat n) (height sz * 2 ^ Z.of_nat n).

(** The number of turns of the upscale loop. *)
Definition scale_turns (env : Env) (W : Waifu2x) : nat :=
  if isReconstructScale_of W then Z.to_nat (ceil_log2 env (scale_ratio W)) else O.

(** The history once a successful denoise stage is over. *)
Definition after_noise (W : Waifu2x) (input_file : string) : list Event :=
  if isReconstructNoise_of W (isJpeg_of input_file) then ok_passes NetNoise 1 else [].

(** The history once a successful upscale loop is over. *)
Definition after_scale (env : Env) (W : Waifu2x) (input_file : string)
    (c : waifu2xCancelFunc) : list Event :=
  let a := after_noise W input_file in
  a ++ poll_events c a ++ ok_passes NetScale (scale_turns env W).

Inductive run_shape (env : Env) (W : Waifu2x) (input_file output_file : string)
    (c : waifu2xCancelFunc) : option eWaifu2xError -> list Event -> Prop :=
| shape_not_inited :
    is_inited W = false ->
    run_shape env W input_file output_file c (Some eWaifu2xError_NotInitialized) []
| shape_load_failed :
    is_inited W = true -> imread env input_file = None ->
    run_shape env W input_file output_file c (Some eWaifu2xError_FailedOpenInputFile) []
| shape_noise_diverges float_image :
    is_inited W = true -> LoadImage env input_file = (eWaifu2xError_OK, float_image) ->
    isReconstructNoise_of W (isJpeg_of input_file) = true -> batch_size W <= 0 ->
    run_shape env W input_file output_file c None []
| shape_noise_failed float_image :
    is_inited W = true -> LoadImage env input_file = (eWaifu2xError_OK, float_image) ->
    isReconstructNoise_of W (isJpeg_of input_file) = true ->
    ~ engine_total (net_noise env) ->
    run_shape env W input_file output_file c (Some eWaifu2xError_FailedProcessCaffe)
      [EvReconstruct NetNoise eWaifu2xError_FailedProcessCaffe]
| shape_cancel_before_scale float_image :
    is_inited W = true -> LoadImage env input_file = (eWaifu2xError_OK, float_image) ->
    let a := after_noise W input_file in
    probe_fires c a = true ->
    run_shape env W input_file output_file c (Some eWaifu2xError_Cancel)
      (a ++ poll_events c a)
| shape_scale_diverges float_image j :
    is_inited W = true -> LoadImage env input_file = (eWaifu2xError_OK, float_image) ->
    let a := after_noise W input_file in
    probe_fires c a = false -> (j < scale_turns env W)%nat -> batch_size W <= 0 ->
    run_shape env W input_file output_file c None
      (a ++ poll_events c a ++ ok_passes NetScale j)
| shape_scale_failed float_image j :
    is_inited W = true -> LoadImage env input_file = (eWaifu2xError_OK, float_image) ->
    let a := after_noise W input_file in
    probe_fires c a = false -> (j < scale_turns env W)%nat ->
    ~ engine_total (net_scale env) ->
    run_shape env W input_file output_file c (Some eWaifu2xError_FailedProcessCaffe)
      (a ++ poll_events c a ++ ok_passes NetScale j
         ++ [EvReconstruct NetScale eWaifu2xError_FailedProcessCaffe])
| shape_cancel_after_scale float_image :
    is_inited W = true -> LoadImage env input_file = (eWaifu2xError_OK, float_image) ->
    let a := after_noise W input_file in
    let b := after_scale env W input_file c in
    probe_fires c a = false -> probe_fires c b = true ->
    run_shape env W input_file output_file c (Some eWaifu2xError_Cancel)
      (b ++ poll_events c b)
| shape_done float_image process_image :
    is_inited W = true -> LoadImage env input_file = (eWaifu2xError_OK, float_image) ->
    let a := after_noise W input_file in
    let b := after_scale env W input_file c in
    probe_fires c a = false -> probe_fires c b = false ->
    let image_size :=
      scaled (Mat_size (CreateBrightnessImage env float_image)) (scale_turns env W) in
    let ns := shrink_size image_size (shrink_ratio env (scale_ratio W)) in
    let resized := negb (Size_eqb image_size ns) in
    let write_iamge :=
      map convertTo_8U
        (if resized then map (fun p => resize env p ns INTER_LINEAR) process_image
         else process_image) in
    let ok := imwrite env output_file write_iamge in
    run_shape env W input_file output_file c
      (Some (if ok then eWaifu2xError_OK else eWaifu2xError_FailedOpenOutputFile))
      (b ++ poll_events c b ++ (if resized then [EvResize ns] else [])
         ++ [EvWrite output_file write_iamge ok]).

(** ** A small instance *)

(** A network that hands back the middle of every tile: with it a pass
    leaves the canvas as it was. *)
Definition crop_engine (CropSize : Z) : Engine :=
  fun n buf =>
    let ibs := CropSize + 16 in
    let obs := CropSize + 2 in
    Some (ztab (obs * obs * n)
            (fun k => let tile := k / (obs * obs) in
                      let cell := k mod (obs * obs) in
                      zth buf (tile * (ibs * ibs)
                               + (cell / obs + layer_num) * ibs
                               + (cell mod obs + layer_num)))).

(** A network whose forward pass always throws. *)
Definition failing_engine : Engine := fun _ _ => None.

(** Nearest-neighbour resampling, used for every interpolation flag. *)
Definition nearest_resize (m : Mat) (s : Size) (_ : Interpolation) : Mat :=
  Mat_tab (height s) (width s)
    (fun y x => Mat_at m (y * rows m / height s) (x * cols m / width s)).

Definition sample_plane : Mat :=
  mkMat 3 3 (map inject_Z [10; 20; 30; 40; 50; 60; 70; 80; 90]).

(** A [log2] that is exact at the powers of two and linear between them. *)
Definition sample_log2 (x : double) : double :=
  match x with
  | Fin q =>
      if Qle_bool q 0 then (if Qeq_bool q 0 then Inf true else NaN)
      else let e := Qlog2 q in round_double (inject_Z e + (q / Qpower 2 e - 1))
  | Inf false => Inf false
  | _ => NaN
  end.

Definition sample_env (noise scale : Engine) : Env :=
  mkEnv (fun _ => Some [sample_plane; sample_plane; sample_plane])
        (fun _ _ => true)
        (fun _ image => image)
        nearest_resize
        noise scale
        (fun _ => 0%Q)
        sample_log2.

Definition sample_W (Mode : string) (ScaleRatio : Q) : Waifu2x :=
  snd (init Waifu2x_new Mode 1 (Fin ScaleRatio) 2 2 eWaifu2xError_OK (fun _ => 0%Q)).

(** A cancellation request that arrives once the first upscale pass is over. *)
Definition signal_after_first_pass (t : list Event) : bool :=
  Nat.leb 1 (passes NetScale t).

(** The kinds of events, for the order in which a history lists them. *)
Definition is_out (ev : Event) : bool :=
  match ev with EvResize _ | EvWrite _ _ _ => true | _ => false end.

Definition quiet_pass (ev : Event) : bool :=
  match ev with EvReconstruct _ e => is_OK e | _ => true end.

Definition poll_slot (P : list Event) : Prop :=
  P = [] \/ exists b, P = [EvCancelPoll b].

(** ** What a pass computes *)

(** The relations [init] sets up between the sizes. *)
Definition sized (W : Waifu2x) : Prop :=
  inner_padding W = layer_num /\ outer_padding W = 1 /\
  output_size W = crop_size W /\
  input_block_size W = crop_size W + 16 /\
  output_block_size W = crop_size W + 2.

(** The sizes and the lengths of the two buffers; the passes keep them. *)
Definition configured (W : Waifu2x) : Prop :=
  sized W /\
  zlen (input_block W) = input_block_size W * input_block_size W * batch_size W /\
  zlen (output_block W) = output_block_size W * output_block_size W * batch_size W.

(** The bordered context of tile [k], cut from the canvas [im]. *)
Definition tile_input (W : Waifu2x) (im : Mat) (k : Z) : list float :=
  match tile_window W (cols im) (rows im) k with
  | Some cw => data (extract_tile im cw)
  | None => []
  end.

(** The tiles of the batch that starts at tile [num], one after the other. *)
Definition batch_input (W : Waifu2x) (im : Mat) (num : Z) : list float :=
  let plane_size := input_block_size W * input_block_size W in
  ztab (plane_size * processNum_of W (rows im) (cols im) num)
    (fun q => zth (tile_input W im (num + q / plane_size)) (q mod plane_size)).

(** The tile whose core holds the pixel [(y, x)]. *)
Definition tile_of (W : Waifu2x) (Width y x : Z) : Z :=
  y / crop_size W * Z.quot Width (output_size W) + x / crop_size W.

(** The sample the network returns for row [i], column [j] of the core of
    tile [k], when it is given the tiles of the canvas [im]. *)
Definition core_value (W : Waifu2x) (net : Engine) (im : Mat) (k i j : Z) : float :=
  let num := k / batch_size W * batch_size W in
  let output_padding := inner_padding W + outer_padding W - layer_num in
  match net (processNum_of W (rows im) (cols im) num) (batch_input W im num) with
  | Some out =>
      zth out (output_block_size W * output_block_size W * (k mod batch_size W)
               + (i + output_padding) * output_block_size W + output_padding + j)
  | None => 0%Q
  end.

(** The canvas made of the cores the network returns for the tiles of [im]. *)
Definition reconstructed (W : Waifu2x) (net : Engine) (im : Mat) : Mat :=
  Mat_tab (rows im) (cols im)
    (fun y x => core_value W net im (tile_of W (cols im) y x)
                  (y mod crop_size W) (x mod crop_size W)).

(** The network throws on the batch that starts at tile [num]. *)
Definition batch_fails (W : Waifu2x) (net : Engine) (im : Mat) (num : Z) : Prop :=
  net (processNum_of W (rows im) (cols im) num) (batch_input W im num) = None.

(** What holds of the buffers of a pass over the canvas [im] when the batch
    loop is about to start the batch number [q]. *)
Definition pass_inv (W : Waifu2x) (net : Engine) (im : Mat) (q : Z) (s : Store) : Prop :=
  load s Buf_im = data im /\
  zlen (load s Buf_outim) = rows im * cols im /\
  zlen (load s Buf_input_block) = input_block_size W * input_block_size W * batch_size W /\
  zlen (load s Buf_output_block)
  = output_block_size W * output_block_size W * batch_size W /\
  (forall q', 0 <= q' < q -> q' * batch_size W < block_count W (rows im) (cols im) ->
     ~ batch_fails W net im (q' * batch_size W)) /\
  (forall y x, 0 <= y < rows im -> 0 <= x < cols im ->
     tile_of W (cols im) y x < q * batch_size W ->
     zth (load s Buf_outim) (y * cols im + x)
     = core_value W net im (tile_of W (cols im) y x)
         (y mod crop_size W) (x mod crop_size W)).

(** A step [f c a] that divides by [a] is guarded against a small divisor
    when, below some threshold of [a], its values stay within a bound. *)
Definition near_zero_guarded (f : float -> float -> float) : Prop :=
  exists eps B : Q, (0 < eps)%Q /\
    forall c a, (0 <= c <= 1)%Q -> (0 < a < eps)%Q -> (Qabs (f c a) <= B)%Q.

(** The sample plane padded for a crop size of 2. *)
Definition sample_canvas : Mat := PaddingImage (sample_W "scale" 2) sample_plane.

(** The image [LoadImage] makes of the sample file. *)
Definition sample_float_image : Image :=
  snd (LoadImage (sample_env (crop_engine 2) (crop_engine 2)) "in.png").

(** ** Networks that work tile by tile *)

(** [v] brought into the range from [lo] to [hi]. *)
Definition clamp (lo hi v : Z) : Z := Z.max lo (Z.min hi v).

(** Slot [n] of a buffer made of slots of [plane_size] samples. *)
Definition slot (plane_size n : Z) (buf : list float) : list float :=
  ztab plane_size (fun q => zth buf (plane_size * n + q)).

(** A network that maps every tile of its batch by [f], each on its own. *)
Definition tilewise (W : Waifu2x) (f : list float -> list float) : Engine :=
  fun n buf =>
    let input_plane := input_block_size W * input_block_size W in
    let output_plane := output_block_size W * output_block_size W in
    Some (ztab (output_plane * n)
            (fun k => zth (f (slot input_plane (k / output_plane) buf))
                        (k mod output_plane))).

(** The tile without the [layer_num] cells the layers take off each side. *)
Definition centre_crop (W : Waifu2x) (tile : list float) : list float :=
  ztab (output_block_size W * output_block_size W)
    (fun k => zth tile ((k / output_block_size W + layer_num) * input_block_size W
                        + (k mod output_block_size W + layer_num))).

(** ** Copies that stay inside their buffers *)

(** The copy [memcpy s dst src soff n] reads and writes inside the buffers. *)
Definition memcpy_in_bounds (s : Store) (dst : ptr) (src : list float) (soff n : Z) : Prop :=
  0 <= n /\
  0 <= p_off dst /\ p_off dst + n <= zlen (load s (p_buf dst)) /\
  0 <= soff /\ soff + n <= zlen src.

(** The buffers of a pass over the canvas [im] have the sizes they were
    allocated with, and [im] is untouched. *)
Definition buffers_sized (W : Waifu2x) (im : Mat) (s : Store) : Prop :=
  load s Buf_im = data im /\
  zlen (load s Buf_outim) = rows im * cols im /\
  zlen (load s Buf_input_block) = input_block_size W * input_block_size W * batch_size W /\
  zlen (load s Buf_output_block)
  = output_block_size W * output_block_size W * batch_size W.

(** ** Doubling *)

(** The image [Zoom2xAndPaddingImage] makes before it pads. *)
Definition zoom2x (env : Env) (m : Mat) : Mat :=
  resize env m (mkSize (cols m * 2) (rows m * 2)) INTER_NEAREST.

Fixpoint zoomed (env : Env) (n : nat) (m : Mat) : Mat :=
  match n with
  | O => m
  | S n' => zoomed env n' (zoom2x env m)
  end.

(** [cv::resize] returns an image of the size it is asked for. *)
Definition resize_sized (env : Env) : Prop :=
  forall m sz i, 0 <= width sz -> 0 <= height sz ->
    Mat_wf (resize env m sz i) /\ Mat_size (resize env m sz i) = sz.

(** ** [destroy] *)

(** [Waifu2x::destroy]: the buffers are freed and their pointers reset, the
    object is no longer initialised; the other fields keep their values. *)
Definition destroy (W : Waifu2x) : Waifu2x :=
  mkWaifu2x false (mode W) (noise_level W) (scale_ratio W) (crop_size W)
    (batch_size W) (inner_padding W) (outer_padding W) (output_size W)
    (input_block_size W) (original_width_height W) (output_block_size W)
    [] [] [].

(** ** Planes up to the value of their samples *)

(** Two planes of the same shape whose samples are equal as rationals. *)
Definition Mat_Qeq (a b : Mat) : Prop :=
  rows a = rows b /\ cols a = cols b /\ Forall2 Qeq (data a) (data b).

(** Every sample of the plane lies between [lo] and [hi]. *)
Definition samples_within (lo hi : Q) (m : Mat) : Prop :=
  Forall (fun v => (lo <= v <= hi)%Q) (data m).

(** The samples of an 8-bit plane. *)
Definition is_8U (m : Mat) : Prop :=
  Forall (fun v => exists z, v = inject_Z z /\ 0 <= z <= 255) (data m).

(** ** The checks of [init] on CUDA and the choice of the process *)

Inductive eWaifu2xCudaError :=
| eWaifu2xCudaError_OK
| eWaifu2xCudaError_NotFind
| eWaifu2xCudaError_OldVersion.

Inductive eWaifu2xcuDNNError :=
| eWaifu2xcuDNNError_OK
| eWaifu2xcuDNNError_NotFind
| eWaifu2xcuDNNError_OldVersion
| eWaifu2xcuDNNError_CannotCreate.

Definition MinCudaDriverVersion : Z := 6050.

(** [Waifu2x::can_use_CUDA], as its first call computes it; a query gives
    [Some version] when it returns [cudaSuccess]. *)
Definition can_use_CUDA (cudaDriverGetVersion cudaRuntimeGetVersion : option Z)
  : eWaifu2xCudaError :=
  match cudaDriverGetVersion with
  | Some driverVersion =>
      if driverVersion >? 0 then
        match cudaRuntimeGetVersion with
        | Some runtimeVersion =>
            if (runtimeVersion >=? MinCudaDriverVersion)
               && (driverVersion >=? runtimeVersion)
            then eWaifu2xCudaError_OK
            else eWaifu2xCudaError_OldVersion
        | None => eWaifu2xCudaError_NotFind
        end
      else eWaifu2xCudaError_NotFind
  | None => eWaifu2xCudaError_NotFind
  end.

(** Lines 652-659 and 679-688 of [init]: the process that is used and
    [isCuda]; [None] is the return of [eWaifu2xError_FailedCudaCheck]. *)
Definition select_process (Process : string) (cuda : eWaifu2xCudaError)
    (cudnn : eWaifu2xcuDNNError) : option (string * bool) :=
  let process :=
    if String.eqb Process "gpu" then
      match cuda with
      | eWaifu2xCudaError_OK =>
          Some (match cudnn with
                | eWaifu2xcuDNNError_OK => "cudnn"%string
                | _ => Process
                end)
      | _ => None
      end
    else Some Process in
  match process with
  | Some process => Some (process, negb (String.eqb process "cpu"))
  | None => None
  end.

(** ** [LoadParameter]: the weights of one layer *)

(** The array "weight" of a layer of the model file: output planes, input
    planes, kernel rows, kernel cells. *)
Definition Weight := list (list (list (list float))).

Definition Size_of {A : Type} (l : list A) : Z := Z.of_nat (List.length l).

(** Lines 354-365: the four loops that fill [weightList]. *)
Definition flatten_weight (weight : Weight) : list float :=
  fold_left (fun weightList it2 =>
    fold_left (fun weightList it3 =>
      fold_left (fun weightList it4 =>
        fold_left (fun weightList it5 => weightList ++ [it5]) it4 weightList)
        it3 weightList)
      it2 weightList)
    weight [].

(** Lines 340-372 for one layer whose blobs hold [b0_count] and [b1_count]
    samples: the error, or the two lists [caffe_copy] reads [b0_count] and
    [b1_count] samples of.  [weight[0]] of an empty array is read as an
    empty array. *)
Definition load_layer (b0_count b1_count : Z) (weight : Weight) (bias : list float)
  : eWaifu2xError + (list float * list float) :=
  let WeightSize1 := Size_of weight in
  let WeightSize2 := Size_of (nth 0 weight []) in
  let KernelHeight := Size_of (nth 0 (nth 0 weight []) []) in
  let KernelWidth := Size_of (nth 0 (nth 0 (nth 0 weight []) []) []) in
  if negb (b0_count =? WeightSize1 * WeightSize2 * KernelHeight * KernelWidth)
  then inl eWaifu2xError_FailedConstructModel
  else if negb (b1_count =? Size_of bias)
  then inl eWaifu2xError_FailedConstructModel
  else inr (flatten_weight weight, bias).

(** Every output plane has [n2] input planes of [n3] rows of [n4] cells. *)
Definition rectangular (n2 n3 n4 : nat) (weight : Weight) : Prop :=
  Forall (fun it2 => List.length it2 = n2 /\
    Forall (fun it3 => List.length it3 = n3 /\
      Forall (fun it4 => List.length it4 = n4) it3) it2) weight.

(** ** [ConstractNet]: the layers of the network description *)

Inductive ConvolutionParameter_Engine :=
| ConvolutionParameter_Engine_DEFAULT
| ConvolutionParameter_Engine_CAFFE
| ConvolutionParameter_Engine_CUDNN.

Inductive ReLUParameter_Engine :=
| ReLUParameter_Engine_DEFAULT
| ReLUParameter_Engine_CAFFE
| ReLUParameter_Engine_CUDNN.

(** What [ConstractNet] reads and sets of a [caffe::LayerParameter]. *)
Record LayerParameter := mkLayerParameter {
  layer_type : string;
  convolution_engine : ConvolutionParameter_Engine;
  relu_engine : ReLUParameter_Engine;
  memory_data_width : Z;
  memory_data_height : Z
}.

(** Lines 402-425: one turn of the loop over the layers. *)
Definition set_layer (W : Waifu2x) (process : string) (layer_param : LayerParameter)
  : LayerParameter :=
  let type := layer_type layer_param in
  if String.eqb type "Convolution" then
    mkLayerParameter type
      (if String.eqb process "cudnn" then ConvolutionParameter_Engine_CUDNN
       else ConvolutionParameter_Engine_CAFFE)
      (relu_engine layer_param)
      (memory_data_width layer_param) (memory_data_height layer_param)
  else if String.eqb type "ReLU" then
    mkLayerParameter type (convolution_engine layer_param)
      (if String.eqb process "cudnn" then ReLUParameter_Engine_CUDNN
       else ReLUParameter_Engine_CAFFE)
      (memory_data_width layer_param) (memory_data_height layer_param)
  else if String.eqb type "MemoryData" then
    if (memory_data_width layer_param =? original_width_height W)
       && (memory_data_height layer_param =? original_width_height W)
    then mkLayerParameter type (convolution_engine layer_param) (relu_engine layer_param)
           (input_block_size W) (input_block_size W)
    else layer_param
  else layer_param.

(** [Waifu2x::ConstractNet] up to the construction of the network: the
    layers handed to [caffe::Net], or the error when the description cannot
    be read. *)
Definition ConstractNet (W : Waifu2x) (ReadProtoFromTextFile : option (list LayerParameter))
    (process : string) : eWaifu2xError * list LayerParameter :=
  match ReadProtoFromTextFile with
  | None => (eWaifu2xError_FailedOpenModelFile, [])
  | Some layers => (eWaifu2xError_OK, map (set_layer W process) layers)
  end.

(** ** More of the small instance *)

(** A file with an alpha plane. *)
Definition sample_rgba_env : Env :=
  mkEnv (fun _ => Some [sample_plane; sample_plane; sample_plane; sample_plane])
        (fun _ _ => true)
        (fun _ image => image)
        nearest_resize
        failing_engine failing_engine
        (fun _ => 0%Q)
        sample_log2.

(** The sample object with a batch size of 1. *)
Definition sample_W_single : Waifu2x :=
  snd (init Waifu2x_new "scale" 1 (Fin 2) 2 1 eWaifu2xError_OK (fun _ => 0%Q)).

(** The sample object with other content in its buffers. *)
Definition sample_W_stale : Waifu2x :=
  snd (init Waifu2x_new "noise" 1 (Fin 1) 2 2 eWaifu2xError_OK (fun _ => 1%Q)).

(** A weight array of one output plane, one input plane and a 2 by 2 kernel. *)
Definition sample_weight : Weight := [[[[1; 2]; [3; 4]]]]%Q.

(** * Properties *)

(** ** Buffers and matrices, pointwise *)

Lemma ztab_length (n : Z) (f : Z -> float) : List.length (ztab n f) = Z.to_nat n.
Proof. unfold ztab. now rewrite length_map, length_seq. Qed.

Lemma zlen_ztab (n : Z) (f : Z -> float) : 0 <= n -> zlen (ztab n f) = n.
Proof. intros. unfold zlen. rewrite ztab_length. lia. Qed.

Lemma zth_ztab (n : Z) (f : Z -> float) (k : Z) :
  0 <= k < n -> zth (ztab n f) k = f k.
Proof.
  intros Hk. unfold zth, ztab.
  destruct (Z.ltb_spec k 0); [lia|].
  rewrite nth_indep with (d' := f (Z.of_nat 0)) by (rewrite length_map, length_seq; lia).
  rewrite (map_nth (fun i => f (Z.of_nat i))), seq_nth by lia.
  f_equal. lia.
Qed.

Lemma zth_ext (l1 l2 : list float) :
  zlen l1 = zlen l2 ->
  (forall k, 0 <= k < zlen l1 -> zth l1 k = zth l2 k) -> l1 = l2.
Proof.
  unfold zlen, zth. intros Hl H.
  apply nth_ext with (d := 0%Q) (d' := 0%Q); [lia|].
  intros n Hn. specialize (H (Z.of_nat n) ltac:(lia)).
  destruct (Z.ltb_spec (Z.of_nat n) 0); [lia|].
  now rewrite Nat2Z.id in H.
Qed.

Lemma cell_div_mod (c y x : Z) :
  0 <= x < c -> (y * c + x) / c = y /\ (y * c + x) mod c = x.
Proof.
  intros Hx. split.
  - rewrite Z.add_comm, Z.div_add by lia. rewrite Z.div_small; lia.
  - rewrite Z.add_comm, Z.mod_add by lia. apply Z.mod_small; lia.
Qed.

Lemma cell_in_range (r c y x : Z) :
  0 <= y < r -> 0 <= x < c -> 0 <= y * c + x < r * c.
Proof. intros. nia. Qed.

Lemma Mat_at_tab (r c : Z) (f : Z -> Z -> float) (y x : Z) :
  0 <= y < r -> 0 <= x < c -> Mat_at (Mat_tab r c f) y x = f y x.
Proof.
  intros Hy Hx. unfold Mat_at, Mat_tab, step1. cbn [data cols].
  rewrite zth_ztab by (apply cell_in_range; lia).
  destruct (cell_div_mod c y x Hx) as [-> ->]. reflexivity.
Qed.

Lemma Mat_tab_wf (r c : Z) (f : Z -> Z -> float) :
  0 <= r -> 0 <= c -> Mat_wf (Mat_tab r c f).
Proof.
  intros. unfold Mat_wf, Mat_tab. cbn [rows cols data].
  rewrite zlen_ztab by nia. lia.
Qed.

Lemma Mat_ext (a b : Mat) :
  Mat_wf a -> Mat_wf b -> rows a = rows b -> cols a = cols b ->
  (forall y x, 0 <= y < rows a -> 0 <= x < cols a -> Mat_at a y x = Mat_at b y x) ->
  a = b.
Proof.
  destruct a as [ra ca da], b as [rb cb db]. unfold Mat_wf, Mat_at, step1.
  cbn [rows cols data]. intros (Hr & Hc & Hl) (_ & _ & Hl') <- <- H.
  f_equal. apply zth_ext; [lia|].
  intros k Hk. rewrite Hl in Hk.
  assert (0 < ca) by nia.
  pose proof (Z.div_mod k ca ltac:(lia)) as E.
  pose proof (Z.mod_pos_bound k ca ltac:(lia)).
  assert (0 <= k / ca < ra).
  { split; [apply Z.div_pos; lia | apply Z.div_lt_upper_bound; lia]. }
  replace k with (k / ca * ca + k mod ca) by lia.
  apply H; lia.
Qed.

(** ** Arithmetic of the tile grid *)

Lemma rem_zero_multiple (a b : Z) :
  0 <= a -> 0 < b -> Z.rem a b = 0 -> a = b * Z.quot a b /\ 0 <= Z.quot a b.
Proof.
  intros Ha Hb Hr.
  pose proof (Z.quot_rem' a b) as E. rewrite Hr in E.
  split; [lia|]. apply Z.quot_pos; lia.
Qed.

Lemma tile_index_bounds (WN HN k : Z) :
  0 <= k < WN * HN -> 0 <= WN -> 0 <= HN ->
  0 <= Z.rem k WN < WN /\ 0 <= Z.quot k WN < HN.
Proof.
  intros Hk HW HH.
  assert (0 < WN) by nia.
  rewrite Z.rem_mod_nonneg, Z.quot_div_nonneg by lia.
  pose proof (Z.mod_pos_bound k WN ltac:(lia)).
  pose proof (Z.div_pos k WN ltac:(lia) ltac:(lia)).
  assert (k / WN < HN).
  { apply Z.div_lt_upper_bound; lia. }
  lia.
Qed.

(** What a successful [init] of a fresh object establishes. *)
Lemma init_fields Mode NL SR CS BS junk W :
  init Waifu2x_new Mode NL SR CS BS eWaifu2xError_OK junk = (eWaifu2xError_OK, W) ->
  is_inited W = true /\ mode W = Mode /\ scale_ratio W = SR /\
  crop_size W = CS /\ batch_size W = BS /\
  inner_padding W = 7 /\ outer_padding W = 1 /\ output_size W = CS /\
  input_block_size W = CS + 16 /\ output_block_size W = CS + 2 /\
  input_block W = ztab ((CS + 16) * (CS + 16) * BS) junk /\
  output_block W = ztab ((CS + 2) * (CS + 2) * BS) junk.
Proof.
  unfold init. simpl is_inited. cbv iota.
  destruct (dleb SR (Fin 0)); [discriminate|]. cbv zeta.
  destruct (_ <? 0); [discriminate|].
  destruct (_ <? 0); [discriminate|].
  intros E. injection E as <-. cbn.
  unfold offset. rewrite Z.sub_0_r.
  repeat split; reflexivity.
Qed.

(** A successful [init] has allocated buffers of lengths that are not
    negative. *)
Lemma init_room Mode NL SR CS BS junk W :
  init Waifu2x_new Mode NL SR CS BS eWaifu2xError_OK junk = (eWaifu2xError_OK, W) ->
  0 <= (CS + 16) * (CS + 16) * BS /\ 0 <= (CS + 2) * (CS + 2) * BS.
Proof.
  unfold init. simpl is_inited. cbv iota.
  destruct (dleb SR (Fin 0)); [discriminate|]. cbv zeta.
  unfold layer_num.
  replace (CS + (7 + 1) * 2) with (CS + 16) by lia.
  replace (CS + (7 + 1 - 7) * 2) with (CS + 2) by lia.
  destruct (Z.ltb_spec ((CS + 16) * (CS + 16) * BS) 0); [discriminate|].
  destruct (Z.ltb_spec ((CS + 2) * (CS + 2) * BS) 0); [discriminate|].
  intros _. split; assumption.
Qed.

Lemma init_sized Mode NL SR CS BS junk W :
  init Waifu2x_new Mode NL SR CS BS eWaifu2xError_OK junk = (eWaifu2xError_OK, W) ->
  sized W /\ crop_size W = CS /\ batch_size W = BS.
Proof.
  intros Hinit. apply init_fields in Hinit.
  destruct Hinit as (_ & _ & _ & Ecs & Ebs & Ein & Eout & Eos & Eibs & Eobs & _).
  unfold sized. rewrite Ein, Eout, Eos, Eibs, Eobs, Ecs, Ebs.
  repeat split; reflexivity.
Qed.

Lemma init_configured Mode NL SR CS BS junk W :
  init Waifu2x_new Mode NL SR CS BS eWaifu2xError_OK junk = (eWaifu2xError_OK, W) ->
  0 < CS -> 0 <= BS -> configured W /\ crop_size W = CS /\ batch_size W = BS.
Proof.
  intros Hinit HCS HBS. destruct (init_sized _ _ _ _ _ _ _ Hinit) as (Hs & Ecs & Ebs).
  apply init_fields in Hinit.
  destruct Hinit as (_ & _ & _ & _ & _ & _ & _ & _ & Eibs & Eobs & Eib & Eob).
  unfold configured. rewrite Eibs, Eobs, Ebs, Eib, Eob.
  rewrite !zlen_ztab by nia. auto.
Qed.

(** The window of a tile of a padded canvas. *)
Lemma tile_window_facts (W : Waifu2x) (im : Mat) (k : Z) :
  sized W -> 0 < crop_size W -> Mat_wf im ->
  Z.rem (cols im) (output_size W) = 0 ->
  Z.rem (rows im) (output_size W) = 0 ->
  0 <= k < block_count W (rows im) (cols im) ->
  exists cw,
    tile_window W (cols im) (rows im) k = Some cw /\
    (0 <= cw_x cw /\ 0 < cw_width cw /\ cw_x cw + cw_width cw <= cols im) /\
    (0 <= cw_y cw /\ 0 < cw_height cw /\ cw_y cw + cw_height cw <= rows im) /\
    (0 < cw_left cw /\ 0 < cw_right cw /\ 0 < cw_top cw /\ 0 < cw_bottom cw) /\
    cw_left cw + cw_width cw + cw_right cw = input_block_size W /\
    cw_top cw + cw_height cw + cw_bottom cw = input_block_size W /\
    cols (extract_tile im cw) = input_block_size W /\
    rows (extract_tile im cw) = input_block_size W.
Proof.
  intros (Ein & Eout & Eos & Eibs & _) HCS (Hr & Hc & _) HW HH Hk.
  unfold block_count in Hk. rewrite Eos in *.
  set (CS := crop_size W) in *.
  destruct (rem_zero_multiple _ _ Hc HCS HW) as [EW HWN].
  destruct (rem_zero_multiple _ _ Hr HCS HH) as [EH HHN].
  destruct (tile_index_bounds _ _ _ Hk HWN HHN) as [Hwn Hhn].
  unfold tile_window, tile_w, tile_h, tile_wn, tile_hn.
  rewrite Eos. fold CS.
  set (wn := Z.rem k (Z.quot (cols im) CS)) in *.
  set (hn := Z.quot k (Z.quot (cols im) CS)) in *.
  assert (Gw : wn * CS + CS <= cols im) by nia.
  assert (Gh : hn * CS + CS <= rows im) by nia.
  assert (0 <= wn * CS) by nia.
  assert (0 <= hn * CS) by nia.
  destruct (Z.leb_spec (wn * CS + CS) (cols im)); [|lia].
  destruct (Z.leb_spec (hn * CS + CS) (rows im)); [|lia].
  cbn [andb]. eexists. split; [reflexivity|].
  unfold extract_tile, copyMakeBorder, Mat_roi, Mat_tab, context_window.
  rewrite Ein, Eout, Eibs. fold CS. unfold layer_num.
  repeat match goal with
  | |- context [ ?a <? ?b ] => destruct (Z.ltb_spec a b)
  | |- context [ ?a >? ?b ] => rewrite (Z.gtb_ltb a b); destruct (Z.ltb_spec b a)
  end; cbn [cw_x cw_y cw_width cw_height cw_top cw_bottom cw_left cw_right rows cols];
  lia.
Qed.

(** C1. Every tile of a padded canvas passes the guard of the extraction
    loop; its context window, after clamping, is a non-empty rectangle
    inside the canvas, and on each axis the clamped extent plus the two
    replicate-padding amounts is [input_block_size], so that the bordered
    tile is [input_block_size] by [input_block_size]. *)
Theorem context_window_clamped
    Mode NL SR CS BS junk W (im : Mat) (k : Z) :
  init Waifu2x_new Mode NL SR CS BS eWaifu2xError_OK junk = (eWaifu2xError_OK, W) ->
  0 < CS -> Mat_wf im ->
  Z.rem (cols im) (output_size W) = 0 ->
  Z.rem (rows im) (output_size W) = 0 ->
  0 <= k < Z.quot (cols im) (output_size W) * Z.quot (rows im) (output_size W) ->
  exists cw,
    tile_window W (cols im) (rows im) k = Some cw /\
    (0 <= cw_x cw /\ 0 < cw_width cw /\ cw_x cw + cw_width cw <= cols im) /\
    (0 <= cw_y cw /\ 0 < cw_height cw /\ cw_y cw + cw_height cw <= rows im) /\
    (0 < cw_left cw /\ 0 < cw_right cw /\ 0 < cw_top cw /\ 0 < cw_bottom cw) /\
    cw_left cw + cw_width cw + cw_right cw = input_block_size W /\
    cw_top cw + cw_height cw + cw_bottom cw = input_block_size W /\
    cols (extract_tile im cw) = input_block_size W /\
    rows (extract_tile im cw) = input_block_size W.
Proof.
  intros Hinit HCS Hwf HW HH Hk.
  destruct (init_sized _ _ _ _ _ _ _ Hinit) as (Hcfg & Ecs & _).
  apply tile_window_facts; try assumption; lia.
Qed.

(** ** The partition of the canvas into tile cores *)

Lemma tile_of_pixel (CS WN HN y x : Z) :
  0 < CS -> 0 <= y < CS * HN -> 0 <= x < CS * WN ->
  let k := (y / CS) * WN + x / CS in
  0 <= k < WN * HN /\ Z.rem k WN = x / CS /\ Z.quot k WN = y / CS.
Proof.
  intros HCS Hy Hx k.
  assert (0 < WN) by nia. assert (0 < HN) by nia.
  assert (0 <= y / CS < HN).
  { split; [apply Z.div_pos; lia | apply Z.div_lt_upper_bound; lia]. }
  assert (0 <= x / CS < WN).
  { split; [apply Z.div_pos; lia | apply Z.div_lt_upper_bound; lia]. }
  assert (Hk : 0 <= k) by (unfold k; nia).
  rewrite Z.rem_mod_nonneg, Z.quot_div_nonneg by lia.
  unfold k. split; [nia|]. split.
  - rewrite Z.add_comm, Z.mod_add by lia. apply Z.mod_small; lia.
  - rewrite Z.div_add_l by lia. rewrite (Z.div_small (x / CS) WN) by lia. lia.
Qed.

Lemma in_band_div (CS q y : Z) :
  0 < CS -> q * CS <= y < q * CS + CS -> q = y / CS.
Proof.
  intros HCS H. apply Z.div_unique with (r := y - q * CS); lia.
Qed.

(** ** Padding and its removal *)

Lemma round_up_blocks (a t : Z) :
  0 < a -> 0 < t ->
  let blocks := Z.quot a t + (if Z.rem a t =? 0 then 0 else 1) in
  a <= blocks * t < a + t /\ Z.rem (blocks * t) t = 0.
Proof.
  intros Ha Ht blocks. unfold blocks.
  rewrite Z.rem_mod_nonneg, Z.quot_div_nonneg by lia.
  pose proof (Z.div_mod a t ltac:(lia)).
  pose proof (Z.mod_pos_bound a t Ht).
  split.
  - destruct (Z.eqb_spec (a mod t) 0); nia.
  - rewrite Z.rem_mul; lia.
Qed.

(** The sizes [PaddingImage] computes stay within [int] when the side plus
    the tile size does. *)
Lemma padding_sizes_in_int (a t : Z) :
  0 < a -> 0 < t -> a + t <= INT_MAX ->
  let blocks := Z.quot a t + (if Z.rem a t =? 0 then 0 else 1) in
  0 <= Z.quot a t <= INT_MAX /\ 0 <= blocks <= INT_MAX /\
  0 <= offset + blocks * t + offset <= INT_MAX /\
  0 <= (offset + blocks * t + offset - offset) - a <= INT_MAX.
Proof.
  intros Ha Ht Hm blocks.
  destruct (round_up_blocks a t Ha Ht) as [Hb _]. fold blocks in Hb.
  assert (0 <= Z.quot a t) by (apply Z.quot_pos; lia).
  assert (Z.quot a t <= blocks) by (unfold blocks; destruct (Z.rem a t =? 0); lia).
  unfold offset. nia.
Qed.

(** C8. Padding rounds both sides of a non-empty plane up to the next
    multiple of the tile size, keeps the image at the top left with every
    added cell a copy of the nearest cell of the last row or column, and
    removing the padding gives the plane back. *)
Theorem padding_round_trip (W : Waifu2x) (im : Mat) :
  0 < output_size W -> Mat_wf im -> 0 < rows im -> 0 < cols im ->
  let t := output_size W in
  let p := PaddingImage W im in
  Mat_wf p /\
  (cols im <= cols p < cols im + t /\ Z.rem (cols p) t = 0) /\
  (rows im <= rows p < rows im + t /\ Z.rem (rows p) t = 0) /\
  (forall y x, 0 <= y < rows p -> 0 <= x < cols p ->
     Mat_at p y x = Mat_at im (Z.min y (rows im - 1)) (Z.min x (cols im - 1))) /\
  crop_padding p (Mat_size im) = im.
Proof.
  intros Ht Hwf Hr Hc t p.
  destruct (round_up_blocks (cols im) t Hc Ht) as [Bc Mc].
  destruct (round_up_blocks (rows im) t Hr Ht) as [Br Mr].
  assert (Ec : cols p = (Z.quot (cols im) t + (if Z.rem (cols im) t =? 0 then 0 else 1)) * t).
  { unfold p, PaddingImage, copyMakeBorder, Mat_tab, offset. cbn [cols]. fold t. lia. }
  assert (Er : rows p = (Z.quot (rows im) t + (if Z.rem (rows im) t =? 0 then 0 else 1)) * t).
  { unfold p, PaddingImage, copyMakeBorder, Mat_tab, offset. cbn [rows]. fold t. lia. }
  assert (Hat : forall y x, 0 <= y < rows p -> 0 <= x < cols p ->
     Mat_at p y x = Mat_at im (Z.min y (rows im - 1)) (Z.min x (cols im - 1))).
  { intros y x Hy Hx. unfold p, PaddingImage, copyMakeBorder in *.
    rewrite Mat_at_tab by (cbn [rows cols Mat_tab] in Hy, Hx; lia).
    unfold borderInterpolate, offset. rewrite !Z.sub_0_r.
    destruct (Z.ltb_spec y 0); [lia|]. destruct (Z.ltb_spec x 0); [lia|].
    rewrite !Z.geb_leb.
    destruct (Z.leb_spec (rows im) y), (Z.leb_spec (cols im) x);
      f_equal; lia. }
  split; [|split; [|split; [|split]]].
  - unfold p, PaddingImage, copyMakeBorder. apply Mat_tab_wf.
    + cbn [rows cols Mat_tab] in Er. unfold offset in *. fold t in Er |- *. lia.
    + cbn [rows cols Mat_tab] in Ec. unfold offset in *. fold t in Ec |- *. lia.
  - rewrite Ec. auto.
  - rewrite Er. auto.
  - exact Hat.
  - unfold crop_padding, Mat_size, Mat_roi. cbn [width height].
    apply Mat_ext; cbn [rows cols Mat_tab]; auto.
    + apply Mat_tab_wf; lia.
    + intros y x Hy Hx. rewrite Mat_at_tab by lia. unfold offset. cbn [Z.add].
      rewrite Hat by lia. f_equal; lia.
Qed.

(** ** The arithmetic of [double] *)

Lemma Qpow2_nonneg (z : Z) : 0 <= z -> (Qpower 2 z == inject_Z (2 ^ z))%Q.
Proof. intros. symmetry. apply (Zpower_Qpower 2 z). assumption. Qed.

Lemma Qpow2_pos (z : Z) : (0 < Qpower 2 z)%Q.
Proof. apply Qpower_0_lt. reflexivity. Qed.

Lemma Qpow2_succ (z : Z) : (Qpower 2 (z + 1) == Qpower 2 z * 2)%Q.
Proof. rewrite Qpower_plus by discriminate. reflexivity. Qed.

Ltac qz :=
  unfold Qlt, Qle, Qmult, inject_Z; cbn [Qnum Qden];
  rewrite ?Pos.mul_1_r, ?Z.mul_1_r, ?Z.mul_1_l.

Lemma Qtrunc_comp (a b : Q) : (a == b)%Q -> Qtrunc a = Qtrunc b.
Proof.
  intros E. unfold Qtrunc.
  assert (Qle_bool 0 a = Qle_bool 0 b) as ->.
  { apply eq_true_iff_eq. rewrite !Qle_bool_iff. now rewrite E. }
  unfold Qceiling.
  rewrite (Qfloor_comp a b E), (Qfloor_comp (- a) (- b)) by (now rewrite E).
  reflexivity.
Qed.

Lemma Qtrunc_Z (z : Z) : Qtrunc (inject_Z z) = z.
Proof. unfold Qtrunc. rewrite Qfloor_Z, Qceiling_Z. now destruct (Qle_bool 0 (inject_Z z)). Qed.


Lemma Qpow2_le (a b : Z) : a <= b -> (Qpower 2 a <= Qpower 2 b)%Q.
Proof. intros H. apply Qpower_le_compat_l; [exact H | discriminate]. Qed.

Lemma Qpow2_opp (s : Z) : 0 <= s -> (Qpower 2 (- s) == / inject_Z (2 ^ s))%Q.
Proof. intros H. now rewrite Qpower_opp, Qpow2_nonneg. Qed.

Lemma Qpow2_minus (a b : Z) : (Qpower 2 (a - b) == Qpower 2 a / Qpower 2 b)%Q.
Proof. apply Qpower_minus. discriminate. Qed.

Lemma Zpow2_pos (s : Z) : 0 <= s -> 0 < 2 ^ s.
Proof. intros. apply Z.pow_pos_nonneg; lia. Qed.

Lemma Qlog2_spec (q : Q) :
  (0 < q)%Q -> (Qpower 2 (Qlog2 q) <= q /\ q < Qpower 2 (Qlog2 q + 1))%Q.
Proof.
  intros Hq. unfold Qlog2.
  destruct q as [n d]. cbn [Qnum Qden].
  assert (Hn : 0 < n) by (revert Hq; unfold Qlt; cbn; lia).
  set (a := Z.log2 n). set (b := Z.log2 (Z.pos d)).
  destruct (Z.log2_spec n Hn) as [Ha1 Ha2]. fold a in Ha1, Ha2.
  destruct (Z.log2_spec (Z.pos d) ltac:(lia)) as [Hb1 Hb2]. fold b in Hb1, Hb2.
  assert (Ha : 0 <= a) by apply Z.log2_nonneg.
  assert (Hb : 0 <= b) by apply Z.log2_nonneg.
  rewrite Z.pow_succ_r in Ha2, Hb2 by assumption.
  pose proof (Zpow2_pos a Ha) as Pa. pose proof (Zpow2_pos b Hb) as Pb.
  assert (PbQ : (0 < inject_Z (2 ^ b))%Q) by (qz; lia).
  assert (Pb2Q : (0 < inject_Z (2 * 2 ^ b))%Q) by (qz; lia).
  destruct (Qle_bool (Qpower 2 (a - b)) (n # d)) eqn:E.
  - apply Qle_bool_iff in E. split; [exact E|].
    replace (a - b + 1) with ((a + 1) - b) by lia.
    rewrite Qpow2_minus, !Qpow2_nonneg by lia.
    apply Qlt_shift_div_l; [exact PbQ|].
    replace (a + 1) with (Z.succ a) by lia. rewrite Z.pow_succ_r by assumption.
    qz. nia.
  - assert (Hlt : (n # d < Qpower 2 (a - b))%Q).
    { apply Qnot_le_lt. intros H. apply Qle_bool_iff in H. congruence. }
    replace (a - b - 1 + 1) with (a - b) by lia. split; [|exact Hlt].
    replace (a - b - 1) with (a - (b + 1)) by lia.
    rewrite Qpow2_minus, !Qpow2_nonneg by lia.
    replace (b + 1) with (Z.succ b) by lia. rewrite Z.pow_succ_r by assumption.
    apply Qle_shift_div_r; [exact Pb2Q|].
    qz. nia.
Qed.

Lemma nearest_even_bounds (q : Q) : Qfloor q <= nearest_even q <= Qfloor q + 1.
Proof.
  unfold nearest_even.
  destruct (q - inject_Z (Qfloor q) ?= 1 # 2)%Q; [destruct (Z.even (Qfloor q))| |]; lia.
Qed.

Lemma nearest_even_Z (q : Q) (z : Z) : (q == inject_Z z)%Q -> nearest_even q = z.
Proof.
  intros E. unfold nearest_even.
  rewrite (Qfloor_comp _ _ E), Qfloor_Z.
  assert (H : (q - inject_Z z ?= 1 # 2)%Q = Lt).
  { rewrite <- Qlt_alt. lra. }
  now rewrite H.
Qed.

Lemma nearest_even_ge (q : Q) (z : Z) : (inject_Z z <= q)%Q -> z <= nearest_even q.
Proof.
  intros H. apply Qfloor_resp_le in H. rewrite Qfloor_Z in H.
  pose proof (nearest_even_bounds q). lia.
Qed.

Lemma nearest_even_le (q : Q) (z : Z) : (q <= inject_Z z)%Q -> nearest_even q <= z.
Proof.
  intros H. pose proof (nearest_even_bounds q) as B.
  destruct (Z_lt_le_dec (Qfloor q) z) as [Hlt | Hge]; [lia|].
  assert (E : (q == inject_Z z)%Q).
  { apply Qle_antisym; [exact H|].
    eapply Qle_trans; [|apply Qfloor_le]. rewrite <- Zle_Qle. exact Hge. }
  rewrite (nearest_even_Z q z E). lia.
Qed.

Lemma nearest_even_below (q : Q) (z : Z) :
  (q + (1 # 2) < inject_Z z)%Q -> nearest_even q <= z - 1.
Proof.
  intros H. unfold nearest_even.
  pose proof (Qfloor_le q) as Hf.
  assert (Hfz : Qfloor q <= z - 1).
  { assert (Qfloor q < z); [|lia]. rewrite Zlt_Qlt. lra. }
  destruct (Z.eq_dec (Qfloor q) (z - 1)) as [E | NE].
  - assert (Hc : (q - inject_Z (Qfloor q) ?= 1 # 2)%Q = Lt).
    { rewrite <- Qlt_alt. rewrite E. unfold Z.sub. rewrite inject_Z_plus.
      change (inject_Z (- (1))) with (- (1))%Q. lra. }
    rewrite Hc. lia.
  - destruct (q - inject_Z (Qfloor q) ?= 1 # 2)%Q; [destruct (Z.even (Qfloor q))| |]; lia.
Qed.

Lemma Qabs_pos_eq (q : Q) : (0 < q)%Q -> Qabs q = q.
Proof.
  destruct q as [n d]. unfold Qlt. cbn. intros H. unfold Qabs. f_equal. lia.
Qed.

Lemma Qle_bool_false (a b : Q) : (b < a)%Q -> Qle_bool a b = false.
Proof.
  intros H. destruct (Qle_bool a b) eqn:E; [|reflexivity].
  apply Qle_bool_iff in E. lra.
Qed.

Lemma Qeq_bool_false (a b : Q) : ~ (a == b)%Q -> Qeq_bool a b = false.
Proof.
  intros H. destruct (Qeq_bool a b) eqn:E; [|reflexivity].
  apply Qeq_bool_iff in E. contradiction.
Qed.

(** What [round_double] does to a positive rational. *)
Lemma round_double_pos (q : Q) :
  (0 < q)%Q ->
  let p := Z.max (Qlog2 q - 52) (-1074) in
  let v := (inject_Z (nearest_even (q / Qpower 2 p)) * Qpower 2 p)%Q in
  (v < Qpower 2 1024)%Q -> round_double q = Fin (Qred v).
Proof.
  intros Hq p v Hv. unfold round_double.
  rewrite Qeq_bool_false by lra.
  rewrite (Qabs_pos_eq q Hq). fold p. fold v.
  assert (H0 : (0 <= v)%Q).
  { unfold v. apply Qmult_le_0_compat; [|apply Qlt_le_weak, Qpow2_pos].
    change 0%Q with (inject_Z 0). rewrite <- Zle_Qle.
    apply nearest_even_ge. change (inject_Z 0) with 0%Q.
    apply Qle_shift_div_l; [apply Qpow2_pos | lra]. }
  assert (Ea : (Qabs v == v)%Q) by (apply Qabs_pos; exact H0).
  rewrite Qle_bool_false; [reflexivity|]. rewrite Ea. exact Hv.
Qed.

Lemma Qlog2_le_52 (q : Q) (w : Z) :
  (0 < q)%Q -> (q <= inject_Z w)%Q -> w < 2 ^ 53 -> Qlog2 q <= 52.
Proof.
  intros Hq Hle Hw. destruct (Qlog2_spec q Hq) as [Hlo _].
  destruct (Z_le_gt_dec (Qlog2 q) 52) as [H | H]; [exact H | exfalso].
  pose proof (Qpow2_le 53 (Qlog2 q) ltac:(lia)) as Hm.
  rewrite (Qpow2_nonneg 53) in Hm by lia.
  assert (Hc : (inject_Z (2 ^ 53) <= inject_Z w)%Q) by lra.
  rewrite <- Zle_Qle in Hc. lia.
Qed.

Lemma Qlog2_nonneg (q : Q) : (1 <= q)%Q -> 0 <= Qlog2 q.
Proof.
  intros Hq. destruct (Qlog2_spec q ltac:(lra)) as [_ Hhi].
  destruct (Z_le_gt_dec 0 (Qlog2 q)) as [H | H]; [exact H | exfalso].
  pose proof (Qpow2_le (Qlog2 q + 1) 0 ltac:(lia)) as Hm.
  change (Qpower 2 0) with 1%Q in Hm. lra.
Qed.

(** An integer below [2 ^ 53] is a [double]. *)
Lemma round_double_Z (q : Q) (w : Z) :
  0 <= w < 2 ^ 53 -> (q == inject_Z w)%Q ->
  exists v, round_double q = Fin v /\ (v == inject_Z w)%Q.
Proof.
  intros Hw E.
  destruct (Z.eq_dec w 0) as [-> | Hne].
  - exists 0%Q. split; [|reflexivity]. unfold round_double.
    assert (Qeq_bool q 0 = true) as -> by (apply Qeq_bool_iff; exact E). reflexivity.
  - assert (Hwq : (0 < inject_Z w)%Q) by (qz; lia).
    assert (Hq : (0 < q)%Q) by lra.
    pose proof (Qlog2_le_52 q w Hq ltac:(lra) ltac:(lia)) as He.
    set (p := Z.max (Qlog2 q - 52) (-1074)).
    assert (Hp : p <= 0) by lia.
    assert (Ep : (Qpower 2 p == / inject_Z (2 ^ (- p)))%Q).
    { rewrite <- Qpow2_opp by lia. now rewrite Z.opp_involutive. }
    pose proof (Zpow2_pos (- p) ltac:(lia)) as PS.
    assert (PSq : (0 < inject_Z (2 ^ (- p)))%Q) by (qz; lia).
    assert (EX : (q / Qpower 2 p == inject_Z (w * 2 ^ (- p)))%Q).
    { rewrite Ep, E, inject_Z_mult. field. lra. }
    assert (Ev : (inject_Z (nearest_even (q / Qpower 2 p)) * Qpower 2 p == inject_Z w)%Q).
    { rewrite (nearest_even_Z _ _ EX), Ep, inject_Z_mult. field. lra. }
    exists (Qred (inject_Z (nearest_even (q / Qpower 2 p)) * Qpower 2 p)). split.
    + apply round_double_pos; [exact Hq|]. fold p. rewrite Ev.
      pose proof (Qpow2_le 53 1024 ltac:(lia)) as Hm.
      rewrite (Qpow2_nonneg 53) in Hm by lia.
      assert (Hc : (inject_Z w < inject_Z (2 ^ 53))%Q) by (rewrite <- Zlt_Qlt; lia).
      lra.
    + rewrite Qred_correct. exact Ev.
Qed.

(** Rounding a product that lies below an integer by a [double] below 1. *)
Lemma round_double_below (x : Q) (w : Z) :
  (1 <= x)%Q -> (x <= inject_Z w * (1 - half_ulp))%Q -> w < 2 ^ 53 ->
  exists v, round_double x = Fin v /\ (1 <= v)%Q /\ (v < inject_Z w)%Q.
Proof.
  intros Hx Hxw Hw.
  assert (Hu : (0 < half_ulp)%Q) by reflexivity.
  assert (Hu1 : (half_ulp < 1)%Q) by reflexivity.
  assert (Hw0 : 0 < w).
  { destruct (Z_lt_le_dec 0 w) as [H | H]; [exact H | exfalso].
    assert (Hq : (inject_Z w <= 0)%Q) by (qz; lia).
    assert (Hm : (inject_Z w * (1 - half_ulp) <= 0 * (1 - half_ulp))%Q).
    { apply Qmult_le_compat_r; lra. }
    lra. }
  assert (Hwq : (0 < inject_Z w)%Q) by (qz; lia).
  assert (Hlt : (x < inject_Z w)%Q).
  { assert (Hm : (0 < inject_Z w * half_ulp)%Q) by (apply Qmult_lt_0_compat; assumption).
    lra. }
  assert (Hq : (0 < x)%Q) by lra.
  destruct (Qlog2_spec x Hq) as [Hlo Hhi].
  pose proof (Qlog2_le_52 x w Hq ltac:(lra) Hw) as He.
  pose proof (Qlog2_nonneg x Hx) as He0.
  set (e := Qlog2 x) in *.
  assert (Hwe : 2 ^ e < w).
  { rewrite Zlt_Qlt. rewrite <- Qpow2_nonneg by exact He0. lra. }
  set (s := 52 - e).
  assert (Hp : Z.max (e - 52) (-1074) = - s) by lia.
  pose proof (Zpow2_pos s ltac:(lia)) as PS.
  assert (Ees : 2 ^ e * 2 ^ s = 2 ^ 52).
  { rewrite <- Z.pow_add_r by lia. f_equal. lia. }
  assert (Ep : (Qpower 2 (- s) == / inject_Z (2 ^ s))%Q) by (apply Qpow2_opp; lia).
  set (Sq := inject_Z (2 ^ s)) in *.
  assert (PSq : (0 < Sq)%Q) by (unfold Sq; qz; lia).
  assert (EX : (x / Qpower 2 (- s) == x * Sq)%Q).
  { rewrite Ep. field. lra. }
  assert (HP : (inject_Z (2 ^ 52 + 1) <= inject_Z w * Sq)%Q).
  { unfold Sq. rewrite <- inject_Z_mult, <- Zle_Qle. nia. }
  change (inject_Z (2 ^ 52 + 1)) with (4503599627370497 # 1)%Q in HP.
  assert (Hm1 : nearest_even (x / Qpower 2 (- s)) <= w * 2 ^ s - 1).
  { apply nearest_even_below. rewrite EX, inject_Z_mult. fold Sq.
    assert (Hm : (x * Sq <= inject_Z w * (1 - half_ulp) * Sq)%Q).
    { apply Qmult_le_compat_r; lra. }
    unfold half_ulp in *. lra. }
  assert (Hm2 : 2 ^ s <= nearest_even (x / Qpower 2 (- s))).
  { apply nearest_even_ge. rewrite EX. fold Sq.
    assert (Hm : (1 * Sq <= x * Sq)%Q) by (apply Qmult_le_compat_r; lra).
    lra. }
  set (m := nearest_even (x / Qpower 2 (- s))) in *.
  assert (Hmq1 : (inject_Z m <= inject_Z w * Sq - 1)%Q).
  { assert (Ez : (inject_Z (w * 2 ^ s - 1) == inject_Z w * Sq - 1)%Q).
    { unfold Z.sub, Sq. rewrite inject_Z_plus, inject_Z_mult. reflexivity. }
    rewrite <- Ez, <- Zle_Qle. exact Hm1. }
  assert (Hmq2 : (Sq <= inject_Z m)%Q) by (unfold Sq; rewrite <- Zle_Qle; exact Hm2).
  assert (Ev : (inject_Z m * Qpower 2 (- s) == inject_Z m / Sq)%Q).
  { rewrite Ep. reflexivity. }
  assert (Hv1 : (1 <= inject_Z m / Sq)%Q).
  { apply Qle_shift_div_l; lra. }
  assert (Hv2 : (inject_Z m / Sq < inject_Z w)%Q).
  { apply Qlt_shift_div_r; lra. }
  exists (Qred (inject_Z m * Qpower 2 (- s))). split; [|rewrite Qred_correct, Ev; split; assumption].
  pose proof (round_double_pos x Hq) as R. cbv zeta in R. fold e in R.
  rewrite Hp in R. fold m in R. apply R. rewrite Ev.
  pose proof (Qpow2_le 53 1024 ltac:(lia)) as Hb.
  rewrite (Qpow2_nonneg 53) in Hb by lia.
  assert (Hc : (inject_Z w < inject_Z (2 ^ 53))%Q) by (rewrite <- Zlt_Qlt; lia).
  lra.
Qed.

(** A [double] below 1 is below 1 by [half_ulp] at least. *)
Lemma round_double_lt_1 (q f : Q) :
  round_double q = Fin f -> (0 < f)%Q -> (f < 1)%Q -> (f <= 1 - half_ulp)%Q.
Proof.
  unfold round_double. intros R Hf0 Hf1.
  destruct (Qeq_bool q 0) eqn:E0.
  { injection R as <-. exfalso. revert Hf0. apply Qlt_irrefl. }
  set (p := Z.max (Qlog2 (Qabs q) - 52) (-1074)) in R.
  set (m := nearest_even (q / Qpower 2 p)) in R.
  destruct (Qle_bool (Qpower 2 1024) (Qabs (inject_Z m * Qpower 2 p))); [discriminate|].
  apply (f_equal (fun d => match d with Fin v => v | _ => 0%Q end)) in R.
  cbv beta iota in R. subst f. rewrite Qred_correct in Hf0, Hf1 |- *.
  pose proof (Qpow2_pos p) as Pp.
  assert (Hm0 : 0 < m).
  { destruct (Z_lt_le_dec 0 m) as [H | H]; [exact H | exfalso].
    assert (Hq : (inject_Z m <= 0)%Q) by (qz; lia).
    assert (Hc : (inject_Z m * Qpower 2 p <= 0 * Qpower 2 p)%Q).
    { apply Qmult_le_compat_r; lra. }
    lra. }
  assert (Hq : (0 < q)%Q).
  { apply Qnot_le_lt. intros Hle.
    assert (Hd : (q / Qpower 2 p <= inject_Z 0)%Q).
    { apply Qle_shift_div_r; [exact Pp|]. change (inject_Z 0) with 0%Q. lra. }
    apply nearest_even_le in Hd. fold m in Hd. lia. }
  subst m p. rewrite (Qabs_pos_eq q Hq) in *.
  destruct (Qlog2_spec q Hq) as [_ Hhi].
  set (e := Qlog2 q) in *.
  set (p := Z.max (e - 52) (-1074)) in *.
  set (m := nearest_even (q / Qpower 2 p)) in *.
  assert (Hm53 : m <= 2 ^ 53).
  { apply nearest_even_le. rewrite <- Qpow2_nonneg by lia.
    apply Qle_shift_div_r; [exact Pp|].
    rewrite <- Qpower_plus by discriminate.
    pose proof (Qpow2_le (e + 1) (53 + p) ltac:(lia)). lra. }
  destruct (Z_le_gt_dec 0 p) as [Hp | Hp].
  { exfalso. pose proof (Qpow2_le 0 p Hp) as H1. change (Qpower 2 0) with 1%Q in H1.
    assert (Hmq : (1 <= inject_Z m)%Q) by (qz; lia).
    assert (Hc : (1 * Qpower 2 p <= inject_Z m * Qpower 2 p)%Q).
    { apply Qmult_le_compat_r; lra. }
    lra. }
  set (s := - p).
  assert (Ep : (Qpower 2 p == / inject_Z (2 ^ s))%Q).
  { rewrite <- Qpow2_opp by lia. unfold s. now rewrite Z.opp_involutive. }
  pose proof (Zpow2_pos s ltac:(lia)) as PS.
  set (Sq := inject_Z (2 ^ s)) in *.
  assert (PSq : (0 < Sq)%Q) by (unfold Sq; qz; lia).
  rewrite Ep in Hf0, Hf1 |- *.
  assert (HmS : (inject_Z m <= Sq - 1)%Q).
  { assert (Hlt : (inject_Z m < Sq)%Q).
    { apply Qnot_le_lt. intros Hge.
      assert (Hc : (1 <= inject_Z m / Sq)%Q) by (apply Qle_shift_div_l; lra).
      unfold Qdiv in Hc. lra. }
    unfold Sq in Hlt. rewrite <- Zlt_Qlt in Hlt.
    assert (Ez : (inject_Z (2 ^ s - 1) == Sq - 1)%Q).
    { unfold Z.sub, Sq. rewrite inject_Z_plus. reflexivity. }
    rewrite <- Ez, <- Zle_Qle. lia. }
  apply Qle_shift_div_r; [exact PSq|].
  destruct (Z_le_gt_dec s 53) as [Hs | Hs].
  - assert (HS : (Sq <= inject_Z (2 ^ 53))%Q).
    { unfold Sq. rewrite <- Zle_Qle. apply Z.pow_le_mono_r; lia. }
    change (inject_Z (2 ^ 53)) with (9007199254740992 # 1)%Q in HS.
    unfold half_ulp. lra.
  - assert (HS : (inject_Z (2 ^ 54) <= Sq)%Q).
    { unfold Sq. rewrite <- Zle_Qle. apply Z.pow_le_mono_r; lia. }
    assert (HM : (inject_Z m <= inject_Z (2 ^ 53))%Q) by (rewrite <- Zle_Qle; exact Hm53).
    change (inject_Z (2 ^ 54)) with (18014398509481984 # 1)%Q in HS.
    change (inject_Z (2 ^ 53)) with (9007199254740992 # 1)%Q in HM.
    unfold half_ulp. lra.
Qed.

Lemma Qtrunc_nonneg (q : Q) : (0 <= q)%Q -> Qtrunc q = Qfloor q.
Proof. intros H. unfold Qtrunc. apply Qle_bool_iff in H. now rewrite H. Qed.

(** Line 877 with a factor of 1: the side is kept. *)
Lemma dmul_one (w : Z) (f : Q) :
  0 <= w < 2 ^ 53 -> (f == 1)%Q -> to_int (dmul (of_int w) (Fin f)) = w.
Proof.
  intros Hw Ef. unfold dmul, of_int.
  destruct (round_double_Z (inject_Z w * f) w Hw) as (v & -> & Ev).
  - rewrite Ef. ring.
  - unfold to_int. rewrite (Qtrunc_comp _ _ Ev). apply Qtrunc_Z.
Qed.

(** A factor that [ddiv] returned is a [double]. *)
Lemma ddiv_lt_1 (x y : double) (f : Q) :
  ddiv x y = Fin f -> (0 < f)%Q -> (f < 1)%Q -> (f <= 1 - half_ulp)%Q.
Proof.
  intros D Hf0 Hf1.
  destruct x as [a | s |], y as [b | s' |]; cbn in D; try discriminate.
  - destruct (Qeq_bool b 0).
    + destruct (Qeq_bool a 0); discriminate.
    + exact (round_double_lt_1 _ _ D Hf0 Hf1).
  - injection D as <-. exfalso. revert Hf0. apply Qlt_irrefl.
Qed.

(** Line 877 with a factor from 1/2 to below 1: the side gets smaller and
    stays positive. *)
Lemma dmul_shrinks (w : Z) (x y : double) (f : Q) :
  ddiv x y = Fin f -> (1 # 2 <= f)%Q -> (f < 1)%Q -> 2 <= w < 2 ^ 53 ->
  1 <= to_int (dmul (of_int w) (Fin f)) < w.
Proof.
  intros D Hlo Hhi Hw.
  pose proof (ddiv_lt_1 x y f D ltac:(lra) Hhi) as Hf.
  assert (Hwq : (2 <= inject_Z w)%Q).
  { change 2%Q with (inject_Z 2). rewrite <- Zle_Qle. lia. }
  destruct (round_double_below (inject_Z w * f) w) as (v & R & Hv1 & Hv2).
  - assert (H : (inject_Z w * (1 # 2) <= inject_Z w * f)%Q).
    { rewrite !(Qmult_comm (inject_Z w)). apply Qmult_le_compat_r; lra. }
    lra.
  - rewrite !(Qmult_comm (inject_Z w)). apply Qmult_le_compat_r; lra.
  - lia.
  - unfold dmul, of_int. rewrite R. unfold to_int.
    rewrite Qtrunc_nonneg by lra. split.
    + apply Qfloor_resp_le in Hv1. rewrite <- (Qfloor_Z 1). exact Hv1.
    + rewrite Zlt_Qlt. eapply Qle_lt_trans; [apply Qfloor_le | exact Hv2].
Qed.

Lemma nearest_even_comp (a b : Q) : (a == b)%Q -> nearest_even a = nearest_even b.
Proof.
  intros E. unfold nearest_even. rewrite (Qfloor_comp a b E).
  assert (C : (a - inject_Z (Qfloor b) ?= 1 # 2)%Q = (b - inject_Z (Qfloor b) ?= 1 # 2)%Q).
  { now rewrite E. }
  now rewrite C.
Qed.

Lemma Qlog2_unique (q : Q) (z : Z) :
  (Qpower 2 z <= q)%Q -> (q < Qpower 2 (z + 1))%Q -> Qlog2 q = z.
Proof.
  intros Hlo Hhi. pose proof (Qpow2_pos z) as Hp.
  destruct (Qlog2_spec q ltac:(lra)) as [Slo Shi].
  destruct (Z_lt_le_dec (Qlog2 q) z) as [H1 | H1].
  - exfalso. pose proof (Qpow2_le (Qlog2 q + 1) z ltac:(lia)). lra.
  - destruct (Z_lt_le_dec z (Qlog2 q)) as [H2 | H2]; [exfalso | lia].
    pose proof (Qpow2_le (z + 1) (Qlog2 q) ltac:(lia)). lra.
Qed.

Lemma Qlog2_comp (a b : Q) : (0 < a)%Q -> (a == b)%Q -> Qlog2 a = Qlog2 b.
Proof.
  intros Ha E. destruct (Qlog2_spec a Ha) as [Slo Shi].
  symmetry. apply Qlog2_unique; rewrite <- E; assumption.
Qed.

Lemma Qle_bool_comp (a b c d : Q) : (a == b)%Q -> (c == d)%Q -> Qle_bool a c = Qle_bool b d.
Proof.
  intros E1 E2. apply eq_true_iff_eq. rewrite !Qle_bool_iff. now rewrite E1, E2.
Qed.

Lemma Qeq_bool_comp (a b c : Q) : (a == b)%Q -> Qeq_bool a c = Qeq_bool b c.
Proof.
  intros E. apply eq_true_iff_eq. rewrite !Qeq_bool_iff. now rewrite E.
Qed.

(** [round_double] gives one [double] to equal rationals. *)
Lemma round_double_comp (a b : Q) : (a == b)%Q -> round_double a = round_double b.
Proof.
  intros E. unfold round_double.
  rewrite (Qeq_bool_comp a b 0 E).
  destruct (Qeq_bool b 0) eqn:E0; [reflexivity|].
  assert (Hb : ~ (b == 0)%Q) by (intros H; apply Qeq_bool_iff in H; congruence).
  assert (Ha : (0 < Qabs a)%Q).
  { destruct (Qlt_le_dec 0 (Qabs a)) as [H | H]; [exact H | exfalso].
    pose proof (Qle_Qabs a) as H1. pose proof (Qle_Qabs (- a)) as H2.
    rewrite Qabs_opp in H2. apply Hb. rewrite <- E. lra. }
  assert (Eabs : (Qabs a == Qabs b)%Q) by (now rewrite E).
  rewrite (Qlog2_comp _ _ Ha Eabs).
  set (p := Z.max (Qlog2 (Qabs b) - 52) (-1074)).
  assert (En : nearest_even (a / Qpower 2 p) = nearest_even (b / Qpower 2 p)).
  { apply nearest_even_comp. now rewrite E. }
  rewrite En. unfold is_negative. rewrite (Qle_bool_comp 0 0 a b (Qeq_refl 0) E).
  reflexivity.
Qed.

(** What [round_double] does to a positive rational, overflow included. *)
Lemma round_double_pos_cases (q : Q) :
  (0 < q)%Q ->
  let p := Z.max (Qlog2 q - 52) (-1074) in
  let v := (inject_Z (nearest_even (q / Qpower 2 p)) * Qpower 2 p)%Q in
  round_double q = if Qle_bool (Qpower 2 1024) v then Inf false else Fin (Qred v).
Proof.
  intros Hq p v. unfold round_double.
  rewrite Qeq_bool_false by lra.
  rewrite (Qabs_pos_eq q Hq). fold p. fold v.
  assert (H0 : (0 <= v)%Q).
  { unfold v. apply Qmult_le_0_compat; [|apply Qlt_le_weak, Qpow2_pos].
    change 0%Q with (inject_Z 0). rewrite <- Zle_Qle.
    apply nearest_even_ge. change (inject_Z 0) with 0%Q.
    apply Qle_shift_div_l; [apply Qpow2_pos | lra]. }
  assert (Ea : (Qabs v == v)%Q) by (apply Qabs_pos; exact H0).
  rewrite (Qle_bool_comp _ _ _ _ (Qeq_refl (Qpower 2 1024)) Ea).
  assert (En : is_negative q = false).
  { unfold is_negative. assert (Qle_bool 0 q = true) as ->; [|reflexivity].
    apply Qle_bool_iff. lra. }
  now rewrite En.
Qed.

(** The [double] of a positive [double], by its exponent and mantissa. *)
Lemma is_double_pos (r : Q) :
  is_double r = true -> (0 < r)%Q ->
  let p := Z.max (Qlog2 r - 52) (-1074) in
  (inject_Z (nearest_even (r / Qpower 2 p)) * Qpower 2 p == r)%Q.
Proof.
  intros D Hr p. unfold is_double in D.
  pose proof (round_double_pos_cases r Hr) as R. cbv zeta in R. fold p in R.
  rewrite R in D.
  destruct (Qle_bool (Qpower 2 1024) _); [discriminate|].
  apply Qeq_bool_iff in D. rewrite Qred_correct in D. exact D.
Qed.

(** [std::pow(2.0, k)] in the range of the exponents. *)
Lemma pow2_of_int (k : Z) : -1074 <= k <= 1023 -> pow2 (of_int k) = Fin (Qpower 2 k).
Proof.
  intros Hk. unfold pow2, of_int. rewrite Qfloor_Z.
  destruct (Z.leb_spec 1024 k); [lia|]. destruct (Z.ltb_spec k (-1074)); [lia|].
  reflexivity.
Qed.

(** The quotient of a [double] by a power of two is exact when neither is
    subnormal and the quotient is a [double]. *)
Lemma ddiv_pow2_exact (r : Q) (k : Z) :
  is_double r = true -> (0 < r)%Q -> -1074 <= k <= 1023 ->
  -1022 <= Qlog2 r -> -1022 <= Qlog2 r - k <= 1023 ->
  ddiv (Fin r) (pow2 (of_int k)) = Fin (Qred (r / Qpower 2 k)).
Proof.
  intros D Hr Hk He Hek.
  rewrite (pow2_of_int k Hk). cbn [ddiv].
  pose proof (Qpow2_pos k) as Pk.
  rewrite Qeq_bool_false by lra.
  pose proof (is_double_pos r D Hr) as M. cbv zeta in M.
  destruct (Qlog2_spec r Hr) as [Slo Shi].
  set (e := Qlog2 r) in *.
  replace (Z.max (e - 52) (-1074)) with (e - 52) in M by lia.
  set (m := nearest_even (r / Qpower 2 (e - 52))) in *.
  assert (Hq : (0 < r / Qpower 2 k)%Q) by (apply Qlt_shift_div_l; lra).
  assert (E1 : (Qpower 2 (e - k) == Qpower 2 e / Qpower 2 k)%Q) by apply Qpow2_minus.
  assert (E2 : (Qpower 2 (e - k + 1) == Qpower 2 (e + 1) / Qpower 2 k)%Q).
  { replace (e - k + 1) with (e + 1 - k) by lia. apply Qpow2_minus. }
  assert (El : Qlog2 (r / Qpower 2 k) = e - k).
  { apply Qlog2_unique.
    - rewrite E1. apply Qle_shift_div_l; [exact Pk|].
      setoid_replace (Qpower 2 e / Qpower 2 k * Qpower 2 k)%Q with (Qpower 2 e)
        by (field; lra). exact Slo.
    - rewrite E2. apply Qlt_shift_div_r; [exact Pk|].
      setoid_replace (Qpower 2 (e + 1) / Qpower 2 k * Qpower 2 k)%Q with (Qpower 2 (e + 1))
        by (field; lra). exact Shi. }
  pose proof (round_double_pos_cases (r / Qpower 2 k) Hq) as R. cbv zeta in R.
  rewrite El in R.
  replace (Z.max (e - k - 52) (-1074)) with (e - 52 - k) in R by lia.
  assert (E3 : (Qpower 2 (e - 52 - k) == Qpower 2 (e - 52) / Qpower 2 k)%Q)
    by apply Qpow2_minus.
  pose proof (Qpow2_pos (e - 52)) as Pe.
  assert (En : nearest_even (r / Qpower 2 k / Qpower 2 (e - 52 - k)) = m).
  { apply nearest_even_comp. rewrite E3. field. lra. }
  rewrite En in R.
  assert (Ev : (inject_Z m * Qpower 2 (e - 52 - k) == r / Qpower 2 k)%Q).
  { rewrite E3, <- M. field. lra. }
  rewrite R.
  rewrite Qle_bool_false.
  - f_equal. apply Qred_complete. exact Ev.
  - rewrite Ev. pose proof (Qpow2_le (e - k + 1) 1024 ltac:(lia)) as Hm.
    assert (Hlt : (r / Qpower 2 k < Qpower 2 (e - k + 1))%Q).
    { rewrite E2. apply Qlt_shift_div_r; [exact Pk|].
      setoid_replace (Qpower 2 (e + 1) / Qpower 2 k * Qpower 2 k)%Q with (Qpower 2 (e + 1))
        by (field; lra). exact Shi. }
    lra.
Qed.

(** ** The final size *)



(** With a factor of 1 the size is kept. *)
Lemma shrink_size_one (sz : Size) (f : Q) :
  0 <= width sz < 2 ^ 53 -> 0 <= height sz < 2 ^ 53 -> (f == 1)%Q ->
  shrink_size sz (Fin f) = sz.
Proof.
  intros Hw Hh E. destruct sz as [w h]. unfold shrink_size. cbn [width height] in *.
  now rewrite !dmul_one.
Qed.

(** With a factor from 1/2 to below 1 both sides get smaller and stay
    positive. *)
Lemma shrink_size_smaller (sz : Size) (x y : double) (f : Q) :
  ddiv x y = Fin f -> (1 # 2 <= f)%Q -> (f < 1)%Q ->
  2 <= width sz < 2 ^ 53 -> 2 <= height sz < 2 ^ 53 ->
  1 <= width (shrink_size sz (Fin f)) < width sz /\
  1 <= height (shrink_size sz (Fin f)) < height sz.
Proof.
  intros D Hlo Hhi Hw Hh. unfold shrink_size. cbn [width height].
  split; apply (dmul_shrinks _ x y); assumption.
Qed.

(** ** The batch loop ends *)

Lemma batch_loop_eq W net Height Width Line fuel num s :
  batch_loop W net Height Width Line fuel num s =
  if num <? block_count W Height Width then
    match fuel with
    | O => None
    | S fuel' =>
        let processNum := processNum_of W Height Width num in
        let s1 := for_loop processNum (fill_tile W Height Width num) s in
        match net processNum
                (ztake (input_block_size W * input_block_size W * processNum)
                   (load s1 Buf_input_block)) with
        | None => Some (eWaifu2xError_FailedProcessCaffe, s1)
        | Some b =>
            let s2 := memcpy s1 (mkptr Buf_output_block 0) b 0
                        (output_block_size W * output_block_size W * processNum) in
            let s3 := for_loop processNum (stitch_tile W Width Line num) s2 in
            batch_loop W net Height Width Line fuel' (num + batch_size W) s3
        end
    end
  else Some (eWaifu2xError_OK, s).
Proof. destruct fuel; reflexivity. Qed.

Lemma batch_loop_returns W net Height Width Line :
  0 < batch_size W ->
  forall fuel num s,
    block_count W Height Width - num <= Z.of_nat fuel ->
    exists e s', batch_loop W net Height Width Line fuel num s = Some (e, s') /\
      (e = eWaifu2xError_OK \/ e = eWaifu2xError_FailedProcessCaffe) /\
      (engine_total net -> e = eWaifu2xError_OK).
Proof.
  intros Hbs. induction fuel as [|fuel IH]; intros num s Hf; rewrite batch_loop_eq.
  - destruct (Z.ltb_spec num (block_count W Height Width)); [lia|].
    eexists _, _. split; [reflexivity|]. auto.
  - destruct (Z.ltb_spec num (block_count W Height Width)).
    + cbv zeta.
      destruct (net _ _) as [b|] eqn:En.
      * apply IH. lia.
      * eexists _, _. split; [reflexivity|]. split; [auto|].
        intros Ht. exfalso. exact (Ht _ _ En).
    + eexists _, _. split; [reflexivity|]. auto.
Qed.

Lemma ReconstructImage_run_returns W net im junk :
  0 < batch_size W ->
  exists e s, ReconstructImage_run W net im junk = Some (e, s) /\
    (e = eWaifu2xError_OK \/ e = eWaifu2xError_FailedProcessCaffe) /\
    (engine_total net -> e = eWaifu2xError_OK).
Proof.
  intros Hbs. unfold ReconstructImage_run. apply batch_loop_returns; [assumption|].
  lia.
Qed.

Lemma ReconstructImage_returns W net im junk :
  0 < batch_size W ->
  exists e im' W', ReconstructImage W net im junk = Some (e, im', W') /\
    (e = eWaifu2xError_OK \/ e = eWaifu2xError_FailedProcessCaffe) /\
    (engine_total net -> e = eWaifu2xError_OK) /\
    config W' = config W /\ rows im' = rows im /\ cols im' = cols im.
Proof.
  intros Hbs.
  destruct (ReconstructImage_run_returns W net im junk Hbs) as (e & s & E & He & Ht).
  unfold ReconstructImage. rewrite E.
  destruct He as [-> | ->]; eexists _, _, _; (split; [reflexivity|]); auto 6.
Qed.

(** A pass returns nothing but success or the engine failure, and keeps the
    configuration, whether or not the loop ends. *)
Lemma ReconstructImage_result W net im junk e im' W' :
  ReconstructImage W net im junk = Some (e, im', W') ->
  (e = eWaifu2xError_OK \/ e = eWaifu2xError_FailedProcessCaffe) /\
  config W' = config W /\ rows im' = rows im /\ cols im' = cols im.
Proof.
  unfold ReconstructImage, ReconstructImage_run.
  generalize (Z.to_nat (block_count W (rows im) (cols im))) as fuel.
  generalize (pass_store W im junk) as s. generalize 0 as num.
  assert (G : forall fuel num s e s',
    batch_loop W net (rows im) (cols im) (step1 im) fuel num s = Some (e, s') ->
    e = eWaifu2xError_OK \/ e = eWaifu2xError_FailedProcessCaffe).
  { induction fuel as [|fuel IH]; intros num s e0 s'; rewrite batch_loop_eq;
      destruct (Z.ltb_spec num (block_count W (rows im) (cols im))); try discriminate.
    - intros Hr; injection Hr as <- <-; auto.
    - cbv zeta. destruct (net _ _); [apply IH|].
      intros Hr; injection Hr as <- <-; auto.
    - intros Hr; injection Hr as <- <-; auto. }
  intros num s fuel.
  destruct (batch_loop W net (rows im) (cols im) (step1 im) fuel num s)
    as [[e0 s0]|] eqn:E; [|discriminate].
  pose proof (G _ _ _ _ _ E) as [-> | ->]; intros Hr; injection Hr as <- <- <-; auto.
Qed.

(** ** The passes of [waifu2x] *)

Lemma config_fields (W W' : Waifu2x) :
  config W' = config W ->
  is_inited W' = is_inited W /\ mode W' = mode W /\ scale_ratio W' = scale_ratio W /\
  batch_size W' = batch_size W /\ output_size W' = output_size W.
Proof. unfold config. intros E. injection E. intros. auto. Qed.

Lemma reconstruct_cases env k W im t :
  (batch_size W <= 0 /\ reconstruct env k W im t = (Diverge, t)) \/
  (exists im' W', config W' = config W /\ rows im' = rows im /\ cols im' = cols im /\
     reconstruct env k W im t
     = (Ret (eWaifu2xError_OK, im', W'), t ++ [EvReconstruct k eWaifu2xError_OK])) \/
  (exists im' W', ~ engine_total (net_of env k) /\
     reconstruct env k W im t
     = (Ret (eWaifu2xError_FailedProcessCaffe, im', W'),
        t ++ [EvReconstruct k eWaifu2xError_FailedProcessCaffe])).
Proof.
  unfold reconstruct.
  destruct (ReconstructImage W (net_of env k) im (uninit env)) as [[[e im'] W']|] eqn:E.
  - destruct (ReconstructImage_result _ _ _ _ _ _ _ E) as ([-> | ->] & Hc & Hr & Hcl).
    + right. left. eauto 8.
    + right. right. exists im', W'. split; [|reflexivity].
      intros Ht. destruct (Z_lt_le_dec 0 (batch_size W)) as [Hb | Hb].
      * destruct (ReconstructImage_returns W (net_of env k) im (uninit env) Hb)
          as (e2 & im2 & W2 & E2 & _ & Hok & _).
        rewrite E in E2. injection E2 as <- <- <-. specialize (Hok Ht). discriminate.
      * clear Hc Hr Hcl. revert E. unfold ReconstructImage, ReconstructImage_run.
        generalize (Z.to_nat (block_count W (rows im) (cols im))) as fuel.
        generalize (pass_store W im (uninit env)) as s. generalize 0 as num.
        assert (G : forall fuel num s s',
          batch_loop W (net_of env k) (rows im) (cols im) (step1 im) fuel num s
          <> Some (eWaifu2xError_FailedProcessCaffe, s')).
        { induction fuel as [|fuel IH]; intros num s s'; rewrite batch_loop_eq;
            destruct (Z.ltb_spec num (block_count W (rows im) (cols im)));
            try discriminate.
          cbv zeta. destruct (net_of env k _ _) eqn:En; [apply IH|].
          exfalso. exact (Ht _ _ En). }
        intros num s fuel.
        destruct (batch_loop W (net_of env k) (rows im) (cols im) (step1 im) fuel num s)
          as [[e0 s0]|] eqn:E0; [|discriminate].
        destruct e0; intros Hr; try discriminate.
        exfalso. exact (G _ _ _ _ E0).
  - left. split; [|reflexivity].
    destruct (Z_lt_le_dec 0 (batch_size W)) as [Hb | Hb]; [|assumption].
    destruct (ReconstructImage_returns W (net_of env k) im (uninit env) Hb)
      as (e2 & im2 & W2 & E2 & _).
    rewrite E in E2. discriminate.
Qed.

Lemma Mat_size_crop_padding (im : Mat) (sz : Size) : Mat_size (crop_padding im sz) = sz.
Proof. destruct sz. reflexivity. Qed.

Lemma scaled_0 (sz : Size) : scaled sz 0 = sz.
Proof. destruct sz as [w h]. unfold scaled. cbn [width height Z.of_nat Z.pow]. f_equal; lia. Qed.

Lemma scaled_S (sz : Size) (n : nat) :
  scaled (mkSize (width sz * 2) (height sz * 2)) n = scaled sz (S n).
Proof.
  unfold scaled. cbn [width height]. rewrite Nat2Z.inj_succ, Z.pow_succ_r by lia.
  f_equal; lia.
Qed.

Lemma ok_passes_S k n t :
  (t ++ [EvReconstruct k eWaifu2xError_OK]) ++ ok_passes k n = t ++ ok_passes k (S n).
Proof. now rewrite <- app_assoc. Qed.

(** The upscale loop: [j] successful passes, then the end of the loop, a
    failed pass, or a pass that does not return. *)
Lemma scale_loop_cases env n :
  forall W im sz t, Mat_size im = sz ->
  (exists W' im', config W' = config W /\
     scale_loop env n W im sz t
     = (Ret (W', im', scaled sz n), t ++ ok_passes NetScale n)) \/
  (exists j, (j < n)%nat /\ ~ engine_total (net_scale env) /\
     scale_loop env n W im sz t
     = (Err eWaifu2xError_FailedProcessCaffe,
        t ++ ok_passes NetScale j
          ++ [EvReconstruct NetScale eWaifu2xError_FailedProcessCaffe])) \/
  (exists j, (j < n)%nat /\ batch_size W <= 0 /\
     scale_loop env n W im sz t = (Diverge, t ++ ok_passes NetScale j)).
Proof.
  induction n as [|n IH]; intros W im sz t Hsz.
  - left. exists W, im. split; [reflexivity|].
    cbn. now rewrite scaled_0, app_nil_r.
  - cbn [scale_loop]. unfold Zoom2xAndPaddingImage.
    set (zoom_size := mkSize (width (Mat_size im) * 2) (height (Mat_size im) * 2)).
    set (im1 := PaddingImage W (resize env im zoom_size INTER_NEAREST)).
    unfold bind.
    destruct (reconstruct_cases env NetScale W im1 t)
      as [[Hb E] | [(im' & W' & Hc & _ & _ & E) | (im' & W' & Hne & E)]]; rewrite E.
    + right. right. exists O. split; [lia|]. split; [assumption|].
      cbn. now rewrite app_nil_r.
    + cbn [is_OK].
      destruct (IH W' (crop_padding im' zoom_size) zoom_size
                  (t ++ [EvReconstruct NetScale eWaifu2xError_OK])
                  (Mat_size_crop_padding _ _))
        as [(W2 & im2 & Hc2 & E2) | [(j & Hj & Hne & E2) | (j & Hj & Hb & E2)]];
        rewrite E2.
      * left. exists W2, im2. split; [congruence|].
        rewrite ok_passes_S. unfold zoom_size. rewrite Hsz, scaled_S. reflexivity.
      * right. left. exists (S j). split; [lia|]. split; [assumption|].
        unfold ok_passes. cbn [repeat]. rewrite <- app_assoc. reflexivity.
      * right. right. exists (S j). split; [lia|]. split.
        -- destruct (config_fields _ _ Hc) as (_ & _ & _ & Eb & _). lia.
        -- now rewrite ok_passes_S.
    + cbn [is_OK]. right. left. exists O. split; [lia|]. split; [assumption|].
      reflexivity.
Qed.

Lemma LoadImage_cases env input_file e float_image :
  LoadImage env input_file = (e, float_image) ->
  (imread env input_file = None /\ e = eWaifu2xError_FailedOpenInputFile) \/
  e = eWaifu2xError_OK.
Proof.
  unfold LoadImage. destruct (imread env input_file).
  - intros E. injection E as <- _. auto.
  - intros E. injection E as <- _. auto.
Qed.

Lemma poll_cases (c : waifu2xCancelFunc) (t : list Event) :
  poll c t = (Ret (probe_fires c t), t ++ poll_events c t).
Proof. destruct c; cbn; [reflexivity | now rewrite app_nil_r]. Qed.

Lemma noise_stage_cases env W im sz (isRN : bool) t :
  (isRN = true /\ batch_size W <= 0 /\
     noise_stage env W im sz isRN t = (Diverge, t)) \/
  (isRN = true /\ ~ engine_total (net_noise env) /\
     noise_stage env W im sz isRN t
     = (Err eWaifu2xError_FailedProcessCaffe,
        t ++ [EvReconstruct NetNoise eWaifu2xError_FailedProcessCaffe])) \/
  (exists W' im', config W' = config W /\ (Mat_size im = sz -> Mat_size im' = sz) /\
     noise_stage env W im sz isRN t
     = (Ret (W', im'), t ++ (if isRN then ok_passes NetNoise 1 else []))).
Proof.
  unfold noise_stage. destruct isRN.
  - unfold bind.
    destruct (reconstruct_cases env NetNoise W (PaddingImage W im) t)
      as [[Hb E] | [(im' & W' & Hc & _ & _ & E) | (im' & W' & Hne & E)]]; rewrite E.
    + left. auto.
    + right. right. exists W', (crop_padding im' sz).
      split; [assumption|]. split; [intros _; apply Mat_size_crop_padding|].
      reflexivity.
    + right. left. auto.
  - right. right. exists W, im. split; [reflexivity|]. split; [auto|].
    cbn. now rewrite app_nil_r.
Qed.

Lemma write_stage_run env output_file process_image image_size shrinkRatio t :
  let ns := shrink_size image_size shrinkRatio in
  let resized := negb (Size_eqb image_size ns) in
  let write_iamge :=
    map convertTo_8U
      (if resized then map (fun p => resize env p ns INTER_LINEAR) process_image
       else process_image) in
  let ok := imwrite env output_file write_iamge in
  write_stage env output_file process_image image_size shrinkRatio t
  = ((if ok then Ret tt else Err eWaifu2xError_FailedOpenOutputFile),
     t ++ (if resized then [EvResize ns] else []) ++ [EvWrite output_file write_iamge ok]).
Proof.
  intros ns resized write_iamge ok. unfold write_stage. fold ns. fold resized.
  subst write_iamge ok. destruct resized; unfold bind, emit, ret, throw; cbn [negb].
  - rewrite <- app_assoc.
    destruct (imwrite env output_file _); reflexivity.
  - destruct (imwrite env output_file _); reflexivity.
Qed.

(** Every call of [waifu2x] goes one of the ways of [run_shape]. *)
Ltac run_ends :=
  cbv beta iota delta [throw code_of];
  let E := fresh "E" in intros E; injection E as <- <-.

Lemma waifu2x_shape env W input_file output_file c r t :
  waifu2x env W input_file output_file c = (r, t) ->
  run_shape env W input_file output_file c r t.
Proof.
  unfold waifu2x, waifu2x_body.
  destruct (is_inited W) eqn:Hi; cbn [negb].
  2:{ run_ends. apply shape_not_inited; assumption. }
  destruct (LoadImage env input_file) as [ret0 float_image] eqn:HL.
  destruct (LoadImage_cases _ _ _ _ HL) as [[Hr ->] | ->]; cbn [is_OK negb].
  { run_ends. apply shape_load_failed; assumption. }
  cbv zeta.
  set (im0 := CreateBrightnessImage env float_image).
  unfold bind at 1.
  destruct (noise_stage_cases env W im0 (Mat_size im0)
              (isReconstructNoise_of W (isJpeg_of input_file)) [])
    as [(HRN & Hb & E) | [(HRN & Hne & E) | (W1 & im1 & Hc1 & Hs1 & E)]]; rewrite E.
  { run_ends. eapply shape_noise_diverges; eassumption. }
  { run_ends. eapply shape_noise_failed; eassumption. }
  cbn [app]. specialize (Hs1 eq_refl).
  destruct (config_fields _ _ Hc1) as (_ & _ & Esr & Eb & _).
  fold (after_noise W input_file).
  set (a := after_noise W input_file).
  unfold bind at 1. rewrite poll_cases.
  destruct (probe_fires c a) eqn:Hp1.
  { run_ends. eapply shape_cancel_before_scale; eassumption. }
  unfold bind at 1. unfold scale_stage. rewrite Esr.
  set (ratio := ddiv (scale_ratio W) (pow2 (of_int (ceil_log2 env (scale_ratio W))))).
  assert (Tail : forall im2,
    (let '(o, t0) :=
       (c0 <- poll c ;;
        if c0 then throw eWaifu2xError_Cancel
        else write_stage env output_file
               (recompose env float_image im2
                  (scaled (Mat_size im0) (scale_turns env W)))
               (scaled (Mat_size im0) (scale_turns env W)) ratio)
         (after_scale env W input_file c) in
     (code_of o, t0)) = (r, t) ->
    run_shape env W input_file output_file c r t).
  { intros im2. unfold bind. rewrite poll_cases.
    destruct (probe_fires c (after_scale env W input_file c)) eqn:Hp2.
    - run_ends. eapply shape_cancel_after_scale; eassumption.
    - rewrite write_stage_run. cbv zeta.
      rewrite <- app_assoc.
      pose proof (shape_done env W input_file output_file c float_image
                    (recompose env float_image im2
                       (scaled (Mat_size im0) (scale_turns env W)))
                    Hi HL Hp1 Hp2) as S.
      cbv zeta in S. fold im0 in S. revert S.
      unfold ratio. fold (shrink_ratio env (scale_ratio W)).
      match goal with
      | |- context [imwrite env output_file ?img] =>
          destruct (imwrite env output_file img)
      end; intros S; run_ends; exact S. }
  unfold after_scale, scale_turns in Tail. fold a in Tail.
  destruct (isReconstructScale_of W) eqn:HRS.
  - destruct (scale_loop_cases env (Z.to_nat (ceil_log2 env (scale_ratio W))) W1 im1
                (Mat_size im0) (a ++ poll_events c a) Hs1)
      as [(W2 & im2 & Hc2 & E2) | [(j & Hj & Hne & E2) | (j & Hj & Hb & E2)]];
      rewrite E2.
    + rewrite <- app_assoc. apply Tail.
    + run_ends. rewrite <- app_assoc.
      eapply shape_scale_failed; try eassumption.
      unfold scale_turns. now rewrite HRS.
    + run_ends. rewrite <- app_assoc.
      eapply shape_scale_diverges; try eassumption.
      * unfold scale_turns. now rewrite HRS.
      * lia.
  - unfold ret at 1. specialize (Tail im1).
    rewrite scaled_0 in Tail. cbn [ok_passes repeat] in Tail.
    rewrite app_nil_r in Tail. apply Tail.
Qed.

(** ** Counting in a history *)

Lemma count_app p (l1 l2 : list Event) : count p (l1 ++ l2) = (count p l1 + count p l2)%nat.
Proof. unfold count. now rewrite filter_app, length_app. Qed.

Lemma count_repeat p (x : Event) (n : nat) :
  count p (repeat x n) = if p x then n else O.
Proof.
  unfold count. induction n as [|n IH]; cbn [repeat filter].
  - now destruct (p x).
  - destruct (p x) eqn:E; cbn [List.length]; rewrite IH; reflexivity.
Qed.

Lemma count_poll_events_le p c t : (count p (poll_events c t) <= 1)%nat.
Proof. destruct c; cbn; [destruct (p _); cbn; lia | lia]. Qed.

Lemma passes_poll_events k c t : passes k (poll_events c t) = O.
Proof. destruct c, k; reflexivity. Qed.

Lemma writes_poll_events c t : writes (poll_events c t) = O.
Proof. destruct c; reflexivity. Qed.


Lemma polls_after_noise W input_file : polls (after_noise W input_file) = O.
Proof. unfold after_noise. destruct (isReconstructNoise_of _ _); reflexivity. Qed.

Lemma writes_after_noise W input_file : writes (after_noise W input_file) = O.
Proof. unfold after_noise. destruct (isReconstructNoise_of _ _); reflexivity. Qed.

Lemma resizes_app (l1 l2 : list Event) : resizes (l1 ++ l2) = resizes l1 ++ resizes l2.
Proof. unfold resizes. apply flat_map_app. Qed.

Lemma resizes_ok_passes k n : resizes (ok_passes k n) = [].
Proof. induction n; [reflexivity | exact IHn]. Qed.

Lemma resizes_poll_events c t : resizes (poll_events c t) = [].
Proof. destruct c; reflexivity. Qed.

Lemma resizes_after_noise W input_file : resizes (after_noise W input_file) = [].
Proof. unfold after_noise. destruct (isReconstructNoise_of _ _); reflexivity. Qed.


Lemma writes_after_scale env W input_file c : writes (after_scale env W input_file c) = O.
Proof.
  unfold after_scale, writes. rewrite !count_app.
  fold (writes (after_noise W input_file)).
  fold (writes (poll_events c (after_noise W input_file))).
  rewrite writes_after_noise, writes_poll_events.
  unfold ok_passes. rewrite count_repeat. reflexivity.
Qed.



Ltac unlet := repeat match goal with x := _ |- _ => subst x end.


(** ** The number of upscale passes and the final resize *)




(** An [int] is a [double]. *)
Lemma int_below_2_53 (z : Z) : z <= INT_MAX -> z < 2 ^ 53.
Proof.
  intros H. assert (E : 2 ^ 53 = 9007199254740992) by reflexivity.
  unfold INT_MAX in H. lia.
Qed.









Lemma auto_scale_turns (env : Env) (W : Waifu2x) :
  mode W = "auto_scale"%string -> scale_turns env W = O.
Proof. unfold scale_turns, isReconstructScale_of. intros ->. reflexivity. Qed.

(** C4, on the code.  In mode "auto_scale" with a ratio of 2 the call
    ends well without any upscale pass, although [ceil (log2 2)] is 1:
    [isReconstructScale] does not list the mode. *)
Lemma auto_scale_runs_no_upscale_pass :
  let run := waifu2x (sample_env (crop_engine 2) (crop_engine 2))
               (sample_W "auto_scale" 2) "in.jpg" "out.png" None in
  fst run = Some eWaifu2xError_OK /\
  passes NetNoise (snd run) = 1%nat /\
  passes NetScale (snd run) = O /\
  ceil_log2 (sample_env (crop_engine 2) (crop_engine 2)) (Fin 2) = 1 /\
  isReconstructScale_of (sample_W "auto_scale" 2) = false.
Proof. vm_compute. repeat split. Qed.

(** ** The order of the events of a history *)

Lemma split_mid (x : Event) (l1 l2 t1 t2 : list Event) :
  l1 ++ l2 = t1 ++ x :: t2 ->
  (exists m, l1 = t1 ++ x :: m /\ t2 = m ++ l2) \/
  (exists m, l2 = m ++ x :: t2 /\ t1 = l1 ++ m).
Proof.
  revert t1. induction l1 as [|y l1 IH]; intros t1 E.
  - right. exists t1. auto.
  - destruct t1 as [|z t1]; cbn in E; injection E as -> E.
    + left. exists l1. subst. auto.
    + destruct (IH _ E) as [(m & -> & ->) | (m & -> & ->)].
      * left. exists m. auto.
      * right. exists m. auto.
Qed.

Lemma Forall_mid (P : Event -> Prop) (x : Event) (l m : list Event) :
  Forall P (l ++ x :: m) -> P x.
Proof. intros H. apply Forall_app in H as [_ H]. now inversion H. Qed.

Lemma poll_slot_mid (P t1 t2 : list Event) (x : Event) :
  poll_slot P -> P = t1 ++ x :: t2 -> t1 = [] /\ t2 = [] /\ P = [x].
Proof.
  intros [-> | [b ->]] E.
  - destruct t1; discriminate.
  - destruct t1 as [|y t1]; cbn in E.
    + injection E as <- <-. auto.
    + injection E as _ E. destruct t1; discriminate.
Qed.

Lemma poll_slot_poll_events c t : poll_slot (poll_events c t).
Proof. destruct c; [right; eexists; reflexivity | left; reflexivity]. Qed.

Lemma poll_events_true c t :
  poll_events c t = [EvCancelPoll true] -> probe_fires c t = true.
Proof. destruct c; cbn; [|discriminate]. intros E. now injection E. Qed.

Lemma poll_events_fired c t :
  probe_fires c t = true -> poll_events c t = [EvCancelPoll true].
Proof. destruct c; cbn; [|discriminate]. now intros ->. Qed.

Lemma noise_after_noise W input_file :
  Forall (fun ev => is_pass NetNoise ev = true) (after_noise W input_file).
Proof.
  unfold after_noise. destruct (isReconstructNoise_of _ _); repeat constructor.
Qed.

Lemma scale_ok_passes j :
  Forall (fun ev => is_pass NetScale ev = true) (ok_passes NetScale j).
Proof. induction j; cbn; constructor; auto. Qed.

Ltac seg_tac :=
  repeat split;
  try solve [ apply Forall_nil | left; reflexivity | discriminate
            | apply noise_after_noise | apply poll_slot_poll_events
            | apply scale_ok_passes | repeat constructor
            | match goal with
              | Ht : poll_events _ _ = [EvCancelPoll true] |- _ =>
                  apply poll_events_true in Ht; congruence
              | Ht : [] = _ :: _ |- _ => discriminate Ht
              end ].

(** A history lists the denoise pass, a poll, the upscale passes, a poll,
    then the resize and the output file; a poll that answers true ends it. *)
Lemma run_segments env W input_file output_file c r t :
  run_shape env W input_file output_file c r t ->
  exists N P1 S P2 O,
    t = N ++ P1 ++ S ++ P2 ++ O /\
    Forall (fun ev => is_pass NetNoise ev = true) N /\
    poll_slot P1 /\
    Forall (fun ev => is_pass NetScale ev = true) S /\
    poll_slot P2 /\
    Forall (fun ev => is_out ev = true) O /\
    (P1 = [EvCancelPoll true] ->
       S = [] /\ P2 = [] /\ O = [] /\ r = Some eWaifu2xError_Cancel) /\
    (P2 = [EvCancelPoll true] -> O = [] /\ r = Some eWaifu2xError_Cancel).
Proof.
  intros S0. inversion S0; subst; unlet.
  - exists [], [], [], [], []. seg_tac.
  - exists [], [], [], [], []. seg_tac.
  - exists [], [], [], [], []. seg_tac.
  - exists [EvReconstruct NetNoise eWaifu2xError_FailedProcessCaffe], [], [], [], [].
    seg_tac.
  - exists (after_noise W input_file), (poll_events c (after_noise W input_file)), [], [], [].
    rewrite !app_nil_r. seg_tac.
  - exists (after_noise W input_file), (poll_events c (after_noise W input_file)),
      (ok_passes NetScale j), [], [].
    rewrite !app_nil_r. seg_tac.
  - exists (after_noise W input_file), (poll_events c (after_noise W input_file)),
      (ok_passes NetScale j ++ [EvReconstruct NetScale eWaifu2xError_FailedProcessCaffe]),
      [], [].
    rewrite !app_nil_r, <- ?app_assoc. seg_tac.
    apply Forall_app. split; [apply scale_ok_passes | repeat constructor].
  - exists (after_noise W input_file), (poll_events c (after_noise W input_file)),
      (ok_passes NetScale (scale_turns env W)), (poll_events c (after_scale env W input_file c)), [].
    unfold after_scale at 1. rewrite !app_nil_r, <- ?app_assoc. seg_tac.
  - eexists (after_noise W input_file), (poll_events c (after_noise W input_file)),
      (ok_passes NetScale (scale_turns env W)), (poll_events c (after_scale env W input_file c)), _.
    unfold after_scale at 1. rewrite <- ?app_assoc.
    split; [reflexivity|]. seg_tac.
    match goal with |- context [negb ?b] => destruct (negb b) end; repeat constructor.
Qed.

Lemma count_Forall_none (p q : Event -> bool) (l : list Event) :
  (forall ev, q ev = true -> p ev = false) ->
  Forall (fun ev => q ev = true) l -> count p l = O.
Proof.
  intros Hpq Hl. unfold count. induction Hl as [|x l Hx _ IH]; [reflexivity|].
  cbn [filter]. rewrite (Hpq _ Hx). exact IH.
Qed.

Lemma count_poll_slot_none (p : Event -> bool) (P : list Event) :
  (forall b, p (EvCancelPoll b) = false) -> poll_slot P -> count p P = O.
Proof. intros Hp [-> | [b ->]]; [reflexivity|]. unfold count. cbn. now rewrite Hp. Qed.

Lemma polls_poll_slot (P : list Event) : poll_slot P -> (polls P <= 1)%nat.
Proof. intros [-> | [b ->]]; cbn; lia. Qed.

Lemma kind_noise ev : is_pass NetNoise ev = true ->
  is_pass NetScale ev = false /\ is_poll ev = false /\ is_write ev = false.
Proof. destruct ev as [[] ?| | |]; cbn; auto; discriminate. Qed.

Lemma kind_scale ev : is_pass NetScale ev = true ->
  is_pass NetNoise ev = false /\ is_poll ev = false /\ is_write ev = false.
Proof. destruct ev as [[] ?| | |]; cbn; auto; discriminate. Qed.

Lemma kind_out ev : is_out ev = true ->
  is_pass NetNoise ev = false /\ is_pass NetScale ev = false /\ is_poll ev = false.
Proof. destruct ev as [[] ?| | |]; cbn; auto; discriminate. Qed.

Lemma poll_position (N P1 S P2 O t1 t2 : list Event) (b : bool) :
  Forall (fun ev => is_pass NetNoise ev = true) N ->
  poll_slot P1 ->
  Forall (fun ev => is_pass NetScale ev = true) S ->
  poll_slot P2 ->
  Forall (fun ev => is_out ev = true) O ->
  N ++ P1 ++ S ++ P2 ++ O = t1 ++ EvCancelPoll b :: t2 ->
  (P1 = [EvCancelPoll b] /\ t1 = N /\ t2 = S ++ P2 ++ O) \/
  (P2 = [EvCancelPoll b] /\ t1 = N ++ P1 ++ S /\ t2 = O).
Proof.
  intros HN HP1 HS HP2 HO E.
  apply split_mid in E as [(m & E & _) | (m1 & E & ->)].
  { subst N. apply Forall_mid in HN. discriminate. }
  apply split_mid in E as [(m & E & ->) | (m2 & E & ->)].
  { destruct (poll_slot_mid _ _ _ _ HP1 E) as (-> & -> & ->).
    left. rewrite app_nil_r. auto. }
  apply split_mid in E as [(m & E & _) | (m3 & E & ->)].
  { subst S. apply Forall_mid in HS. discriminate. }
  apply split_mid in E as [(m & E & ->) | (m4 & E & _)].
  { destruct (poll_slot_mid _ _ _ _ HP2 E) as (-> & -> & ->).
    right. rewrite !app_nil_r. auto. }
  subst O. apply Forall_mid in HO. discriminate.
Qed.

Lemma passes_noise_rest (S P2 Out : list Event) :
  Forall (fun ev => is_pass NetScale ev = true) S -> poll_slot P2 ->
  Forall (fun ev => is_out ev = true) Out ->
  passes NetNoise (S ++ P2 ++ Out) = 0%nat.
Proof.
  intros HS HP HO. unfold passes. rewrite !count_app.
  rewrite (count_Forall_none _ _ S (fun ev H => proj1 (kind_scale ev H)) HS).
  rewrite (count_poll_slot_none _ P2 (fun _ => eq_refl) HP).
  rewrite (count_Forall_none _ _ Out (fun ev H => proj1 (kind_out ev H)) HO).
  reflexivity.
Qed.

(** The probe matters only through its answers at the two polls. *)
Lemma waifu2x_probe_ext env W input_file output_file c c' :
  let a := after_noise W input_file in
  let b := after_scale env W input_file c in
  probe_fires c' a = probe_fires c a -> poll_events c' a = poll_events c a ->
  probe_fires c' b = probe_fires c b -> poll_events c' b = poll_events c b ->
  waifu2x env W input_file output_file c' = waifu2x env W input_file output_file c.
Proof.
  intros a b Ha Ha' Hb Hb'.
  unfold waifu2x, waifu2x_body.
  destruct (is_inited W); cbn [negb]; [|reflexivity].
  destruct (LoadImage env input_file) as [ret0 float_image].
  destruct (negb (is_OK ret0)); [reflexivity|].
  cbv zeta.
  set (im0 := CreateBrightnessImage env float_image).
  unfold bind at 1 5.
  destruct (noise_stage_cases env W im0 (Mat_size im0)
              (isReconstructNoise_of W (isJpeg_of input_file)) [])
    as [(HRN & _ & E) | [(HRN & _ & E) | (W1 & im1 & Hc1 & Hs1 & E)]]; rewrite E;
    try reflexivity.
  cbn [app]. fold (after_noise W input_file). fold a.
  specialize (Hs1 eq_refl).
  destruct (config_fields _ _ Hc1) as (_ & _ & Esr & _).
  unfold bind at 1 4. rewrite !poll_cases, Ha, Ha'.
  destruct (probe_fires c a); [reflexivity|].
  unfold bind at 1 3. unfold scale_stage. rewrite Esr.
  unfold b, after_scale, scale_turns in Hb, Hb'. fold a in Hb, Hb'.
  destruct (isReconstructScale_of W).
  - destruct (scale_loop_cases env (Z.to_nat (ceil_log2 env (scale_ratio W))) W1 im1
                (Mat_size im0) (a ++ poll_events c a) Hs1)
      as [(W2 & im2 & Hc2 & E2) | [(j & _ & _ & E2) | (j & _ & _ & E2)]];
      rewrite E2; try reflexivity.
    rewrite <- app_assoc. unfold bind. rewrite !poll_cases, Hb, Hb'. reflexivity.
  - unfold ret at 1 2. cbn [ok_passes repeat] in Hb, Hb'. rewrite app_nil_r in Hb, Hb'.
    unfold bind. rewrite !poll_cases, Hb, Hb'. reflexivity.
Qed.

(** ** Cancellation *)

Lemma count_segments (p : Event -> bool) (N P1 S P2 Out : list Event) :
  count p (N ++ P1 ++ S ++ P2 ++ Out)
  = (count p N + (count p P1 + (count p S + (count p P2 + count p Out))))%nat.
Proof. now rewrite !count_app. Qed.

(** C5 (amended). A call polls the cancellation probe at most twice: once
    after the denoise stage and before the upscale loop, once after the
    loop; no poll lies between two upscale passes, and a pass itself never
    polls.  A poll that reports a cancellation is the last event of the
    call, which returns [eWaifu2xError_Cancel] without writing the output
    file.  Once the poll before the loop has answered no, the loop runs all
    its turns whatever the probe would have answered meanwhile, and a probe
    that answers alike at the two polls gives the same run: a request that
    arrives after the last poll changes nothing. *)
Theorem cancellation_polls env W input_file output_file c r t :
  waifu2x env W input_file output_file c = (r, t) ->
  (polls t <= 2)%nat /\
  (forall t1 b t2, t = t1 ++ EvCancelPoll b :: t2 ->
     passes NetNoise t2 = O /\ (passes NetScale t1 = O \/ passes NetScale t2 = O)) /\
  (forall t1 t2, t = t1 ++ EvCancelPoll true :: t2 ->
     t2 = [] /\ r = Some eWaifu2xError_Cancel) /\
  (r = Some eWaifu2xError_Cancel ->
     writes t = O /\ exists t1, t = t1 ++ [EvCancelPoll true]) /\
  (is_inited W = true -> imread env input_file <> None -> 0 < batch_size W ->
   engine_total (net_noise env) -> engine_total (net_scale env) ->
   probe_fires c (after_noise W input_file) = false ->
   exists rest, t = after_scale env W input_file c ++ rest) /\
  (forall c',
     probe_fires c' (after_noise W input_file) = probe_fires c (after_noise W input_file) ->
     poll_events c' (after_noise W input_file) = poll_events c (after_noise W input_file) ->
     probe_fires c' (after_scale env W input_file c) = probe_fires c (after_scale env W input_file c) ->
     poll_events c' (after_scale env W input_file c) = poll_events c (after_scale env W input_file c) ->
     waifu2x env W input_file output_file c' = (r, t)).
Proof.
  intros E. pose proof (waifu2x_shape _ _ _ _ _ _ _ E) as Sh.
  destruct (run_segments _ _ _ _ _ _ _ Sh)
    as (N & P1 & S & P2 & Out & Et & HN & HP1 & HS & HP2 & HO & Hc1 & Hc2).
  split; [|split; [|split; [|split; [|split]]]].
  - subst t. unfold polls. rewrite count_segments.
    rewrite (count_Forall_none _ _ N (fun ev H => proj1 (proj2 (kind_noise ev H))) HN).
    rewrite (count_Forall_none _ _ S (fun ev H => proj1 (proj2 (kind_scale ev H))) HS).
    rewrite (count_Forall_none _ _ Out (fun ev H => proj2 (proj2 (kind_out ev H))) HO).
    pose proof (polls_poll_slot _ HP1). pose proof (polls_poll_slot _ HP2).
    unfold polls in *. lia.
  - intros t1 b t2 E2. rewrite Et in E2.
    destruct (poll_position _ _ _ _ _ _ _ _ HN HP1 HS HP2 HO E2)
      as [(_ & -> & ->) | (_ & -> & ->)].
    + split; [apply passes_noise_rest; assumption|]. left.
      apply (count_Forall_none _ _ N (fun ev H => proj1 (kind_noise ev H)) HN).
    + split.
      * apply (count_Forall_none _ _ Out (fun ev H => proj1 (kind_out ev H)) HO).
      * right.
        apply (count_Forall_none _ _ Out (fun ev H => proj1 (proj2 (kind_out ev H))) HO).
  - intros t1 t2 E2. rewrite Et in E2.
    destruct (poll_position _ _ _ _ _ _ _ _ HN HP1 HS HP2 HO E2)
      as [(EP & -> & ->) | (EP & -> & ->)].
    + destruct (Hc1 EP) as (-> & -> & -> & ->). auto.
    + destruct (Hc2 EP) as (-> & ->). auto.
  - intros ->. inversion Sh; subst; unlet.
    + match goal with H : probe_fires _ _ = true |- _ =>
        rewrite (poll_events_fired _ _ H) end.
      split; [|eexists; reflexivity].
      unfold writes. rewrite count_app. fold (writes (after_noise W input_file)).
      now rewrite writes_after_noise.
    + match goal with H : probe_fires _ _ = true |- _ =>
        rewrite (poll_events_fired _ _ H) end.
      split; [|eexists; reflexivity].
      unfold writes. rewrite count_app. fold (writes (after_scale env W input_file c)).
      now rewrite writes_after_scale.
    + match goal with H : (if ?b then _ else _) = eWaifu2xError_Cancel |- _ =>
        destruct b; discriminate H end.
  - intros Hi Hr Hb Hn Hs Hp. inversion Sh; subst; unlet;
      try congruence; try lia; try contradiction.
    + eexists; reflexivity.
    + eexists; reflexivity.
  - intros c' Ha Ha' Hb Hb'. rewrite <- E.
    apply waifu2x_probe_ext; assumption.
Qed.

(** C5, as stated, fails: with two upscale turns and a request that arrives
    once the first turn is over, the second turn still runs; the request is
    seen at the poll after the loop. *)
Lemma cancel_request_waits_for_loop_end :
  waifu2x (sample_env (crop_engine 2) (crop_engine 2)) (sample_W "scale" 4)
    "in.png" "out.png" (Some signal_after_first_pass)
  = (Some eWaifu2xError_Cancel,
     [EvCancelPoll false;
      EvReconstruct NetScale eWaifu2xError_OK;
      EvReconstruct NetScale eWaifu2xError_OK;
      EvCancelPoll true]) /\
  signal_after_first_pass
    [EvCancelPoll false; EvReconstruct NetScale eWaifu2xError_OK] = true.
Proof. split; vm_compute; reflexivity. Qed.

(** ** Copies between buffers *)

Lemma zlen_nonneg (l : list float) : 0 <= zlen l.
Proof. unfold zlen. lia. Qed.

Lemma zlen_memcpy_list dst doff src soff n :
  zlen (memcpy_list dst doff src soff n) = zlen dst.
Proof. unfold memcpy_list. apply zlen_ztab, zlen_nonneg. Qed.

Lemma zth_memcpy_list dst doff src soff n p :
  0 <= p < zlen dst ->
  zth (memcpy_list dst doff src soff n) p
  = if (doff <=? p) && (p <? doff + n) then zth src (soff + (p - doff)) else zth dst p.
Proof. intros Hp. unfold memcpy_list. now rewrite zth_ztab. Qed.

Lemma load_store_upd_same s b l : load (store_upd s b l) b = l.
Proof. destruct b; reflexivity. Qed.

Lemma load_store_upd_other s b b' l : b <> b' -> load (store_upd s b l) b' = load s b'.
Proof. destruct b, b'; intros H; try reflexivity; contradiction. Qed.

Lemma load_memcpy_same s dst src soff n :
  load (memcpy s dst src soff n) (p_buf dst)
  = memcpy_list (load s (p_buf dst)) (p_off dst) src soff n.
Proof. apply load_store_upd_same. Qed.

Lemma load_memcpy_other s dst src soff n b :
  p_buf dst <> b -> load (memcpy s dst src soff n) b = load s b.
Proof. apply load_store_upd_other. Qed.

Lemma for_loop_S {S : Type} (n : nat) (body : Z -> S -> S) (s : S) :
  for_loop (Z.of_nat (Datatypes.S n)) body s
  = body (Z.of_nat n) (for_loop (Z.of_nat n) body s).
Proof.
  unfold for_loop. rewrite !Nat2Z.id, seq_S, fold_left_app. reflexivity.
Qed.

(** The rule of the counted loop. *)
Lemma for_loop_ind {S : Type} (P : Z -> S -> Prop) (n : Z) (body : Z -> S -> S) (s : S) :
  P 0 s ->
  (forall i s', 0 <= i < n -> P i s' -> P (i + 1) (body i s')) ->
  P (Z.max 0 n) (for_loop n body s).
Proof.
  intros H0 Hstep.
  destruct (Z_lt_le_dec n 0) as [Hneg | Hpos].
  - replace (Z.max 0 n) with 0 by lia. unfold for_loop.
    replace (Z.to_nat n) with O by lia. exact H0.
  - replace (Z.max 0 n) with n by lia.
    rewrite <- (Z2Nat.id n Hpos) in Hstep |- *.
    induction (Z.to_nat n) as [|m IH].
    + exact H0.
    + rewrite for_loop_S. replace (Z.of_nat (Datatypes.S m)) with (Z.of_nat m + 1) by lia.
      apply Hstep; [lia|]. apply IH. intros i s' Hi. apply Hstep. lia.
Qed.

(** ** One reconstruction pass *)

Lemma Mat_eta (im : Mat) : mkMat (rows im) (cols im) (data im) = im.
Proof. now destruct im. Qed.

Lemma zth_ztake (n : Z) (l : list float) (p : Z) :
  0 <= p < n -> zth (ztake n l) p = zth l p.
Proof.
  intros Hp. unfold zth, ztake. destruct (Z.ltb_spec p 0); [lia|].
  rewrite nth_firstn.
  destruct (Nat.ltb_spec (Z.to_nat p) (Z.to_nat n)); [reflexivity | lia].
Qed.

Lemma zlen_ztake (n : Z) (l : list float) :
  0 <= n <= zlen l -> zlen (ztake n l) = n.
Proof. unfold zlen, ztake. intros Hn. rewrite length_firstn. lia. Qed.

Section Pass.

Variable W : Waifu2x.
Variable net : Engine.
Variable im : Mat.

Hypothesis Hcfg : configured W.
Hypothesis HCS : 0 < crop_size W.
Hypothesis Hbs : 0 < batch_size W.
Hypothesis Hwf : Mat_wf im.
Hypothesis HW : Z.rem (cols im) (output_size W) = 0.
Hypothesis HH : Z.rem (rows im) (output_size W) = 0.

Local Notation "'CS'" := (crop_size W).
Local Notation "'BS'" := (batch_size W).
Local Notation "'WN'" := (Z.quot (cols im) (output_size W)).
Local Notation "'HN'" := (Z.quot (rows im) (output_size W)).
Local Notation "'BN'" := (block_count W (rows im) (cols im)).
Local Notation "'ibs'" := (input_block_size W).
Local Notation "'obs'" := (output_block_size W).
Local Notation "'pn'" := (processNum_of W (rows im) (cols im)).

Lemma pass_geometry :
  output_size W = CS /\ ibs = CS + 16 /\ obs = CS + 2 /\
  inner_padding W + outer_padding W - layer_num = 1 /\
  cols im = CS * WN /\ rows im = CS * HN /\ 0 <= WN /\ 0 <= HN /\ BN = WN * HN.
Proof.
  destruct Hcfg as ((Ein & Eout & Eos & Eibs & Eobs) & _).
  destruct Hwf as (Hr & Hc & _).
  rewrite Eos in HW, HH.
  destruct (rem_zero_multiple _ _ Hc HCS HW) as [EW HWN].
  destruct (rem_zero_multiple _ _ Hr HCS HH) as [EH HHN].
  rewrite Ein, Eout, Eos. unfold block_count. rewrite Eos.
  repeat split; auto.
Qed.

Lemma processNum_bounds (num : Z) :
  0 <= num < BN -> 0 < pn num <= BS /\ num + pn num <= BN /\
  (pn num < BS -> num + pn num = BN).
Proof.
  intros Hn. unfold processNum_of. fold BN.
  rewrite Z.geb_leb. destruct (Z.leb_spec BS (BN - num)); lia.
Qed.

(** A turn of the extraction loop copies the bordered tile into its slot. *)
Lemma fill_tile_eq (num n : Z) (s : Store) :
  0 <= num + n < BN -> load s Buf_im = data im ->
  fill_tile W (rows im) (cols im) num n s
  = memcpy s (mkptr Buf_input_block (ibs * ibs * n)) (tile_input W im (num + n)) 0
      (ibs * ibs) /\
  zlen (tile_input W im (num + n)) = ibs * ibs.
Proof.
  intros Hk Hl.
  destruct (tile_window_facts W im (num + n) (proj1 Hcfg) HCS Hwf HW HH Hk)
    as (cw & Ew & _ & _ & _ & Hcw & Hch & Ecols & Erows).
  assert (Hlen : zlen (data (extract_tile im cw)) = ibs * ibs).
  { destruct pass_geometry as (_ & Eibs & _).
    unfold extract_tile, copyMakeBorder, Mat_tab in *. cbn [data rows cols] in *.
    rewrite Erows, Ecols. apply zlen_ztab. nia. }
  unfold tile_input. rewrite Ew.
  unfold tile_window, tile_w, tile_h, tile_wn, tile_hn in Ew.
  unfold fill_tile.
  destruct (_ && _); [|discriminate]. injection Ew as Ew.
  rewrite Ew, Hl, Mat_eta.
  unfold serialize_tile, step1. rewrite Ecols, Z.eqb_refl.
  split; [reflexivity | exact Hlen].
Qed.

Lemma slot_index (P n q p : Z) :
  0 < P -> 0 <= q < P -> p = P * n + q -> p / P = n /\ p mod P = q.
Proof.
  intros HP Hq ->. split.
  - rewrite Z.mul_comm, Z.add_comm, Z.div_add by lia. rewrite Z.div_small; lia.
  - rewrite Z.mul_comm, Z.add_comm, Z.mod_add by lia. apply Z.mod_small; lia.
Qed.

(** The extraction loop leaves in [input_block] the tiles of the batch, cut
    from the canvas as it was handed to the pass. *)
Lemma fill_loop_spec (num : Z) (s : Store) :
  0 <= num < BN -> load s Buf_im = data im ->
  zlen (load s Buf_input_block) = ibs * ibs * BS ->
  let s1 := for_loop (pn num) (fill_tile W (rows im) (cols im) num) s in
  load s1 Buf_im = load s Buf_im /\
  load s1 Buf_outim = load s Buf_outim /\
  load s1 Buf_output_block = load s Buf_output_block /\
  zlen (load s1 Buf_input_block) = ibs * ibs * BS /\
  ztake (ibs * ibs * pn num) (load s1 Buf_input_block) = batch_input W im num.
Proof.
  intros Hnum Hl Hlen s1.
  destruct pass_geometry as (_ & Eibs & _).
  destruct (processNum_bounds num Hnum) as (Hpn & Hend & _).
  assert (Hplane : 0 < ibs * ibs) by nia.
  pose (P := fun (i : Z) (s' : Store) =>
    load s' Buf_im = load s Buf_im /\
    load s' Buf_outim = load s Buf_outim /\
    load s' Buf_output_block = load s Buf_output_block /\
    zlen (load s' Buf_input_block) = ibs * ibs * BS /\
    forall n q, 0 <= n < i -> 0 <= q < ibs * ibs ->
      zth (load s' Buf_input_block) (ibs * ibs * n + q)
      = zth (tile_input W im (num + n)) q).
  assert (HP : P (Z.max 0 (pn num)) s1).
  { apply for_loop_ind.
    - unfold P. repeat split; auto. intros; lia.
    - intros i s' Hi (H1 & H2 & H3 & H4 & H5).
      destruct (fill_tile_eq num i s' ltac:(lia) ltac:(congruence)) as [-> Hti].
      unfold P.
      rewrite !load_memcpy_other by discriminate.
      rewrite (load_memcpy_same s' (mkptr Buf_input_block (ibs * ibs * i))).
      cbn [p_buf p_off]. rewrite zlen_memcpy_list.
      repeat split; auto.
      intros n q Hn Hq.
      rewrite zth_memcpy_list by nia.
      destruct (Z.leb_spec (ibs * ibs * i) (ibs * ibs * n + q));
        destruct (Z.ltb_spec (ibs * ibs * n + q) (ibs * ibs * i + ibs * ibs));
        cbn [andb].
      + assert (n = i) by nia. subst n. f_equal. lia.
      + nia.
      + apply H5; [nia | lia].
      + apply H5; [nia | lia]. }
  replace (Z.max 0 (pn num)) with (pn num) in HP by lia.
  destruct HP as (H1 & H2 & H3 & H4 & H5).
  repeat split; auto.
  apply zth_ext.
  - rewrite zlen_ztake by nia. unfold batch_input. rewrite zlen_ztab; nia.
  - intros p Hp. rewrite zlen_ztake in Hp by nia.
    rewrite zth_ztake by lia. unfold batch_input. rewrite zth_ztab by lia.
    pose proof (Z.div_mod p (ibs * ibs) ltac:(lia)) as Ep.
    pose proof (Z.mod_pos_bound p (ibs * ibs) Hplane).
    assert (0 <= p / (ibs * ibs) < pn num).
    { split; [apply Z.div_pos; lia | apply Z.div_lt_upper_bound; nia]. }
    rewrite Ep at 1. apply H5; lia.
Qed.

(** The cells a row of a core is copied to are the cells of that row. *)
Lemma row_range (k i y x : Z) :
  0 <= k < BN -> 0 <= i < CS -> 0 <= y < rows im -> 0 <= x < cols im ->
  let off := stitch_offset W (cols im) (cols im) k i in
  let p := y * cols im + x in
  if (off <=? p) && (p <? off + CS)
  then tile_of W (cols im) y x = k /\ y mod CS = i /\ p - off = x mod CS
  else ~ (tile_of W (cols im) y x = k /\ y mod CS = i).
Proof.
  intros Hk Hi Hy Hx off p.
  destruct pass_geometry as (Eos & _ & _ & _ & EW & EH & HWN & HHN & EBN).
  rewrite EBN in Hk.
  destruct (tile_index_bounds _ _ _ Hk HWN HHN) as [Hwn Hhn].
  pose proof (Z.quot_rem' k WN) as Ek.
  destruct (tile_of_pixel CS WN HN y x HCS ltac:(lia) ltac:(lia)) as (Hto & Er & Eq).
  pose proof (Z.div_mod y CS ltac:(lia)) as Ey.
  pose proof (Z.mod_pos_bound y CS HCS) as Hym.
  pose proof (Z.div_mod x CS ltac:(lia)) as Ex.
  pose proof (Z.mod_pos_bound x CS HCS) as Hxm.
  subst off p.
  unfold tile_of, stitch_offset, tile_h, tile_w, tile_hn, tile_wn.
  set (wnv := WN) in *. set (hnv := HN) in *.
  rewrite Eos.
  set (hn := Z.quot k wnv) in *. set (wn := Z.rem k wnv) in *.
  destruct (Z.leb_spec ((hn * CS + i) * cols im + wn * CS) (y * cols im + x));
    destruct (Z.ltb_spec (y * cols im + x) ((hn * CS + i) * cols im + wn * CS + CS));
    cbn [andb].
  - assert (Hyy : y = hn * CS + i) by nia.
    assert (E1 : y / CS = hn) by (symmetry; apply in_band_div; lia).
    assert (E2 : x / CS = wn) by (symmetry; apply in_band_div; nia).
    rewrite E1, E2. split; [lia|]. split; [|nia].
    rewrite Hyy, Z.add_comm, Z.mod_add by lia. apply Z.mod_small; lia.
  - intros [Et Em]. rewrite Et in Er, Eq. fold wn in Er. fold hn in Eq. nia.
  - intros [Et Em]. rewrite Et in Er, Eq. fold wn in Er. fold hn in Eq. nia.
  - intros [Et Em]. rewrite Et in Er, Eq. fold wn in Er. fold hn in Eq. nia.
Qed.

Lemma stitch_tile_eq (num n : Z) (s : Store) :
  stitch_tile W (cols im) (cols im) num n s
  = for_loop CS
      (fun i s0 =>
         memcpy s0 (ptr_add imptr (stitch_offset W (cols im) (cols im) (num + n) i))
           (load s0 Buf_output_block)
           (obs * obs * n
            + (i + (inner_padding W + outer_padding W - layer_num)) * obs
            + (inner_padding W + outer_padding W - layer_num))
           CS) s.
Proof. reflexivity. Qed.

(** A turn of the stitching loop writes the core of its tile and nothing
    else. *)
Lemma stitch_tile_spec (num n : Z) (s : Store) :
  0 <= num + n < BN ->
  zlen (load s Buf_outim) = rows im * cols im ->
  let s' := stitch_tile W (cols im) (cols im) num n s in
  load s' Buf_im = load s Buf_im /\
  load s' Buf_input_block = load s Buf_input_block /\
  load s' Buf_output_block = load s Buf_output_block /\
  zlen (load s' Buf_outim) = rows im * cols im /\
  forall y x, 0 <= y < rows im -> 0 <= x < cols im ->
    zth (load s' Buf_outim) (y * cols im + x)
    = if tile_of W (cols im) y x =? num + n
      then zth (load s Buf_output_block)
             (obs * obs * n + (y mod CS + 1) * obs + 1 + x mod CS)
      else zth (load s Buf_outim) (y * cols im + x).
Proof.
  intros Hk Hlen s'. subst s'. rewrite stitch_tile_eq.
  destruct pass_geometry as (_ & _ & _ & Eop & _).
  rewrite Eop.
  pose (P := fun (i : Z) (s' : Store) =>
    load s' Buf_im = load s Buf_im /\
    load s' Buf_input_block = load s Buf_input_block /\
    load s' Buf_output_block = load s Buf_output_block /\
    zlen (load s' Buf_outim) = rows im * cols im /\
    forall y x, 0 <= y < rows im -> 0 <= x < cols im ->
      zth (load s' Buf_outim) (y * cols im + x)
      = if (tile_of W (cols im) y x =? num + n) && (y mod CS <? i)
        then zth (load s Buf_output_block)
               (obs * obs * n + (y mod CS + 1) * obs + 1 + x mod CS)
        else zth (load s Buf_outim) (y * cols im + x)).
  match goal with |- context [for_loop CS ?body s] =>
    assert (HP : P (Z.max 0 CS) (for_loop CS body s)) end.
  { apply for_loop_ind.
    - unfold P. repeat split; auto. intros y x Hy Hx.
      pose proof (Z.mod_pos_bound y CS HCS).
      destruct (Z.ltb_spec (y mod CS) 0); [lia|]. now rewrite andb_false_r.
    - intros i s' Hi (H1 & H2 & H3 & H4 & H5). unfold P.
      rewrite !load_memcpy_other by discriminate.
      rewrite (load_memcpy_same s'
                 (ptr_add imptr (stitch_offset W (cols im) (cols im) (num + n) i))).
      cbn [p_buf p_off ptr_add imptr]. rewrite zlen_memcpy_list, Z.add_0_l.
      repeat split; auto.
      intros y x Hy Hx.
      rewrite zth_memcpy_list by (rewrite H4; apply cell_in_range; assumption).
      pose proof (row_range (num + n) i y x Hk Hi Hy Hx) as R. cbv zeta in R.
      pose proof (Z.mod_pos_bound y CS HCS) as Hym.
      destruct (_ && _) in R |- *.
      + destruct R as (Et & Em & Ep). rewrite Et, Z.eqb_refl, Em.
        destruct (Z.ltb_spec i (i + 1)); [|lia]. cbn [andb].
        rewrite H3. f_equal. lia.
      + rewrite H5 by assumption.
        destruct (Z.eqb_spec (tile_of W (cols im) y x) (num + n)) as [Et | Et];
          cbn [andb]; [|reflexivity].
        destruct (Z.ltb_spec (y mod CS) i), (Z.ltb_spec (y mod CS) (i + 1));
          try reflexivity; lia. }
  replace (Z.max 0 CS) with CS in HP by lia.
  destruct HP as (H1 & H2 & H3 & H4 & H5).
  repeat split; auto.
  intros y x Hy Hx. rewrite H5 by assumption.
  pose proof (Z.mod_pos_bound y CS HCS).
  destruct (Z.ltb_spec (y mod CS) CS); [|lia]. now rewrite andb_true_r.
Qed.

(** The stitching loop writes the cores of the tiles of the batch. *)
Lemma stitch_loop_spec (num : Z) (s : Store) :
  0 <= num < BN ->
  zlen (load s Buf_outim) = rows im * cols im ->
  let s' := for_loop (pn num) (stitch_tile W (cols im) (cols im) num) s in
  load s' Buf_im = load s Buf_im /\
  load s' Buf_input_block = load s Buf_input_block /\
  load s' Buf_output_block = load s Buf_output_block /\
  zlen (load s' Buf_outim) = rows im * cols im /\
  forall y x, 0 <= y < rows im -> 0 <= x < cols im ->
    zth (load s' Buf_outim) (y * cols im + x)
    = if (num <=? tile_of W (cols im) y x) && (tile_of W (cols im) y x <? num + pn num)
      then zth (load s Buf_output_block)
             (obs * obs * (tile_of W (cols im) y x - num)
              + (y mod CS + 1) * obs + 1 + x mod CS)
      else zth (load s Buf_outim) (y * cols im + x).
Proof.
  intros Hnum Hlen s'. subst s'.
  destruct (processNum_bounds num Hnum) as (Hpn & Hend & _).
  pose (Q := fun (n : Z) (s' : Store) =>
    load s' Buf_im = load s Buf_im /\
    load s' Buf_input_block = load s Buf_input_block /\
    load s' Buf_output_block = load s Buf_output_block /\
    zlen (load s' Buf_outim) = rows im * cols im /\
    forall y x, 0 <= y < rows im -> 0 <= x < cols im ->
      zth (load s' Buf_outim) (y * cols im + x)
      = if (num <=? tile_of W (cols im) y x) && (tile_of W (cols im) y x <? num + n)
        then zth (load s Buf_output_block)
               (obs * obs * (tile_of W (cols im) y x - num)
                + (y mod CS + 1) * obs + 1 + x mod CS)
        else zth (load s Buf_outim) (y * cols im + x)).
  assert (HQ : Q (Z.max 0 (pn num))
                 (for_loop (pn num) (stitch_tile W (cols im) (cols im) num) s)).
  { apply for_loop_ind.
    - unfold Q. repeat split; auto. intros y x Hy Hx.
      destruct (Z.leb_spec num (tile_of W (cols im) y x)),
               (Z.ltb_spec (tile_of W (cols im) y x) (num + 0));
        cbn [andb]; try reflexivity; lia.
    - intros n s' Hn (H1 & H2 & H3 & H4 & H5).
      destruct (stitch_tile_spec num n s' ltac:(lia) H4) as (G1 & G2 & G3 & G4 & G5).
      unfold Q. repeat split; try congruence.
      intros y x Hy Hx. rewrite G5, H5, H3 by assumption.
      set (t := tile_of W (cols im) y x).
      destruct (Z.eqb_spec t (num + n)) as [Et | Et].
      + destruct (Z.leb_spec num t), (Z.ltb_spec t (num + (n + 1)));
          cbn [andb]; try lia.
        f_equal. f_equal. f_equal. f_equal. lia.
      + destruct (Z.leb_spec num t), (Z.ltb_spec t (num + n)),
                 (Z.ltb_spec t (num + (n + 1)));
          cbn [andb]; try reflexivity; lia. }
  replace (Z.max 0 (pn num)) with (pn num) in HQ by lia.
  exact HQ.
Qed.

Lemma tile_of_bounds (y x : Z) :
  0 <= y < rows im -> 0 <= x < cols im -> 0 <= tile_of W (cols im) y x < BN.
Proof.
  intros Hy Hx.
  destruct pass_geometry as (Eos & _ & _ & _ & EW & EH & HWN & HHN & EBN).
  rewrite EBN. unfold tile_of.
  apply (tile_of_pixel CS WN HN y x HCS); lia.
Qed.

Lemma core_index_bound (n y x : Z) :
  0 <= n ->
  0 <= obs * obs * n + (y mod CS + 1) * obs + 1 + x mod CS < obs * obs * (n + 1).
Proof.
  intros Hn. destruct pass_geometry as (_ & _ & Eobs & _).
  pose proof (Z.mod_pos_bound y CS HCS). pose proof (Z.mod_pos_bound x CS HCS).
  rewrite Eobs. nia.
Qed.

Lemma batch_of_tile (q n : Z) :
  0 <= n < BS -> (q * BS + n) / BS * BS = q * BS /\ (q * BS + n) mod BS = n.
Proof.
  intros Hn. rewrite Z.add_comm.
  rewrite Z.div_add, Z.mod_add, Z.div_small, Z.mod_small by lia. lia.
Qed.

(** One turn of the batch loop that does not fail. *)
Lemma batch_step (q : Z) (s : Store) (out : list float) :
  0 <= q -> q * BS < BN -> pass_inv W net im q s ->
  net (pn (q * BS)) (batch_input W im (q * BS)) = Some out ->
  let s1 := for_loop (pn (q * BS)) (fill_tile W (rows im) (cols im) (q * BS)) s in
  let s2 := memcpy s1 (mkptr Buf_output_block 0) out 0 (obs * obs * pn (q * BS)) in
  let s3 := for_loop (pn (q * BS)) (stitch_tile W (cols im) (cols im) (q * BS)) s2 in
  pass_inv W net im (q + 1) s3.
Proof.
  intros Hq Hlt (I1 & I2 & I3 & I4 & I5 & I6) Hout s1 s2 s3.
  assert (Hnum : 0 <= q * BS < BN) by nia.
  destruct (processNum_bounds _ Hnum) as (Hpn & Hend & Hlast).
  destruct (fill_loop_spec (q * BS) s Hnum I1 I3) as (F1 & F2 & F3 & F4 & _).
  fold s1 in F1, F2, F3, F4.
  assert (C1 : load s2 Buf_im = load s1 Buf_im)
    by (apply load_memcpy_other; discriminate).
  assert (C2 : load s2 Buf_outim = load s1 Buf_outim)
    by (apply load_memcpy_other; discriminate).
  assert (C3 : load s2 Buf_input_block = load s1 Buf_input_block)
    by (apply load_memcpy_other; discriminate).
  assert (C4 : load s2 Buf_output_block
               = memcpy_list (load s1 Buf_output_block) 0 out 0 (obs * obs * pn (q * BS)))
    by (apply (load_memcpy_same s1 (mkptr Buf_output_block 0))).
  destruct (stitch_loop_spec (q * BS) s2 Hnum ltac:(congruence))
    as (S1 & S2 & S3 & S4 & S5).
  fold s3 in S1, S2, S3, S4, S5.
  unfold pass_inv. split; [congruence|]. split; [assumption|].
  split; [congruence|]. split.
  { rewrite S3, C4, zlen_memcpy_list. congruence. }
  split.
  { intros q' Hq' Hlt'. destruct (Z.eq_dec q' q) as [-> | Hne].
    - unfold batch_fails. rewrite Hout. discriminate.
    - apply I5; lia. }
  intros y x Hy Hx Ht.
  destruct (tile_of_bounds y x Hy Hx) as [Ht0 HtB].
  set (t := tile_of W (cols im) y x) in *.
  rewrite S5 by assumption. fold t.
  destruct (Z.leb_spec (q * BS) t), (Z.ltb_spec t (q * BS + pn (q * BS))); cbn [andb].
  - assert (Hn : 0 <= t - q * BS < BS) by lia.
    rewrite C4.
    pose proof (core_index_bound (t - q * BS) y x ltac:(lia)) as Hidx.
    rewrite zth_memcpy_list by (rewrite F3, I4; nia).
    match goal with |- context [(0 <=? ?a) && (?a <? ?b)] =>
      destruct (Z.leb_spec 0 a); [|lia]; destruct (Z.ltb_spec a b); [|nia] end.
    cbn [andb]. unfold core_value.
    destruct (batch_of_tile q (t - q * BS) Hn) as [Ed Em].
    replace (q * BS + (t - q * BS)) with t in Ed, Em by lia.
    rewrite Ed, Em, Hout.
    destruct pass_geometry as (_ & _ & _ & Eop & _). rewrite Eop.
    f_equal. lia.
  - exfalso. destruct (Z_lt_le_dec (pn (q * BS)) BS) as [Hs | Hs]; [|nia].
    specialize (Hlast Hs). lia.
  - rewrite C2, F2. apply I6; assumption.
  - lia.
Qed.

(** The batch loop from batch [q] on: the canvas is never written; the loop
    ends well exactly when no batch fails, and then [outim] holds the cores
    the network returned for the tiles of the canvas. *)
Lemma batch_loop_spec (fuel : nat) :
  forall q s e s',
    0 <= q -> pass_inv W net im q s ->
    batch_loop W net (rows im) (cols im) (cols im) fuel (q * BS) s = Some (e, s') ->
    load s' Buf_im = data im /\
    zlen (load s' Buf_input_block) = ibs * ibs * BS /\
    zlen (load s' Buf_output_block) = obs * obs * BS /\
    ((e = eWaifu2xError_OK /\
      (forall q', 0 <= q' -> q' * BS < BN -> ~ batch_fails W net im (q' * BS)) /\
      zlen (load s' Buf_outim) = rows im * cols im /\
      (forall y x, 0 <= y < rows im -> 0 <= x < cols im ->
         zth (load s' Buf_outim) (y * cols im + x)
         = core_value W net im (tile_of W (cols im) y x) (y mod CS) (x mod CS))) \/
     (e = eWaifu2xError_FailedProcessCaffe /\
      exists q', 0 <= q' /\ q' * BS < BN /\ batch_fails W net im (q' * BS))).
Proof.
  induction fuel as [|fuel IH]; intros q s e s' Hq Hinv; rewrite batch_loop_eq;
    destruct (Z.ltb_spec (q * BS) BN) as [Hlt | Hge]; try discriminate.
  - intros E. injection E as <- <-.
    destruct Hinv as (I1 & I2 & I3 & I4 & I5 & I6).
    repeat split; auto. left. repeat split; auto.
    + intros q' Hq' Hlt'. apply I5; [nia | assumption].
    + intros y x Hy Hx. apply I6; try assumption.
      pose proof (tile_of_bounds y x Hy Hx). lia.
  - cbv zeta.
    assert (Hnum : 0 <= q * BS < BN) by nia.
    pose proof Hinv as (I1 & I2 & I3 & I4 & I5 & I6).
    destruct (fill_loop_spec (q * BS) s Hnum I1 I3) as (F1 & F2 & F3 & F4 & F5).
    rewrite F5.
    destruct (net (pn (q * BS)) (batch_input W im (q * BS))) as [out|] eqn:Hout.
    + replace (q * BS + BS) with ((q + 1) * BS) by lia.
      apply IH; [lia|]. apply batch_step; assumption.
    + intros E. injection E as <- <-.
      split; [congruence|]. split; [assumption|]. split; [congruence|].
      right. split; [reflexivity|]. exists q. auto.
  - intros E. injection E as <- <-.
    destruct Hinv as (I1 & I2 & I3 & I4 & I5 & I6).
    repeat split; auto. left. repeat split; auto.
    + intros q' Hq' Hlt'. apply I5; [nia | assumption].
    + intros y x Hy Hx. apply I6; try assumption.
      pose proof (tile_of_bounds y x Hy Hx). lia.
Qed.

Lemma pass_store_inv (junk : Z -> float) : pass_inv W net im 0 (pass_store W im junk).
Proof.
  destruct Hcfg as (_ & Li & Lo). destruct Hwf as (Hr & Hc & _).
  unfold pass_inv, pass_store. cbn [load st_im st_outim st_input_block st_output_block].
  repeat split; auto.
  - apply zlen_ztab. nia.
  - intros; lia.
  - intros y x Hy Hx Ht. pose proof (tile_of_bounds y x Hy Hx). lia.
Qed.

(** A pass over a padded canvas: it returns; the canvas it was given is
    never written; it ends well exactly when no batch fails, and then the
    result is the canvas of the cores the network returned. *)
Lemma pass_result (junk : Z -> float) :
  exists e s,
    ReconstructImage_run W net im junk = Some (e, s) /\
    load s Buf_im = data im /\
    configured (with_buffers W s) /\
    ((e = eWaifu2xError_OK /\
      (forall q, 0 <= q -> q * BS < BN -> ~ batch_fails W net im (q * BS)) /\
      mkMat (rows im) (cols im) (load s Buf_outim) = reconstructed W net im) \/
     (e = eWaifu2xError_FailedProcessCaffe /\
      exists q, 0 <= q /\ q * BS < BN /\ batch_fails W net im (q * BS))).
Proof.
  destruct (ReconstructImage_run_returns W net im junk Hbs) as (e & s & E & _).
  exists e, s. split; [exact E|].
  unfold ReconstructImage_run, step1 in E.
  change 0 with (0 * BS) in E at 1.
  destruct (batch_loop_spec _ 0 _ _ _ ltac:(lia) (pass_store_inv junk) E)
    as (H1 & H2 & H3 & H4).
  split; [exact H1|]. split.
  { destruct Hcfg as (Hs & _). unfold configured, sized in *.
    cbn [with_buffers inner_padding outer_padding output_size crop_size
         input_block_size output_block_size input_block output_block batch_size].
    cbn [load] in H2, H3. auto. }
  destruct H4 as [(-> & Hall & Hlen & Hpix) | (-> & Hex)]; [left | right; auto].
  split; [reflexivity|]. split; [exact Hall|].
  destruct Hwf as (Hr & Hc & _).
  apply Mat_ext; cbn [rows cols]; auto.
  - unfold Mat_wf. cbn [rows cols data]. auto.
  - apply Mat_tab_wf; assumption.
  - intros y x Hy Hx. unfold reconstructed. rewrite Mat_at_tab by assumption.
    unfold Mat_at, step1. cbn [data cols]. apply Hpix; assumption.
Qed.

End Pass.

(** ** The cells the stitching loop writes *)

(** The tile whose core holds a pixel is the one [tile_of] names. *)
Lemma in_core_tile_of (W : Waifu2x) (Width Height k y x : Z) :
  output_size W = crop_size W -> 0 < crop_size W ->
  0 <= Width -> 0 <= Height ->
  Z.rem Width (crop_size W) = 0 -> Z.rem Height (crop_size W) = 0 ->
  0 <= k < block_count W Height Width -> 0 <= y < Height -> 0 <= x < Width ->
  in_core W Width k y x = (tile_of W Width y x =? k) /\
  (in_core W Width k y x = true ->
   y - tile_h W (Z.quot Width (output_size W)) k = y mod crop_size W /\
   x - tile_w W (Z.quot Width (output_size W)) k = x mod crop_size W).
Proof.
  intros Eos HCS HW0 HH0 HW HH Hk Hy Hx.
  unfold block_count in Hk.
  unfold in_core, tile_of, tile_w, tile_h, tile_wn, tile_hn. rewrite Eos in *.
  set (CS := crop_size W) in *.
  destruct (rem_zero_multiple _ _ HW0 HCS HW) as [EW HWN].
  destruct (rem_zero_multiple _ _ HH0 HCS HH) as [EH HHN].
  set (WN := Z.quot Width CS) in *. set (HN := Z.quot Height CS) in *.
  destruct (tile_index_bounds _ _ _ Hk HWN HHN) as [Hwn Hhn].
  destruct (tile_of_pixel CS WN HN y x HCS ltac:(lia) ltac:(lia)) as (Ht & Er & Eq).
  cbv zeta in Ht, Er, Eq.
  pose proof (Z.quot_rem' k WN) as Ek.
  pose proof (Z.div_mod y CS ltac:(lia)) as Ey.
  pose proof (Z.mod_pos_bound y CS HCS) as Hym.
  pose proof (Z.div_mod x CS ltac:(lia)) as Ex.
  pose proof (Z.mod_pos_bound x CS HCS) as Hxm.
  set (t := y / CS * WN + x / CS) in *.
  destruct (Z.eqb_spec t k) as [E | NE].
  - subst k. rewrite Er, Eq. split.
    + rewrite !andb_true_iff, !Z.leb_le, !Z.ltb_lt. nia.
    + intros _. nia.
  - split.
    + apply not_true_is_false. intros Hin.
      rewrite !andb_true_iff, !Z.leb_le, !Z.ltb_lt in Hin.
      assert (E1 : Z.quot k WN = y / CS) by (apply in_band_div; lia).
      assert (E2 : Z.rem k WN = x / CS) by (apply in_band_div; lia).
      apply NE. unfold t. rewrite <- E1, <- E2. lia.
    + intros Hin. exfalso.
      rewrite !andb_true_iff, !Z.leb_le, !Z.ltb_lt in Hin.
      assert (E1 : Z.quot k WN = y / CS) by (apply in_band_div; lia).
      assert (E2 : Z.rem k WN = x / CS) by (apply in_band_div; lia).
      apply NE. unfold t. rewrite <- E1, <- E2. lia.
Qed.

(** A cell index of a canvas names one row and one column. *)
Lemma cell_unique (Width y x y' x' : Z) :
  0 <= x < Width -> 0 <= x' < Width ->
  y * Width + x = y' * Width + x' -> y = y' /\ x = x'.
Proof. intros Hx Hx' E. assert (y = y') by nia. split; [assumption | nia]. Qed.

(** C2. On a canvas whose sides are multiples of [output_size] the
    stitching loop writes a partition of the canvas.  The sample of row
    [i] and column [j] of the core of tile [k] is copied to the cell of row
    [hn * output_size + i] and column [wn * output_size + j], with
    [wn = k % WidthNum] and [hn = k / WidthNum], which lies in the canvas;
    no two of these copies, of one tile or of two, go to the same cell;
    every cell of the canvas is the destination of one of them; and a turn
    of the stitching loop changes the cells of the core of its tile, each
    to the sample of the network's result that belongs there, and leaves
    every other cell of the canvas as it was. *)
Theorem tile_cores_partition
    Mode NL SR CS BS junk W (Width Height : Z) :
  init Waifu2x_new Mode NL SR CS BS eWaifu2xError_OK junk = (eWaifu2xError_OK, W) ->
  0 < CS -> 0 <= Width -> 0 <= Height ->
  Z.rem Width (output_size W) = 0 ->
  Z.rem Height (output_size W) = 0 ->
  let BlockNum := block_count W Height Width in
  let WidthNum := Z.quot Width (output_size W) in
  (forall k i j, 0 <= k < BlockNum -> 0 <= i < crop_size W -> 0 <= j < crop_size W ->
     let y := Z.quot k WidthNum * output_size W + i in
     let x := Z.rem k WidthNum * output_size W + j in
     stitch_offset W Width Width k i + j = y * Width + x /\
     0 <= y < Height /\ 0 <= x < Width /\ in_core W Width k y x = true) /\
  (forall k i j k' i' j',
     0 <= k < BlockNum -> 0 <= i < crop_size W -> 0 <= j < crop_size W ->
     0 <= k' < BlockNum -> 0 <= i' < crop_size W -> 0 <= j' < crop_size W ->
     stitch_offset W Width Width k i + j = stitch_offset W Width Width k' i' + j' ->
     k = k' /\ i = i' /\ j = j') /\
  (forall y x, 0 <= y < Height -> 0 <= x < Width ->
     exists k i j,
       0 <= k < BlockNum /\ 0 <= i < crop_size W /\ 0 <= j < crop_size W /\
       stitch_offset W Width Width k i + j = y * Width + x /\
       in_core W Width k y x = true /\
       forall k', 0 <= k' < BlockNum -> in_core W Width k' y x = true -> k' = k) /\
  (forall num n s y x,
     0 <= num + n < BlockNum -> zlen (load s Buf_outim) = Height * Width ->
     0 <= y < Height -> 0 <= x < Width ->
     zth (load (stitch_tile W Width Width num n s) Buf_outim) (y * Width + x)
     = if in_core W Width (num + n) y x
       then zth (load s Buf_output_block)
              (output_block_size W * output_block_size W * n
               + (y - tile_h W WidthNum (num + n) + 1) * output_block_size W
               + 1 + (x - tile_w W WidthNum (num + n)))
       else zth (load s Buf_outim) (y * Width + x)).
Proof.
  intros Hinit HCS HW0 HH0 HW HH BlockNum WidthNum.
  destruct (init_room _ _ _ _ _ _ _ Hinit) as [Hroom _].
  assert (HBS : 0 <= BS) by nia.
  destruct (init_configured _ _ _ _ _ _ _ Hinit HCS HBS) as (Hcfg & Ecs & _).
  pose proof Hcfg as ((_ & _ & Eos & _ & _) & _).
  assert (HCS' : 0 < crop_size W) by lia.
  assert (HWc : Z.rem Width (crop_size W) = 0) by (now rewrite <- Eos).
  assert (HHc : Z.rem Height (crop_size W) = 0) by (now rewrite <- Eos).
  destruct (rem_zero_multiple _ _ HW0 HCS' HWc) as [EW HWN].
  destruct (rem_zero_multiple _ _ HH0 HCS' HHc) as [EH HHN].
  assert (EB : BlockNum = Z.quot Width (crop_size W) * Z.quot Height (crop_size W)).
  { unfold BlockNum, block_count. now rewrite Eos. }
  assert (A : forall k i j,
    0 <= k < BlockNum -> 0 <= i < crop_size W -> 0 <= j < crop_size W ->
    stitch_offset W Width Width k i + j
    = (Z.quot k WidthNum * output_size W + i) * Width
      + (Z.rem k WidthNum * output_size W + j) /\
    0 <= Z.quot k WidthNum * output_size W + i < Height /\
    0 <= Z.rem k WidthNum * output_size W + j < Width /\
    in_core W Width k (Z.quot k WidthNum * output_size W + i)
      (Z.rem k WidthNum * output_size W + j) = true).
  { intros k i j Hk Hi Hj.
    unfold stitch_offset, in_core, tile_h, tile_w, tile_hn, tile_wn. fold WidthNum.
    unfold WidthNum. rewrite Eos. rewrite EB in Hk.
    destruct (tile_index_bounds _ _ _ Hk HWN HHN) as [Hwn Hhn].
    rewrite !andb_true_iff, !Z.leb_le, !Z.ltb_lt.
    split; [ring|]. nia. }
  assert (C : forall y x, 0 <= y < Height -> 0 <= x < Width ->
    0 <= tile_of W Width y x < BlockNum /\
    in_core W Width (tile_of W Width y x) y x = true /\
    y - tile_h W WidthNum (tile_of W Width y x) = y mod crop_size W /\
    x - tile_w W WidthNum (tile_of W Width y x) = x mod crop_size W).
  { intros y x Hy Hx.
    assert (Ht : 0 <= tile_of W Width y x < BlockNum).
    { rewrite EB. unfold tile_of. rewrite Eos.
      apply (tile_of_pixel (crop_size W) _ _ y x HCS'); lia. }
    destruct (in_core_tile_of W Width Height _ y x Eos HCS' HW0 HH0 HWc HHc Ht Hy Hx)
      as [E1 E2].
    rewrite Z.eqb_refl in E1. split; [exact Ht|]. split; [exact E1|]. exact (E2 E1). }
  split; [exact A|]. split; [|split].
  - intros k i j k' i' j' Hk Hi Hj Hk' Hi' Hj' E.
    destruct (A k i j Hk Hi Hj) as (E1 & Hy & Hx & Hin).
    destruct (A k' i' j' Hk' Hi' Hj') as (E1' & Hy' & Hx' & Hin').
    rewrite E1, E1' in E.
    destruct (cell_unique _ _ _ _ _ Hx Hx' E) as [Ey Ex].
    destruct (in_core_tile_of W Width Height k _ _ Eos HCS' HW0 HH0 HWc HHc Hk Hy Hx)
      as [T _].
    destruct (in_core_tile_of W Width Height k' _ _ Eos HCS' HW0 HH0 HWc HHc Hk' Hy' Hx')
      as [T' _].
    rewrite Hin in T. rewrite Hin' in T'.
    symmetry in T, T'. apply Z.eqb_eq in T, T'.
    rewrite <- Ey, <- Ex in T'.
    assert (Hkk : k = k') by congruence. clear T T'. subst k'.
    split; [reflexivity|]. lia.
  - intros y x Hy Hx.
    destruct (C y x Hy Hx) as (Ht & Hin & Ei & Ej).
    pose proof (Z.mod_pos_bound y (crop_size W) HCS') as Hym.
    pose proof (Z.mod_pos_bound x (crop_size W) HCS') as Hxm.
    exists (tile_of W Width y x), (y mod crop_size W), (x mod crop_size W).
    split; [exact Ht|]. split; [exact Hym|]. split; [exact Hxm|]. split.
    + unfold stitch_offset. fold WidthNum. lia.
    + split; [exact Hin|]. intros k' Hk' Hin'.
      destruct (in_core_tile_of W Width Height k' y x Eos HCS' HW0 HH0 HWc HHc Hk' Hy Hx)
        as [T _].
      rewrite Hin' in T. symmetry in T. apply Z.eqb_eq in T. now symmetry.
  - intros num n s y x Hk Hlen Hy Hx.
    set (im := mkMat Height Width (ztab (Height * Width) (fun _ => 0%Q))).
    assert (Hwf : Mat_wf im).
    { unfold Mat_wf, im. cbn [rows cols data]. rewrite zlen_ztab by nia. auto. }
    destruct (stitch_tile_spec W im Hcfg HCS' Hwf HW HH num n s Hk Hlen)
      as (_ & _ & _ & _ & S).
    specialize (S y x Hy Hx). cbn [rows cols im] in S. rewrite S.
    destruct (in_core_tile_of W Width Height (num + n) y x Eos HCS' HW0 HH0 HWc HHc Hk Hy Hx)
      as [T E].
    rewrite <- T.
    destruct (in_core W Width (num + n) y x); [|reflexivity].
    destruct (E eq_refl) as [Ei Ej]. fold WidthNum in Ei, Ej.
    rewrite Ei, Ej. f_equal; lia.
Qed.

Lemma ReconstructImage_of_run W net im junk e s :
  ReconstructImage_run W net im junk = Some (e, s) ->
  e = eWaifu2xError_OK \/ e = eWaifu2xError_FailedProcessCaffe ->
  ReconstructImage W net im junk
  = Some (e,
          mkMat (rows im) (cols im) (if is_OK e then load s Buf_outim else load s Buf_im),
          with_buffers W s).
Proof. unfold ReconstructImage. intros -> [-> | ->]; reflexivity. Qed.

(** C9. In a pass over a padded canvas the canvas handed in is never
    written: the cores are stitched into a buffer of their own, which
    becomes the canvas only when every batch has succeeded.  Every batch
    handed to the network is cut from the canvas as it was before the pass,
    so the result is, cell by cell, the core the network returned for the
    tile of that cell: it depends neither on the order of the tiles nor on
    what the fresh buffer held. *)
Theorem reconstruction_reads_original W net im junk :
  configured W -> 0 < crop_size W -> 0 < batch_size W -> Mat_wf im ->
  Z.rem (cols im) (output_size W) = 0 ->
  Z.rem (rows im) (output_size W) = 0 ->
  exists e s,
    ReconstructImage_run W net im junk = Some (e, s) /\
    load s Buf_im = data im /\
    (e = eWaifu2xError_OK <->
     forall q, 0 <= q -> q * batch_size W < block_count W (rows im) (cols im) ->
       ~ batch_fails W net im (q * batch_size W)) /\
    ReconstructImage W net im junk
    = Some (e, (if is_OK e then reconstructed W net im else im), with_buffers W s) /\
    (forall y x, 0 <= y < rows im -> 0 <= x < cols im ->
       Mat_at (reconstructed W net im) y x
       = core_value W net im (tile_of W (cols im) y x)
           (y mod crop_size W) (x mod crop_size W)) /\
    (forall junk', exists s2,
       ReconstructImage W net im junk'
       = Some (e, (if is_OK e then reconstructed W net im else im), with_buffers W s2)).
Proof.
  intros Hcfg HCS Hbs Hwf HW HH.
  assert (G : forall junk0, exists e s,
    ReconstructImage_run W net im junk0 = Some (e, s) /\
    load s Buf_im = data im /\
    (e = eWaifu2xError_OK \/ e = eWaifu2xError_FailedProcessCaffe) /\
    (e = eWaifu2xError_OK <->
     forall q, 0 <= q -> q * batch_size W < block_count W (rows im) (cols im) ->
       ~ batch_fails W net im (q * batch_size W)) /\
    ReconstructImage W net im junk0
    = Some (e, (if is_OK e then reconstructed W net im else im), with_buffers W s)).
  { intros junk0.
    destruct (pass_result W net im Hcfg HCS Hbs Hwf HW HH junk0)
      as (e & s & E & Him & _ & [(-> & Hall & Hres) | (-> & q & Hq & Hlt & Hf)]).
    - exists eWaifu2xError_OK, s. split; [exact E|]. split; [exact Him|].
      split; [auto|]. split; [split; auto|].
      rewrite (ReconstructImage_of_run _ _ _ _ _ _ E) by auto.
      cbn [is_OK]. now rewrite Hres.
    - exists eWaifu2xError_FailedProcessCaffe, s.
      split; [exact E|]. split; [exact Him|]. split; [auto|]. split.
      + split; [discriminate|]. intros Hall. exfalso. exact (Hall q Hq Hlt Hf).
      + rewrite (ReconstructImage_of_run _ _ _ _ _ _ E) by auto.
        cbn [is_OK]. now rewrite Him, Mat_eta. }
  destruct (G junk) as (e & s & E & Him & Hcode & Hiff & ER).
  exists e, s. split; [exact E|]. split; [exact Him|]. split; [exact Hiff|].
  split; [exact ER|]. split.
  - intros y x Hy Hx. unfold reconstructed. now rewrite Mat_at_tab.
  - intros junk'. destruct (G junk') as (e' & s2 & _ & _ & Hcode' & Hiff' & ER').
    exists s2. rewrite ER'.
    assert (e' = e) as ->; [|reflexivity].
    destruct Hcode as [-> | ->], Hcode' as [-> | ->]; try reflexivity.
    + exfalso. assert (H : eWaifu2xError_FailedProcessCaffe = eWaifu2xError_OK)
        by (apply Hiff', Hiff; reflexivity). discriminate H.
    + exfalso. assert (H : eWaifu2xError_FailedProcessCaffe = eWaifu2xError_OK)
        by (apply Hiff, Hiff'; reflexivity). discriminate H.
Qed.

(** ** Failure of the network *)

Lemma quiet_in (l : list Event) k e :
  Forall (fun ev => quiet_pass ev = true) l -> In (EvReconstruct k e) l ->
  e = eWaifu2xError_OK.
Proof.
  intros Hl Hin. rewrite Forall_forall in Hl. specialize (Hl _ Hin).
  cbn in Hl. now destruct e.
Qed.

Lemma quiet_after_noise W input_file :
  Forall (fun ev => quiet_pass ev = true) (after_noise W input_file).
Proof. unfold after_noise. destruct (isReconstructNoise_of _ _); repeat constructor. Qed.

Lemma quiet_poll_events c t : Forall (fun ev => quiet_pass ev = true) (poll_events c t).
Proof. destruct c; repeat constructor. Qed.

Lemma quiet_ok_passes k n : Forall (fun ev => quiet_pass ev = true) (ok_passes k n).
Proof. induction n; cbn; constructor; auto. Qed.

Lemma quiet_after_scale env W input_file c :
  Forall (fun ev => quiet_pass ev = true) (after_scale env W input_file c).
Proof.
  unfold after_scale. rewrite !Forall_app.
  auto using quiet_after_noise, quiet_poll_events, quiet_ok_passes.
Qed.

(** A pass that fails is the last event of the call and decides its result. *)
Lemma failed_pass_ends_run env W input_file output_file c r t k e :
  run_shape env W input_file output_file c r t ->
  In (EvReconstruct k e) t -> e <> eWaifu2xError_OK ->
  e = eWaifu2xError_FailedProcessCaffe /\
  r = Some eWaifu2xError_FailedProcessCaffe /\
  (exists t', t = t' ++ [EvReconstruct k e]) /\
  writes t = O /\ resizes t = [].
Proof.
  intros Sh Hin Hne. inversion Sh; subst; unlet.
  - destruct Hin.
  - destruct Hin.
  - destruct Hin.
  - destruct Hin as [Hin | []]. injection Hin as <- <-.
    repeat split. exists []. reflexivity.
  - exfalso. apply Hne. apply (quiet_in _ k e) in Hin; [assumption|].
    rewrite Forall_app. auto using quiet_after_noise, quiet_poll_events.
  - exfalso. apply Hne. apply (quiet_in _ k e) in Hin; [assumption|].
    rewrite !Forall_app.
    auto using quiet_after_noise, quiet_poll_events, quiet_ok_passes.
  - rewrite !app_assoc in Hin |- *. apply in_app_or in Hin as [Hin | Hin].
    + exfalso. apply Hne. apply (quiet_in _ k e) in Hin; [assumption|].
      rewrite !Forall_app.
      auto using quiet_after_noise, quiet_poll_events, quiet_ok_passes.
    + destruct Hin as [Hin | []]. injection Hin as <- <-.
      split; [reflexivity|]. split; [reflexivity|]. split; [eexists; reflexivity|].
      unfold writes. rewrite resizes_app, !count_app, !resizes_app.
      fold (writes (after_noise W input_file))
           (writes (poll_events c (after_noise W input_file))).
      rewrite writes_after_noise, writes_poll_events, resizes_after_noise,
        resizes_poll_events, resizes_ok_passes.
      unfold ok_passes. rewrite count_repeat. split; reflexivity.
  - exfalso. apply Hne. apply (quiet_in _ k e) in Hin; [assumption|].
    rewrite Forall_app. auto using quiet_after_scale, quiet_poll_events.
  - exfalso. apply Hne. apply (quiet_in _ k e) in Hin; [assumption|].
    rewrite !Forall_app. repeat split;
      auto using quiet_after_scale, quiet_poll_events;
      try match goal with |- context [negb ?b] => destruct (negb b) end;
      repeat constructor.
Qed.

(** C7. If the forward pass throws on any batch of a pass over a padded
    canvas, [ReconstructImage] returns [eWaifu2xError_FailedProcessCaffe]
    and leaves the canvas as it was; and in a call of [waifu2x] a pass that
    does not return [eWaifu2xError_OK] is the last thing that happens: the
    call returns that same code, resizes nothing and writes no file. *)
Theorem engine_failure_aborts env W input_file output_file c (kind : NetKind) (im : Mat) :
  configured W -> 0 < crop_size W -> 0 < batch_size W -> Mat_wf im ->
  Z.rem (cols im) (output_size W) = 0 ->
  Z.rem (rows im) (output_size W) = 0 ->
  (exists q, 0 <= q /\ q * batch_size W < block_count W (rows im) (cols im) /\
     batch_fails W (net_of env kind) im (q * batch_size W)) ->
  (exists W',
     ReconstructImage W (net_of env kind) im (uninit env)
     = Some (eWaifu2xError_FailedProcessCaffe, im, W') /\ config W' = config W) /\
  (forall t0, exists im' W',
     reconstruct env kind W im t0
     = (Ret (eWaifu2xError_FailedProcessCaffe, im', W'),
        t0 ++ [EvReconstruct kind eWaifu2xError_FailedProcessCaffe]) /\ im' = im) /\
  (forall r t k e,
     waifu2x env W input_file output_file c = (r, t) ->
     In (EvReconstruct k e) t -> e <> eWaifu2xError_OK ->
     e = eWaifu2xError_FailedProcessCaffe /\ r = Some e /\
     (exists t', t = t' ++ [EvReconstruct k e]) /\
     writes t = O /\ resizes t = []).
Proof.
  intros Hcfg HCS Hbs Hwf HW HH (q & Hq & Hlt & Hf).
  assert (A : exists W',
     ReconstructImage W (net_of env kind) im (uninit env)
     = Some (eWaifu2xError_FailedProcessCaffe, im, W') /\ config W' = config W).
  { destruct (pass_result W (net_of env kind) im Hcfg HCS Hbs Hwf HW HH (uninit env))
      as (e & s & E & Him & _ & [(-> & Hall & _) | (-> & _)]).
    - exfalso. exact (Hall q Hq Hlt Hf).
    - exists (with_buffers W s).
      rewrite (ReconstructImage_of_run _ _ _ _ _ _ E) by auto.
      cbn [is_OK]. rewrite Him, Mat_eta. split; reflexivity. }
  split; [exact A|]. split.
  - intros t0. destruct A as (W' & E & _). exists im, W'.
    unfold reconstruct. rewrite E. auto.
  - intros r t k e E Hin Hne.
    pose proof (waifu2x_shape _ _ _ _ _ _ _ E) as Sh.
    destruct (failed_pass_ends_run _ _ _ _ _ _ _ _ _ Sh Hin Hne) as (-> & -> & H3 & H4 & H5).
    auto.
Qed.

(** ** The removal of the alpha weighting *)

(** C6 (amended). The step that takes the alpha weighting out of the colour
    planes computes [(c - 1) * (1 / a) + 1] for every sample [c] of the
    three planes and the alpha sample [a] at the same place, with nothing
    in front of the division: for every [a] other than 0 the result is the
    quotient [(c - 1) / a + 1].  It undoes the weighting of [LoadImage], and
    it changes nothing where [a] is 1. *)
Theorem alpha_division_unguarded (c a : Q) (p0 p1 p2 alpha : Mat) :
  ~ (a == 0)%Q ->
  (unpremultiply c a == (c - 1) / a + 1)%Q /\
  (unpremultiply (premultiply c a) a == c)%Q /\
  (unpremultiply c 1 == c)%Q /\
  remove_alpha [p0; p1; p2] alpha
  = [Mat_map2 unpremultiply p0 alpha; Mat_map2 unpremultiply p1 alpha;
     Mat_map2 unpremultiply p2 alpha; alpha].
Proof.
  intros Ha. unfold unpremultiply, premultiply.
  split; [field; exact Ha|]. split; [field; exact Ha|]. split; [field|].
  reflexivity.
Qed.

(** C6, as stated, fails: the values of the step are not bounded for small
    alpha, so no threshold guards the division; at [c = 0] and
    [a = 1/1000] the step gives [-999]. *)
Lemma alpha_division_has_no_guard :
  ~ near_zero_guarded unpremultiply /\ (unpremultiply 0 (1 # 1000) == - (999 # 1))%Q.
Proof.
  split; [|reflexivity].
  intros (eps & B & Heps & H).
  set (D := (Qabs B + 2 + / eps)%Q).
  pose proof (Qabs_nonneg B) as HB.
  pose proof (Qinv_lt_0_compat eps Heps) as Hie.
  assert (HD : (0 < D)%Q) by (unfold D; lra).
  assert (Ha : (0 < / D < eps)%Q).
  { split; [apply Qinv_lt_0_compat; exact HD|].
    apply Qlt_shift_inv_r; [exact HD|].
    unfold D. setoid_replace (eps * (Qabs B + 2 + / eps))%Q
      with (eps * (Qabs B + 2) + 1)%Q by (field; lra).
    assert (0 < eps * (Qabs B + 2))%Q by (apply Qmult_lt_0_compat; lra).
    lra. }
  specialize (H 0%Q (/ D)%Q ltac:(lra) Ha).
  assert (E : (unpremultiply 0 (/ D) == 1 - D)%Q).
  { unfold unpremultiply. field. lra. }
  rewrite E in H.
  pose proof (Qle_Qabs (- (1 - D))) as H1. rewrite Qabs_opp in H1.
  pose proof (Qle_Qabs B) as H2.
  unfold D in H, H1. lra.
Qed.

(** ** The small instance at work *)

(** With the network that hands back the middle of every tile, a pass over
    the padded sample returns the canvas it was given. *)
Example crop_engine_pass_is_identity :
  match ReconstructImage (sample_W "scale" 2) (crop_engine 2) sample_canvas
          (fun _ => 0%Q) with
  | Some (e, im', _) => e = eWaifu2xError_OK /\ im' = sample_canvas
  | None => False
  end.
Proof. vm_compute. split; reflexivity. Qed.

Example crop_engine_pass_is_reconstructed :
  reconstructed (sample_W "scale" 2) (crop_engine 2) sample_canvas = sample_canvas.
Proof. vm_compute. reflexivity. Qed.

Example sample_canvas_is_padded :
  data sample_canvas
  = map inject_Z [10; 20; 30; 30; 40; 50; 60; 60; 70; 80; 90; 90; 70; 80; 90; 90].
Proof. vm_compute. reflexivity. Qed.

Example ceil_log2_values :
  map (fun r => ceil_log2 (sample_env failing_engine failing_engine) (Fin r))
    [3; 2; 1; 1 # 2; 1 # 4; 3 # 8; 5 # 2; 3 # 2; 4; 5; 9]%Q
  = [2; 1; 0; -1; -2; -1; 2; 1; 2; 3; 4].
Proof. vm_compute. reflexivity. Qed.

(** The products and quotients of lines 810 and 877 are rounded: 1.2 is the
    [double] next to 6/5, half of it times 200 is 120, and times 10 is 6. *)
Example shrink_size_values :
  let r := round_double (6 # 5) in
  let f := ddiv r (pow2 (of_int 1)) in
  r = Fin (5404319552844595 # 4503599627370496) /\
  f = Fin (5404319552844595 # 9007199254740992) /\
  shrink_size (mkSize 200 10) f = mkSize 120 6 /\
  shrink_size (mkSize 100 5) r = mkSize 120 6 /\
  pow2 (of_int 1024) = Inf false /\
  ddiv r (pow2 (of_int 1024)) = Fin 0 /\
  shrink_size (mkSize 200 10) (Fin 0) = mkSize 0 0.
Proof. vm_compute. repeat split. Qed.

Example isJpeg_values :
  map isJpeg_of ["a.jpg"; "dir.x/a.JPEG"; "a.png"; "a.jpg/b"; "jpg"; "a.b.jPg"]%string
  = [true; true; false; false; false; true].
Proof. vm_compute. reflexivity. Qed.

(** ** The properties on the small instance *)

Lemma sample_W_init Mode SR :
  (0 < SR)%Q ->
  init Waifu2x_new Mode 1 (Fin SR) 2 2 eWaifu2xError_OK (fun _ => 0%Q)
  = (eWaifu2xError_OK, sample_W Mode SR).
Proof.
  intros H. unfold sample_W, init. cbn [is_inited Waifu2x_new dleb].
  assert (Qle_bool SR 0 = false) as ->; [|reflexivity].
  destruct (Qle_bool SR 0) eqn:E; [|reflexivity].
  apply Qle_bool_iff in E. exfalso. apply (Qlt_irrefl 0). eapply Qlt_le_trans; eassumption.
Defined.

Lemma sample_W_configured Mode SR : (0 < SR)%Q -> configured (sample_W Mode SR).
Proof.
  intros H.
  exact (proj1 (init_configured _ _ _ _ _ _ _ (sample_W_init Mode SR H)
                  ltac:(lia) ltac:(lia))).
Defined.

Lemma sample_canvas_wf : Mat_wf sample_canvas.
Proof. unfold Mat_wf. vm_compute. repeat split; discriminate. Defined.

Lemma crop_engine_total CS : engine_total (crop_engine CS).
Proof. intros n b. discriminate. Defined.

Lemma context_window_clamped_witness :
  exists cw,
    tile_window (sample_W "scale" 2) (cols sample_canvas) (rows sample_canvas) 3 = Some cw /\
    cw_left cw + cw_width cw + cw_right cw = 18 /\
    cw_top cw + cw_height cw + cw_bottom cw = 18.
Proof.
  destruct (context_window_clamped "scale" 1 (Fin 2) 2 2 (fun _ => 0%Q)
              (sample_W "scale" 2) sample_canvas 3)
    as (cw & H1 & _ & _ & _ & H2 & H3 & _).
  - apply sample_W_init. reflexivity.
  - lia.
  - exact sample_canvas_wf.
  - reflexivity.
  - reflexivity.
  - vm_compute. split; [discriminate | reflexivity].
  - exists cw. auto.
Defined.

Lemma tile_cores_partition_witness :
  exists k i j,
    0 <= k < 4 /\ 0 <= i < 2 /\ 0 <= j < 2 /\
    stitch_offset (sample_W "scale" 2) 4 4 k i + j = 3 * 4 + 2 /\
    in_core (sample_W "scale" 2) 4 k 3 2 = true /\
    forall k', 0 <= k' < 4 -> in_core (sample_W "scale" 2) 4 k' 3 2 = true -> k' = k.
Proof.
  destruct (tile_cores_partition "scale" 1 (Fin 2) 2 2 (fun _ => 0%Q)
              (sample_W "scale" 2) 4 4) as (_ & _ & H & _).
  - apply sample_W_init. reflexivity.
  - lia.
  - lia.
  - lia.
  - reflexivity.
  - reflexivity.
  - exact (H 3 2 ltac:(lia) ltac:(lia)).
Defined.

Lemma padding_round_trip_witness :
  crop_padding (PaddingImage (sample_W "scale" 2) sample_plane) (Mat_size sample_plane)
  = sample_plane.
Proof.
  apply (padding_round_trip (sample_W "scale" 2) sample_plane).
  - reflexivity.
  - unfold Mat_wf. vm_compute. repeat split; discriminate.
  - reflexivity.
  - reflexivity.
Defined.


Lemma cancellation_polls_witness :
  (polls [EvCancelPoll false;
          EvReconstruct NetScale eWaifu2xError_OK;
          EvReconstruct NetScale eWaifu2xError_OK;
          EvCancelPoll true] <= 2)%nat.
Proof.
  refine (proj1 (cancellation_polls (sample_env (crop_engine 2) (crop_engine 2))
                   (sample_W "scale" 4) "in.png" "out.png" (Some signal_after_first_pass)
                   (Some eWaifu2xError_Cancel) _ _)).
  vm_compute. reflexivity.
Defined.

Lemma alpha_division_unguarded_witness :
  ~ (1 # 2 == 0)%Q /\ (unpremultiply (1 # 4) (1 # 2) == ((1 # 4) - 1) / (1 # 2) + 1)%Q.
Proof.
  assert (H : ~ (1 # 2 == 0)%Q) by discriminate.
  split; [exact H|].
  exact (proj1 (alpha_division_unguarded (1 # 4) (1 # 2) Mat_nil Mat_nil Mat_nil Mat_nil H)).
Defined.

Lemma engine_failure_aborts_witness :
  exists W',
    ReconstructImage (sample_W "noise" 1) failing_engine sample_canvas (fun _ => 0%Q)
    = Some (eWaifu2xError_FailedProcessCaffe, sample_canvas, W').
Proof.
  destruct (engine_failure_aborts (sample_env failing_engine failing_engine)
              (sample_W "noise" 1) "in.png" "out.png" None NetNoise sample_canvas)
    as ((W' & E & _) & _).
  - apply sample_W_configured. reflexivity.
  - reflexivity.
  - reflexivity.
  - exact sample_canvas_wf.
  - reflexivity.
  - reflexivity.
  - exists 0. split; [lia|]. split; reflexivity.
  - exists W'. exact E.
Defined.

Lemma reconstruction_reads_original_witness :
  exists e s,
    ReconstructImage_run (sample_W "scale" 2) (crop_engine 2) sample_canvas (fun _ => 0%Q)
    = Some (e, s) /\
    load s Buf_im = data sample_canvas.
Proof.
  destruct (reconstruction_reads_original (sample_W "scale" 2) (crop_engine 2)
              sample_canvas (fun _ => 0%Q))
    as (e & s & E & H & _).
  - apply sample_W_configured. reflexivity.
  - reflexivity.
  - reflexivity.
  - exact sample_canvas_wf.
  - reflexivity.
  - reflexivity.
  - exists e, s. auto.
Defined.


(** * Further properties *)

(** ** The content of a tile *)

Lemma borderInterpolate_clamp (p len : Z) :
  0 < len -> borderInterpolate p len = clamp 0 (len - 1) p.
Proof.
  intros H. unfold borderInterpolate, clamp.
  destruct (Z.ltb_spec p 0); [lia|].
  rewrite Z.geb_leb. destruct (Z.leb_spec len p); lia.
Qed.

Lemma extract_tile_at (im : Mat) (cw : ContextWindow) (r c : Z) :
  0 < cw_width cw -> 0 < cw_height cw ->
  0 <= r < cw_top cw + cw_height cw + cw_bottom cw ->
  0 <= c < cw_left cw + cw_width cw + cw_right cw ->
  Mat_at (extract_tile im cw) r c
  = Mat_at im (cw_y cw + clamp 0 (cw_height cw - 1) (r - cw_top cw))
              (cw_x cw + clamp 0 (cw_width cw - 1) (c - cw_left cw)).
Proof.
  intros Hw Hh Hr Hc. unfold extract_tile, copyMakeBorder, Mat_roi.
  cbn [rows cols Mat_tab].
  rewrite Mat_at_tab by lia.
  rewrite !borderInterpolate_clamp by assumption.
  rewrite Mat_at_tab by (unfold clamp; lia).
  reflexivity.
Qed.

Lemma slot_fits (P n B : Z) :
  0 <= P -> 0 <= n < B -> 0 <= P * n /\ P * n + P <= P * B.
Proof. intros. nia. Qed.

Lemma grid_fits (CS N n : Z) :
  0 < CS -> 0 <= n < N -> 0 <= n * CS /\ n * CS + CS <= CS * N.
Proof. intros. nia. Qed.

Lemma core_row_fits (CS i : Z) :
  0 < CS -> 0 <= i < CS ->
  0 <= (i + 1) * (CS + 2) /\ (i + 1) * (CS + 2) + 1 + CS <= (CS + 2) * (CS + 2).
Proof. intros. nia. Qed.

(** The window of a tile, in closed form. *)
Lemma context_window_eq (W : Waifu2x) (Width Height w h : Z) :
  0 <= inner_padding W -> 0 < crop_size W ->
  0 <= w -> w + crop_size W <= Width -> 0 <= h -> h + crop_size W <= Height ->
  let ip := inner_padding W in
  let x0 := Z.max 0 (w - ip) in
  let x1 := Z.min Width (w + crop_size W + ip) in
  let y0 := Z.max 0 (h - ip) in
  let y1 := Z.min Height (h + crop_size W + ip) in
  context_window W Width Height w h
  = mkCW x0 y0 (x1 - x0) (y1 - y0)
      (outer_padding W + (y0 - (h - ip)))
      (outer_padding W + (h + crop_size W + ip - y1))
      (outer_padding W + (x0 - (w - ip)))
      (outer_padding W + (w + crop_size W + ip - x1)).
Proof.
  intros Hip HCS Hw0 Hw1 Hh0 Hh1 ip x0 x1 y0 y1.
  subst x0 x1 y0 y1 ip. unfold context_window.
  set (ip := inner_padding W) in *. set (op := outer_padding W).
  set (CS := crop_size W) in *. clearbody ip op CS.
  repeat match goal with
  | |- context [ ?a <? ?b ] => destruct (Z.ltb_spec a b)
  | |- context [ ?a >? ?b ] => rewrite (Z.gtb_ltb a b); destruct (Z.ltb_spec b a)
  end; f_equal; lia.
Qed.

(** The bordered tile, read through its window. *)
Lemma tile_input_window (W : Waifu2x) (im : Mat) (k r c : Z) :
  sized W -> 0 < crop_size W -> Mat_wf im ->
  Z.rem (cols im) (output_size W) = 0 ->
  Z.rem (rows im) (output_size W) = 0 ->
  0 <= k < block_count W (rows im) (cols im) ->
  0 <= r < input_block_size W -> 0 <= c < input_block_size W ->
  let WidthNum := Z.quot (cols im) (output_size W) in
  let h := tile_h W WidthNum k in
  let w := tile_w W WidthNum k in
  let cw := context_window W (cols im) (rows im) w h in
  (0 <= w /\ w + crop_size W <= cols im) /\
  (0 <= h /\ h + crop_size W <= rows im) /\
  zlen (tile_input W im k) = input_block_size W * input_block_size W /\
  zth (tile_input W im k) (r * input_block_size W + c)
  = Mat_at im (cw_y cw + clamp 0 (cw_height cw - 1) (r - cw_top cw))
              (cw_x cw + clamp 0 (cw_width cw - 1) (c - cw_left cw)).
Proof.
  intros Hs HCS Hwf HW HH Hk Hr Hc WidthNum h w cw.
  destruct (tile_window_facts W im k Hs HCS Hwf HW HH Hk)
    as (cw' & Ew & (Hx0 & Hcw & Hx1) & (Hy0 & Hch & Hy1) & (Hl & Hri & Ht & Hb)
        & Ewid & Ehei & Ecols & Erows).
  assert (Ecw : cw' = cw).
  { unfold tile_window in Ew. destruct (_ && _) in Ew; [|discriminate].
    injection Ew as Ew. now subst cw'. }
  subst cw'.
  destruct Hs as (Ein & Eout & Eos & Eibs & _).
  destruct Hwf as (Hr0 & Hc0 & _).
  unfold block_count in Hk. rewrite Eos in HW, HH, Hk.
  destruct (rem_zero_multiple _ _ Hc0 HCS HW) as [EW HWN].
  destruct (rem_zero_multiple _ _ Hr0 HCS HH) as [EH HHN].
  destruct (tile_index_bounds _ _ _ Hk HWN HHN) as [Hwn Hhn].
  destruct (grid_fits _ _ _ HCS Hwn) as [Gw0 Gw1].
  destruct (grid_fits _ _ _ HCS Hhn) as [Gh0 Gh1].
  rewrite <- EW in Gw1. rewrite <- EH in Gh1.
  split; [subst w WidthNum; unfold tile_w, tile_wn; rewrite Eos; auto|].
  split; [subst h WidthNum; unfold tile_h, tile_hn; rewrite Eos; auto|].
  split.
  - unfold tile_input. rewrite Ew.
    unfold extract_tile, copyMakeBorder, Mat_tab in *. cbn [data rows cols] in *.
    rewrite Erows, Ecols. apply zlen_ztab.
    apply Z.mul_nonneg_nonneg; lia.
  - unfold tile_input. rewrite Ew. rewrite <- extract_tile_at by lia.
    unfold Mat_at, step1. now rewrite Ecols.
Qed.

(** A cell of the bordered tile whose place lies in the window. *)
Lemma tile_input_inside (W : Waifu2x) (im : Mat) (k r c : Z) :
  sized W -> 0 < crop_size W -> Mat_wf im ->
  Z.rem (cols im) (output_size W) = 0 ->
  Z.rem (rows im) (output_size W) = 0 ->
  0 <= k < block_count W (rows im) (cols im) ->
  0 < r < input_block_size W - 1 -> 0 < c < input_block_size W - 1 ->
  let WidthNum := Z.quot (cols im) (output_size W) in
  let y := tile_h W WidthNum k - (inner_padding W + outer_padding W) + r in
  let x := tile_w W WidthNum k - (inner_padding W + outer_padding W) + c in
  0 <= y < rows im -> 0 <= x < cols im ->
  zth (tile_input W im k) (r * input_block_size W + c) = Mat_at im y x.
Proof.
  intros Hs HCS Hwf HW HH Hk Hr Hc WidthNum y x Hy Hx.
  destruct (tile_input_window W im k r c Hs HCS Hwf HW HH Hk ltac:(lia) ltac:(lia))
    as ((Hw0 & Hw1) & (Hh0 & Hh1) & _ & Hat).
  cbv zeta in Hat. rewrite Hat.
  destruct Hs as (Ein & Eout & _ & Eibs & _).
  rewrite context_window_eq by (rewrite ?Ein; unfold layer_num; lia).
  cbv zeta. cbn [cw_x cw_y cw_width cw_height cw_top cw_bottom cw_left cw_right].
  subst y x. fold WidthNum in Hw0, Hw1, Hh0, Hh1 |- *.
  set (ww := tile_w W WidthNum k) in *. set (hh := tile_h W WidthNum k) in *.
  clearbody ww hh. rewrite Ein, Eout, Eibs in *. unfold layer_num, clamp in *.
  f_equal; lia.
Qed.

(** X1. The bordered tile of tile [k] of a padded canvas has
    [input_block_size] squared samples, and its sample in row [r] and
    column [c] is the sample of the canvas at the place [inner_padding +
    outer_padding] up and left of the core plus [(r, c)], once that place is
    brought first into the context window of the tile ([inner_padding]
    around the core) and then into the canvas.  A cell that is not on the
    rim of the tile and whose place lies on the canvas is that sample of the
    canvas itself. *)
Theorem tile_input_neighbourhood (W : Waifu2x) (im : Mat) (k r c : Z) :
  sized W -> 0 < crop_size W -> Mat_wf im ->
  Z.rem (cols im) (output_size W) = 0 ->
  Z.rem (rows im) (output_size W) = 0 ->
  0 <= k < block_count W (rows im) (cols im) ->
  0 <= r < input_block_size W -> 0 <= c < input_block_size W ->
  let WidthNum := Z.quot (cols im) (output_size W) in
  let h := tile_h W WidthNum k in
  let w := tile_w W WidthNum k in
  let reach := inner_padding W + outer_padding W in
  let y := h - reach + r in
  let x := w - reach + c in
  zlen (tile_input W im k) = input_block_size W * input_block_size W /\
  zth (tile_input W im k) (r * input_block_size W + c)
  = Mat_at im
      (clamp 0 (rows im - 1)
         (clamp (h - inner_padding W) (h + crop_size W + inner_padding W - 1) y))
      (clamp 0 (cols im - 1)
         (clamp (w - inner_padding W) (w + crop_size W + inner_padding W - 1) x)) /\
  (0 <= y < rows im -> 0 <= x < cols im ->
   0 < r < input_block_size W - 1 -> 0 < c < input_block_size W - 1 ->
   zth (tile_input W im k) (r * input_block_size W + c) = Mat_at im y x).
Proof.
  intros Hs HCS Hwf HW HH Hk Hr Hc WidthNum h w reach y x.
  destruct (tile_input_window W im k r c Hs HCS Hwf HW HH Hk Hr Hc)
    as ((Hw0 & Hw1) & (Hh0 & Hh1) & Hlen & Hat).
  cbv zeta in Hat. fold WidthNum in Hat, Hw0, Hw1, Hh0, Hh1.
  fold h in Hat, Hh0, Hh1. fold w in Hat, Hw0, Hw1.
  split; [exact Hlen|].
  pose proof Hs as (Ein & Eout & _ & Eibs & _).
  rewrite context_window_eq in Hat by (rewrite ?Ein; unfold layer_num; lia).
  cbv zeta in Hat.
  cbn [cw_x cw_y cw_width cw_height cw_top cw_bottom cw_left cw_right] in Hat.
  rewrite Hat. subst y x reach. clearbody w h. clear Hat Hlen.
  rewrite Ein, Eout, Eibs in *. unfold layer_num in *.
  split.
  - unfold clamp. f_equal; lia.
  - intros Hy Hx Hr' Hc'. unfold clamp. f_equal; lia.
Qed.

(** ** Passes with a network that works tile by tile *)

Lemma zlen_slot (P n : Z) (buf : list float) : 0 <= P -> zlen (slot P n buf) = P.
Proof. intros. unfold slot. now apply zlen_ztab. Qed.

Lemma tile_input_config (W W' : Waifu2x) (im : Mat) (k : Z) :
  crop_size W' = crop_size W -> inner_padding W' = inner_padding W ->
  outer_padding W' = outer_padding W -> output_size W' = output_size W ->
  tile_input W' im k = tile_input W im k.
Proof.
  intros E1 E2 E3 E4.
  unfold tile_input, tile_window, context_window, tile_w, tile_h.
  now rewrite E1, E2, E3, E4.
Qed.

Section TilewisePass.

Variable W : Waifu2x.
Variable im : Mat.

Hypothesis Hcfg : configured W.
Hypothesis HCS : 0 < crop_size W.
Hypothesis Hbs : 0 < batch_size W.
Hypothesis Hwf : Mat_wf im.
Hypothesis HW : Z.rem (cols im) (output_size W) = 0.
Hypothesis HH : Z.rem (rows im) (output_size W) = 0.

(** The slot of a tile in the batch that holds it is the tile. *)
Lemma slot_batch_input (k : Z) :
  0 <= k < block_count W (rows im) (cols im) ->
  slot (input_block_size W * input_block_size W) (k mod batch_size W)
    (batch_input W im (k / batch_size W * batch_size W))
  = tile_input W im k.
Proof.
  intros Hk.
  destruct (pass_geometry W im Hcfg HCS Hwf HW HH) as (_ & Eibs & _).
  pose proof (Z.div_mod k (batch_size W) ltac:(lia)) as Ek.
  pose proof (Z.mod_pos_bound k (batch_size W) Hbs) as Hm.
  assert (Hq : 0 <= k / batch_size W) by (apply Z.div_pos; lia).
  set (q := k / batch_size W) in *. set (n := k mod batch_size W) in *.
  assert (Hnum : 0 <= q * batch_size W < block_count W (rows im) (cols im)) by nia.
  destruct (processNum_bounds W im Hbs (q * batch_size W) Hnum) as (Hpn & Hend & Hlast).
  assert (Hn : n < processNum_of W (rows im) (cols im) (q * batch_size W)).
  { destruct (Z_lt_le_dec (processNum_of W (rows im) (cols im) (q * batch_size W))
                (batch_size W)) as [Hs | Hs]; [|lia].
    specialize (Hlast Hs). lia. }
  destruct (fill_tile_eq W im Hcfg HCS Hwf HW HH (q * batch_size W) n
              (mkStore (data im) [] [] []) ltac:(lia) eq_refl) as [_ Hlen].
  replace (q * batch_size W + n) with k in Hlen by lia.
  assert (Hplane : 0 < input_block_size W * input_block_size W) by nia.
  apply zth_ext.
  - rewrite zlen_slot by lia. now rewrite Hlen.
  - intros p Hp. rewrite zlen_slot in Hp by lia.
    unfold slot. rewrite zth_ztab by assumption.
    unfold batch_input. rewrite zth_ztab by nia.
    destruct (slot_index (input_block_size W * input_block_size W) n p
                (input_block_size W * input_block_size W * n + p) Hplane Hp eq_refl)
      as [-> ->].
    f_equal. f_equal. lia.
Qed.

(** What a tile-wise network returns for a cell of a core. *)
Lemma core_value_tilewise (f : list float -> list float) (k i j : Z) :
  0 <= k < block_count W (rows im) (cols im) ->
  0 <= i < crop_size W -> 0 <= j < crop_size W ->
  core_value W (tilewise W f) im k i j
  = zth (f (tile_input W im k))
      ((i + 1) * output_block_size W + 1 + j).
Proof.
  intros Hk Hi Hj.
  destruct (pass_geometry W im Hcfg HCS Hwf HW HH) as (_ & _ & Eobs & Eop & _).
  pose proof (Z.div_mod k (batch_size W) ltac:(lia)) as Ek.
  pose proof (Z.mod_pos_bound k (batch_size W) Hbs) as Hm.
  assert (Hq : 0 <= k / batch_size W) by (apply Z.div_pos; lia).
  assert (Hnum : 0 <= k / batch_size W * batch_size W < block_count W (rows im) (cols im))
    by nia.
  destruct (processNum_bounds W im Hbs _ Hnum) as (Hpn & Hend & Hlast).
  assert (Hn : k mod batch_size W
               < processNum_of W (rows im) (cols im) (k / batch_size W * batch_size W)).
  { destruct (Z_lt_le_dec (processNum_of W (rows im) (cols im)
                             (k / batch_size W * batch_size W))
                (batch_size W)) as [Hs | Hs]; [|lia].
    specialize (Hlast Hs). lia. }
  unfold core_value, tilewise. rewrite Eop.
  assert (Hplane : 0 < output_block_size W * output_block_size W) by nia.
  assert (Hcell : 0 <= (i + 1) * output_block_size W + 1 + j
                  < output_block_size W * output_block_size W) by nia.
  rewrite zth_ztab by nia.
  destruct (slot_index (output_block_size W * output_block_size W) (k mod batch_size W)
              ((i + 1) * output_block_size W + 1 + j)
              (output_block_size W * output_block_size W * (k mod batch_size W)
               + (i + 1) * output_block_size W + 1 + j) Hplane Hcell ltac:(lia))
    as [-> ->].
  now rewrite slot_batch_input.
Qed.

Lemma tilewise_total (f : list float -> list float) : engine_total (tilewise W f).
Proof. intros n b. discriminate. Qed.

(** A pass with a tile-wise network ends well, with the canvas of cores. *)
Lemma tilewise_pass (f : list float -> list float) (junk : Z -> float) :
  exists s,
    ReconstructImage W (tilewise W f) im junk
    = Some (eWaifu2xError_OK, reconstructed W (tilewise W f) im, with_buffers W s) /\
    configured (with_buffers W s).
Proof.
  destruct (pass_result W (tilewise W f) im Hcfg HCS Hbs Hwf HW HH junk)
    as (e & s & E & _ & Hc & [(-> & _ & Hres) | (-> & q & _ & _ & Hf)]).
  - exists s. split; [|exact Hc].
    rewrite (ReconstructImage_of_run _ _ _ _ _ _ E) by auto.
    cbn [is_OK]. now rewrite Hres.
  - exfalso. exact (tilewise_total f _ _ Hf).
Qed.

Lemma reconstructed_tilewise_at (f : list float -> list float) (y x : Z) :
  0 <= y < rows im -> 0 <= x < cols im ->
  Mat_at (reconstructed W (tilewise W f) im) y x
  = zth (f (tile_input W im (tile_of W (cols im) y x)))
      ((y mod crop_size W + 1) * output_block_size W + 1 + x mod crop_size W).
Proof.
  intros Hy Hx. unfold reconstructed. rewrite Mat_at_tab by assumption.
  apply core_value_tilewise.
  - apply (tile_of_bounds W im Hcfg HCS Hwf HW HH); assumption.
  - apply Z.mod_pos_bound; assumption.
  - apply Z.mod_pos_bound; assumption.
Qed.

End TilewisePass.

Lemma tile_of_config (W W' : Waifu2x) (Width y x : Z) :
  crop_size W' = crop_size W -> output_size W' = output_size W ->
  tile_of W' Width y x = tile_of W Width y x.
Proof. intros E1 E2. unfold tile_of. now rewrite E1, E2. Qed.

Lemma sized_same_crop (W W' : Waifu2x) :
  sized W -> sized W' -> crop_size W' = crop_size W ->
  inner_padding W' = inner_padding W /\ outer_padding W' = outer_padding W /\
  output_size W' = output_size W /\ input_block_size W' = input_block_size W /\
  output_block_size W' = output_block_size W.
Proof.
  intros (A1 & A2 & A3 & A4 & A5) (B1 & B2 & B3 & B4 & B5) E.
  repeat split; congruence.
Qed.

(** X3. With a network that maps every tile of its batch on its own, a
    pass over a padded canvas ends well and its result does not depend on
    the batch size: two objects with the same crop size and any two
    positive batch sizes give the same canvas, whatever their buffers and
    the fresh memory hold. *)
Theorem tilewise_pass_any_batch_size (W W' : Waifu2x) (im : Mat)
    (f : list float -> list float) (junk junk' : Z -> float) :
  configured W -> configured W' -> crop_size W' = crop_size W ->
  0 < crop_size W -> 0 < batch_size W -> 0 < batch_size W' -> Mat_wf im ->
  Z.rem (cols im) (output_size W) = 0 ->
  Z.rem (rows im) (output_size W) = 0 ->
  exists out W1 W1',
    ReconstructImage W (tilewise W f) im junk = Some (eWaifu2xError_OK, out, W1) /\
    ReconstructImage W' (tilewise W' f) im junk' = Some (eWaifu2xError_OK, out, W1').
Proof.
  intros Hcfg Hcfg' Ecs HCS Hbs Hbs' Hwf HW HH.
  destruct (sized_same_crop W W' (proj1 Hcfg) (proj1 Hcfg') Ecs)
    as (Ein & Eout & Eos & Eibs & Eobs).
  assert (HCS' : 0 < crop_size W') by lia.
  assert (HW' : Z.rem (cols im) (output_size W') = 0) by now rewrite Eos.
  assert (HH' : Z.rem (rows im) (output_size W') = 0) by now rewrite Eos.
  destruct (tilewise_pass W im Hcfg HCS Hbs Hwf HW HH f junk) as (s & E & _).
  destruct (tilewise_pass W' im Hcfg' HCS' Hbs' Hwf HW' HH' f junk') as (s' & E' & _).
  exists (reconstructed W (tilewise W f) im), (with_buffers W s), (with_buffers W' s').
  split; [exact E|]. rewrite E'. f_equal. f_equal. f_equal.
  destruct Hwf as (Hr0 & Hc0 & Hl).
  apply Mat_ext; try reflexivity; try (apply Mat_tab_wf; assumption).
  intros y x Hy Hx. cbn [rows cols reconstructed Mat_tab] in Hy, Hx.
  rewrite (reconstructed_tilewise_at W' im Hcfg' HCS' Hbs' (conj Hr0 (conj Hc0 Hl)) HW' HH')
    by assumption.
  rewrite (reconstructed_tilewise_at W im Hcfg HCS Hbs (conj Hr0 (conj Hc0 Hl)) HW HH)
    by assumption.
  rewrite (tile_of_config W W') by assumption.
  rewrite (tile_input_config W W') by assumption.
  now rewrite Ecs, Eobs.
Qed.

(** ** The buffers a pass leaves behind *)

Lemma processNum_config (W W' : Waifu2x) (Height Width num : Z) :
  output_size W' = output_size W -> batch_size W' = batch_size W ->
  processNum_of W' Height Width num = processNum_of W Height Width num.
Proof. intros E1 E2. unfold processNum_of. now rewrite E1, E2. Qed.

Lemma config_all (W W' : Waifu2x) :
  config W' = config W ->
  crop_size W' = crop_size W /\ batch_size W' = batch_size W /\
  inner_padding W' = inner_padding W /\ outer_padding W' = outer_padding W /\
  output_size W' = output_size W /\ input_block_size W' = input_block_size W /\
  output_block_size W' = output_block_size W.
Proof. unfold config. intros E. injection E. intros. repeat split; assumption. Qed.

Lemma batch_input_config (W W' : Waifu2x) (im : Mat) (num : Z) :
  config W' = config W -> batch_input W' im num = batch_input W im num.
Proof.
  intros E. destruct (config_all _ _ E) as (E1 & E2 & E3 & E4 & E5 & E6 & E7).
  unfold batch_input.
  rewrite (processNum_config W W') by assumption. rewrite E6.
  unfold ztab. apply map_ext. intros a.
  now rewrite (tile_input_config W W') by assumption.
Qed.

Lemma core_value_config (W W' : Waifu2x) (net : Engine) (im : Mat) (k i j : Z) :
  config W' = config W -> core_value W' net im k i j = core_value W net im k i j.
Proof.
  intros E. destruct (config_all _ _ E) as (E1 & E2 & E3 & E4 & E5 & E6 & E7).
  unfold core_value.
  rewrite (processNum_config W W') by assumption.
  rewrite (batch_input_config W W') by assumption.
  now rewrite E2, E3, E4, E7.
Qed.

Lemma reconstructed_config (W W' : Waifu2x) (net : Engine) (im : Mat) :
  config W' = config W -> reconstructed W' net im = reconstructed W net im.
Proof.
  intros E. destruct (config_all _ _ E) as (E1 & E2 & E3 & E4 & E5 & E6 & E7).
  unfold reconstructed, Mat_tab. f_equal. unfold ztab. apply map_ext. intros a.
  rewrite (core_value_config W W') by assumption.
  rewrite (tile_of_config W W') by assumption.
  now rewrite E1.
Qed.

Lemma batch_fails_config (W W' : Waifu2x) (net : Engine) (im : Mat) (num : Z) :
  config W' = config W -> batch_fails W' net im num <-> batch_fails W net im num.
Proof.
  intros E. destruct (config_all _ _ E) as (E1 & E2 & E3 & E4 & E5 & E6 & E7).
  unfold batch_fails.
  rewrite (processNum_config W W') by assumption.
  rewrite (batch_input_config W W') by assumption. reflexivity.
Qed.

(** The outcome of a pass over a padded canvas, as a function of the
    configuration alone. *)
Lemma pass_outcome (W : Waifu2x) (net : Engine) (im : Mat) (junk : Z -> float) :
  configured W -> 0 < crop_size W -> 0 < batch_size W -> Mat_wf im ->
  Z.rem (cols im) (output_size W) = 0 ->
  Z.rem (rows im) (output_size W) = 0 ->
  exists e s,
    ReconstructImage W net im junk
    = Some (e, (if is_OK e then reconstructed W net im else im), with_buffers W s) /\
    configured (with_buffers W s) /\
    (e = eWaifu2xError_OK \/ e = eWaifu2xError_FailedProcessCaffe) /\
    (e = eWaifu2xError_OK <->
     forall q, 0 <= q -> q * batch_size W < block_count W (rows im) (cols im) ->
       ~ batch_fails W net im (q * batch_size W)).
Proof.
  intros Hcfg HCS Hbs Hwf HW HH.
  destruct (pass_result W net im Hcfg HCS Hbs Hwf HW HH junk)
    as (e & s & E & Him & Hc & [(-> & Hall & Hres) | (-> & q & Hq & Hlt & Hf)]).
  - exists eWaifu2xError_OK, s. split; [|split; [exact Hc|split; [auto|split; auto]]].
    rewrite (ReconstructImage_of_run _ _ _ _ _ _ E) by auto.
    cbn [is_OK]. now rewrite Hres.
  - exists eWaifu2xError_FailedProcessCaffe, s.
    split; [|split; [exact Hc|split; [auto|split]]].
    + rewrite (ReconstructImage_of_run _ _ _ _ _ _ E) by auto.
      cbn [is_OK]. now rewrite Him, Mat_eta.
    + discriminate.
    + intros Hall. exfalso. exact (Hall q Hq Hlt Hf).
Qed.

(** X5. What the buffers [input_block] and [output_block] hold when a
    pass starts has no effect on it: two objects with the same
    configuration give the same code and the same canvas, and each is left
    configured as before, so that the passes of the upscale loop, which
    share the buffers, do not see one another.  This covers the slots a
    short last batch leaves untouched. *)
Theorem pass_ignores_stale_buffers (W W' : Waifu2x) (net : Engine) (im : Mat)
    (junk junk' : Z -> float) :
  configured W -> configured W' -> config W' = config W ->
  0 < crop_size W -> 0 < batch_size W -> Mat_wf im ->
  Z.rem (cols im) (output_size W) = 0 ->
  Z.rem (rows im) (output_size W) = 0 ->
  exists e out W1 W1',
    ReconstructImage W net im junk = Some (e, out, W1) /\
    ReconstructImage W' net im junk' = Some (e, out, W1') /\
    configured W1 /\ configured W1' /\ config W1 = config W /\ config W1' = config W.
Proof.
  intros Hcfg Hcfg' Ec HCS Hbs Hwf HW HH.
  destruct (config_all _ _ Ec) as (E1 & E2 & E3 & E4 & E5 & E6 & E7).
  destruct (pass_outcome W net im junk Hcfg HCS Hbs Hwf HW HH)
    as (e & s & E & Hc & He & Hiff).
  destruct (pass_outcome W' net im junk' Hcfg' ltac:(lia) ltac:(lia) Hwf
              ltac:(now rewrite E5) ltac:(now rewrite E5))
    as (e' & s' & E' & Hc' & He' & Hiff').
  assert (Hsame : e' = e).
  { assert (Hb : e' = eWaifu2xError_OK <-> e = eWaifu2xError_OK).
    { rewrite Hiff, Hiff'. rewrite E2.
      assert (Hbc : block_count W' (rows im) (cols im) = block_count W (rows im) (cols im))
        by (unfold block_count; now rewrite E5).
      rewrite Hbc.
      split; intros Hall q Hq Hlt Hf; apply (Hall q Hq Hlt);
        apply (batch_fails_config W W' net im _ Ec); exact Hf. }
    destruct He as [-> | ->], He' as [-> | ->]; try reflexivity.
    - apply (proj2 Hb). reflexivity.
    - symmetry. apply (proj1 Hb). reflexivity. }
  subst e'.
  exists e, (if is_OK e then reconstructed W net im else im),
    (with_buffers W s), (with_buffers W' s').
  split; [exact E|]. split.
  { rewrite E'. now rewrite (reconstructed_config W W' net im Ec). }
  split; [exact Hc|]. split; [exact Hc'|]. split; [reflexivity|].
  rewrite <- Ec. reflexivity.
Qed.

(** ** The copies of a pass *)

Section PassCopies.

Variable W : Waifu2x.
Variable im : Mat.

Hypothesis Hcfg : configured W.
Hypothesis HCS : 0 < crop_size W.
Hypothesis Hbs : 0 < batch_size W.
Hypothesis Hwf : Mat_wf im.
Hypothesis HW : Z.rem (cols im) (output_size W) = 0.
Hypothesis HH : Z.rem (rows im) (output_size W) = 0.

Lemma pass_store_sized (junk : Z -> float) : buffers_sized W im (pass_store W im junk).
Proof.
  destruct Hcfg as (_ & Li & Lo). destruct Hwf as (Hr & Hc & _).
  unfold buffers_sized, pass_store.
  cbn [load st_im st_outim st_input_block st_output_block].
  repeat split; auto. apply zlen_ztab. nia.
Qed.

(** The copy of a tile into its slot. *)
Lemma fill_tile_in_bounds (num n : Z) (s : Store) :
  buffers_sized W im s ->
  0 <= num < block_count W (rows im) (cols im) ->
  0 <= n < processNum_of W (rows im) (cols im) num ->
  let dst := mkptr Buf_input_block (input_block_size W * input_block_size W * n) in
  let src := tile_input W im (num + n) in
  let len := input_block_size W * input_block_size W in
  fill_tile W (rows im) (cols im) num n s = memcpy s dst src 0 len /\
  memcpy_in_bounds s dst src 0 len /\
  buffers_sized W im (fill_tile W (rows im) (cols im) num n s).
Proof.
  intros (B1 & B2 & B3 & B4) Hnum Hn dst src len.
  destruct (processNum_bounds W im Hbs num Hnum) as (Hpn & Hend & _).
  destruct (fill_tile_eq W im Hcfg HCS Hwf HW HH num n s ltac:(lia) B1) as [Ef Hlen].
  destruct (pass_geometry W im Hcfg HCS Hwf HW HH) as (_ & Eibs & _).
  split; [exact Ef|]. split.
  - unfold memcpy_in_bounds. subst dst src len. cbn [p_buf p_off].
    rewrite B3, Hlen. nia.
  - rewrite Ef. unfold buffers_sized.
    rewrite !load_memcpy_other by discriminate.
    rewrite (load_memcpy_same s (mkptr Buf_input_block _)). cbn [p_buf p_off].
    rewrite zlen_memcpy_list. auto.
Qed.

(** The copy of the result of the network into [output_block]. *)
Lemma caffe_copy_in_bounds (num : Z) (s : Store) (out : list float) :
  buffers_sized W im s ->
  0 <= num < block_count W (rows im) (cols im) ->
  let processNum := processNum_of W (rows im) (cols im) num in
  let len := output_block_size W * output_block_size W * processNum in
  zlen out = len ->
  0 <= input_block_size W * input_block_size W * processNum
    <= zlen (load s Buf_input_block) /\
  memcpy_in_bounds s (mkptr Buf_output_block 0) out 0 len /\
  buffers_sized W im (memcpy s (mkptr Buf_output_block 0) out 0 len).
Proof.
  intros (B1 & B2 & B3 & B4) Hnum processNum len Hout.
  destruct (processNum_bounds W im Hbs num Hnum) as (Hpn & Hend & _).
  destruct (pass_geometry W im Hcfg HCS Hwf HW HH) as (_ & Eibs & Eobs & _).
  fold processNum in Hpn.
  split; [rewrite B3; nia|]. split.
  - unfold memcpy_in_bounds. cbn [p_buf p_off]. rewrite B4, Hout. subst len. nia.
  - unfold buffers_sized.
    rewrite !load_memcpy_other by discriminate.
    rewrite (load_memcpy_same s (mkptr Buf_output_block 0)). cbn [p_buf p_off].
    rewrite zlen_memcpy_list. auto.
Qed.

(** The copies of the rows of a core into the result. *)
Lemma stitch_tile_in_bounds (num n : Z) (s : Store) :
  buffers_sized W im s ->
  0 <= num < block_count W (rows im) (cols im) ->
  0 <= n < processNum_of W (rows im) (cols im) num ->
  (forall i s0, 0 <= i < crop_size W -> buffers_sized W im s0 ->
     let output_padding := inner_padding W + outer_padding W - layer_num in
     memcpy_in_bounds s0
       (ptr_add imptr (stitch_offset W (cols im) (cols im) (num + n) i))
       (load s0 Buf_output_block)
       (output_block_size W * output_block_size W * n
        + (i + output_padding) * output_block_size W + output_padding)
       (crop_size W)) /\
  buffers_sized W im (stitch_tile W (cols im) (cols im) num n s).
Proof.
  intros (B1 & B2 & B3 & B4) Hnum Hn.
  destruct (processNum_bounds W im Hbs num Hnum) as (Hpn & Hend & _).
  destruct (pass_geometry W im Hcfg HCS Hwf HW HH)
    as (Eos & Eibs & Eobs & Eop & EW & EH & HWN & HHN & EBN).
  pose proof Hwf as (Hr0 & Hc0 & _).
  split.
  - intros i s0 Hi (C1 & C2 & C3 & C4) output_padding.
    subst output_padding. rewrite Eop.
    assert (Hk : 0 <= num + n < Z.quot (cols im) (output_size W)
                                * Z.quot (rows im) (output_size W)) by lia.
    destruct (tile_index_bounds _ _ _ Hk HWN HHN) as [Hwn Hhn].
    unfold memcpy_in_bounds, stitch_offset, tile_h, tile_w, tile_hn, tile_wn.
    cbn [p_buf p_off ptr_add imptr load]. rewrite Eos in *.
    change (st_outim s0) with (load s0 Buf_outim).
    change (st_output_block s0) with (load s0 Buf_output_block).
    rewrite C2, C4, Eobs.
    set (wn := Z.rem (num + n) (Z.quot (cols im) (crop_size W))) in *.
    set (hn := Z.quot (num + n) (Z.quot (cols im) (crop_size W))) in *.
    set (WN := Z.quot (cols im) (crop_size W)) in *.
    set (HN := Z.quot (rows im) (crop_size W)) in *.
    clearbody wn hn.
    destruct (grid_fits _ _ _ HCS Hwn) as [Gw0 Gw1].
    destruct (grid_fits _ _ _ HCS Hhn) as [Gh0 Gh1].
    fold WN in EW. fold HN in EH. rewrite <- EW in Gw1. rewrite <- EH in Gh1.
    destruct (slot_fits (cols im) (hn * crop_size W + i) (rows im) Hc0 ltac:(lia))
      as [Gr0 Gr1].
    destruct (slot_fits ((crop_size W + 2) * (crop_size W + 2)) n (batch_size W)
                ltac:(apply Z.mul_nonneg_nonneg; lia) ltac:(lia)) as [Gs0 Gs1].
    destruct (core_row_fits (crop_size W) i HCS Hi) as [Gc0 Gc1].
    rewrite (Z.mul_comm (rows im) (cols im)).
    rewrite (Z.mul_comm (hn * crop_size W + i) (cols im)).
    repeat split; lia.
  - destruct (stitch_tile_spec W im Hcfg HCS Hwf HW HH num n s ltac:(lia) B2)
      as (S1 & S2 & S3 & S4 & _).
    unfold buffers_sized. rewrite S1, S2, S3, S4. auto.
Qed.

End PassCopies.

(** X4. Every copy of a pass over a padded canvas stays inside its buffers.
    The buffers keep the sizes [init] and the pass gave them; under these
    sizes the copy of a bordered tile into slot [n] of [input_block], the
    copy of the result of the network into [output_block] (when the result
    has the length line 571 asserts), and the copy of each row of a core
    into the result, read and write within bounds; and each of the three
    steps keeps the sizes. *)
Theorem pass_copies_stay_in_bounds (W : Waifu2x) (im : Mat) :
  configured W -> 0 < crop_size W -> 0 < batch_size W -> Mat_wf im ->
  Z.rem (cols im) (output_size W) = 0 ->
  Z.rem (rows im) (output_size W) = 0 ->
  (forall junk, buffers_sized W im (pass_store W im junk)) /\
  (forall num n s,
     buffers_sized W im s ->
     0 <= num < block_count W (rows im) (cols im) ->
     0 <= n < processNum_of W (rows im) (cols im) num ->
     let dst := mkptr Buf_input_block (input_block_size W * input_block_size W * n) in
     let src := tile_input W im (num + n) in
     let len := input_block_size W * input_block_size W in
     fill_tile W (rows im) (cols im) num n s = memcpy s dst src 0 len /\
     memcpy_in_bounds s dst src 0 len /\
     buffers_sized W im (fill_tile W (rows im) (cols im) num n s)) /\
  (forall num s out,
     buffers_sized W im s ->
     0 <= num < block_count W (rows im) (cols im) ->
     let processNum := processNum_of W (rows im) (cols im) num in
     let len := output_block_size W * output_block_size W * processNum in
     zlen out = len ->
     0 <= input_block_size W * input_block_size W * processNum
       <= zlen (load s Buf_input_block) /\
     memcpy_in_bounds s (mkptr Buf_output_block 0) out 0 len /\
     buffers_sized W im (memcpy s (mkptr Buf_output_block 0) out 0 len)) /\
  (forall num n s,
     buffers_sized W im s ->
     0 <= num < block_count W (rows im) (cols im) ->
     0 <= n < processNum_of W (rows im) (cols im) num ->
     (forall i s0, 0 <= i < crop_size W -> buffers_sized W im s0 ->
        let output_padding := inner_padding W + outer_padding W - layer_num in
        memcpy_in_bounds s0
          (ptr_add imptr (stitch_offset W (cols im) (cols im) (num + n) i))
          (load s0 Buf_output_block)
          (output_block_size W * output_block_size W * n
           + (i + output_padding) * output_block_size W + output_padding)
          (crop_size W)) /\
     buffers_sized W im (stitch_tile W (cols im) (cols im) num n s)).
Proof.
  intros Hcfg HCS Hbs Hwf HW HH. split; [|split; [|split]].
  - intros junk. now apply pass_store_sized.
  - intros num n s. now apply fill_tile_in_bounds.
  - intros num s out. now apply caffe_copy_in_bounds.
  - intros num n s. now apply stitch_tile_in_bounds.
Qed.

(** ** Padding, again *)

Lemma round_up_blocks_nonneg (a t : Z) :
  0 <= a -> 0 < t ->
  let blocks := Z.quot a t + (if Z.rem a t =? 0 then 0 else 1) in
  a <= blocks * t < a + t /\ Z.rem (blocks * t) t = 0 /\
  (Z.rem a t = 0 -> blocks * t = a).
Proof.
  intros Ha Ht blocks. unfold blocks.
  rewrite Z.rem_mod_nonneg, Z.quot_div_nonneg by lia.
  pose proof (Z.div_mod a t ltac:(lia)).
  pose proof (Z.mod_pos_bound a t Ht).
  split; [|split].
  - destruct (Z.eqb_spec (a mod t) 0); nia.
  - rewrite Z.rem_mul; lia.
  - intros E. rewrite E. cbn. nia.
Qed.

(** The canvas [PaddingImage] makes of a plane. *)
Lemma PaddingImage_spec (W : Waifu2x) (im : Mat) :
  0 < output_size W -> Mat_wf im ->
  let t := output_size W in
  let p := PaddingImage W im in
  Mat_wf p /\
  (cols im <= cols p < cols im + t /\ Z.rem (cols p) t = 0) /\
  (rows im <= rows p < rows im + t /\ Z.rem (rows p) t = 0) /\
  (Z.rem (cols im) t = 0 -> cols p = cols im) /\
  (Z.rem (rows im) t = 0 -> rows p = rows im) /\
  (forall y x, 0 <= y < rows p -> 0 <= x < cols p -> 0 < rows im -> 0 < cols im ->
     Mat_at p y x = Mat_at im (Z.min y (rows im - 1)) (Z.min x (cols im - 1))) /\
  crop_padding p (Mat_size im) = im.
Proof.
  intros Ht (Hr & Hc & Hl) t p.
  destruct (round_up_blocks_nonneg (cols im) t Hc Ht) as (Bc & Mc & Ic).
  destruct (round_up_blocks_nonneg (rows im) t Hr Ht) as (Br & Mr & Ir).
  assert (Ec : cols p = (Z.quot (cols im) t + (if Z.rem (cols im) t =? 0 then 0 else 1)) * t).
  { unfold p, PaddingImage, copyMakeBorder, Mat_tab, offset. cbn [cols]. fold t. lia. }
  assert (Er : rows p = (Z.quot (rows im) t + (if Z.rem (rows im) t =? 0 then 0 else 1)) * t).
  { unfold p, PaddingImage, copyMakeBorder, Mat_tab, offset. cbn [rows]. fold t. lia. }
  assert (Hat : forall y x, 0 <= y < rows p -> 0 <= x < cols p -> 0 < rows im -> 0 < cols im ->
     Mat_at p y x = Mat_at im (Z.min y (rows im - 1)) (Z.min x (cols im - 1))).
  { intros y x Hy Hx Hr1 Hc1. unfold p, PaddingImage, copyMakeBorder in *.
    rewrite Mat_at_tab by (cbn [rows cols Mat_tab] in Hy, Hx; lia).
    unfold borderInterpolate, offset. rewrite !Z.sub_0_r.
    destruct (Z.ltb_spec y 0); [lia|]. destruct (Z.ltb_spec x 0); [lia|].
    rewrite !Z.geb_leb.
    destruct (Z.leb_spec (rows im) y), (Z.leb_spec (cols im) x);
      f_equal; lia. }
  split; [|split; [|split; [|split; [|split; [|split]]]]].
  - unfold p, PaddingImage, copyMakeBorder. apply Mat_tab_wf.
    + cbn [rows cols Mat_tab] in Er. unfold offset in *. fold t in Er |- *. lia.
    + cbn [rows cols Mat_tab] in Ec. unfold offset in *. fold t in Ec |- *. lia.
  - rewrite Ec. auto.
  - rewrite Er. auto.
  - intros E. rewrite Ec. auto.
  - intros E. rewrite Er. auto.
  - exact Hat.
  - unfold crop_padding, Mat_size, Mat_roi. cbn [width height].
    apply Mat_ext; cbn [rows cols Mat_tab]; unfold Mat_wf; auto.
    + apply Mat_tab_wf; lia.
    + intros y x Hy Hx. rewrite Mat_at_tab by lia. unfold offset. cbn [Z.add].
      rewrite Hat by lia. f_equal; lia.
Qed.

Lemma PaddingImage_padded (W : Waifu2x) (im : Mat) :
  0 < output_size W -> Mat_wf im ->
  Z.rem (cols im) (output_size W) = 0 -> Z.rem (rows im) (output_size W) = 0 ->
  PaddingImage W im = im.
Proof.
  intros Ht Hwf HW HH.
  destruct (PaddingImage_spec W im Ht Hwf) as (Hp & _ & _ & Ec & Er & _ & Ecrop).
  specialize (Ec HW). specialize (Er HH).
  rewrite <- Ecrop at 2.
  unfold crop_padding, Mat_roi, Mat_size. cbn [width height].
  apply Mat_ext; cbn [rows cols Mat_tab]; auto.
  - destruct Hwf as (? & ? & _). apply Mat_tab_wf; assumption.
  - intros y x Hy Hx. rewrite Mat_at_tab by lia. unfold offset. reflexivity.
Qed.

(** X6. [PaddingImage] changes nothing on a plane whose sides are
    multiples of the tile size, and the removal of the padding then changes
    nothing either; hence padding a padded canvas again gives it back. *)
Theorem PaddingImage_idempotent (W : Waifu2x) (im : Mat) :
  0 < output_size W -> Mat_wf im ->
  (Z.rem (cols im) (output_size W) = 0 -> Z.rem (rows im) (output_size W) = 0 ->
   PaddingImage W im = im /\ crop_padding im (Mat_size im) = im) /\
  PaddingImage W (PaddingImage W im) = PaddingImage W im.
Proof.
  intros Ht Hwf. split.
  - intros HW HH. pose proof (PaddingImage_padded W im Ht Hwf HW HH) as E.
    split; [exact E|].
    destruct (PaddingImage_spec W im Ht Hwf) as (_ & _ & _ & _ & _ & _ & Ecrop).
    now rewrite E in Ecrop.
  - destruct (PaddingImage_spec W im Ht Hwf) as (Hp & (_ & Mc) & (_ & Mr) & _).
    now apply PaddingImage_padded.
Qed.

(** ** Doubling and padding *)

(** X7. When [cv::resize] returns an image of the size it is asked for,
    [Zoom2xAndPaddingImage] sets [zoom_size] to twice the size of its input
    and returns a canvas that a pass accepts: its sides are multiples of the
    tile size, each less than one tile longer than the doubled side, and the
    removal of the padding at line 824 gives the doubled image back. *)
Theorem zoomed_canvas_is_ready (env : Env) (W : Waifu2x) (input : Mat) :
  resize_sized env -> 0 < output_size W -> Mat_wf input ->
  let canvas := fst (Zoom2xAndPaddingImage env W input) in
  let zoom_size := snd (Zoom2xAndPaddingImage env W input) in
  zoom_size = mkSize (cols input * 2) (rows input * 2) /\
  Mat_wf canvas /\
  Z.rem (cols canvas) (output_size W) = 0 /\
  Z.rem (rows canvas) (output_size W) = 0 /\
  (cols input * 2 <= cols canvas < cols input * 2 + output_size W) /\
  (rows input * 2 <= rows canvas < rows input * 2 + output_size W) /\
  crop_padding canvas zoom_size = zoom2x env input.
Proof.
  intros Hres Ht (Hr & Hc & _) canvas zoom_size.
  subst canvas zoom_size. unfold Zoom2xAndPaddingImage, Mat_size. cbn [fst snd width height].
  destruct (Hres input (mkSize (cols input * 2) (rows input * 2)) INTER_NEAREST)
    as [Hzwf Hzs]; cbn [width height]; try lia.
  fold (zoom2x env input) in *.
  destruct (PaddingImage_spec W (zoom2x env input) Ht Hzwf)
    as (Hp & (Bc & Mc) & (Br & Mr) & _ & _ & _ & Ecrop).
  unfold Mat_size in Hzs. injection Hzs as Ezc Ezr.
  rewrite Ezc in Bc. rewrite Ezr in Br.
  split; [reflexivity|]. split; [exact Hp|]. split; [exact Mc|]. split; [exact Mr|].
  split; [exact Bc|]. split; [exact Br|].
  unfold Mat_size in Ecrop. rewrite Ezc, Ezr in Ecrop. exact Ecrop.
Qed.

(** ** The stages with a network that changes nothing *)

Lemma zth_slot (P n : Z) (buf : list float) (q : Z) :
  0 <= q < P -> zth (slot P n buf) q = zth buf (P * n + q).
Proof. intros Hq. unfold slot. now rewrite zth_ztab. Qed.

(** [crop_engine] is the tile-wise network of [centre_crop]. *)
Lemma crop_engine_tilewise (W : Waifu2x) (n : Z) (buf : list float) :
  sized W -> 0 < crop_size W ->
  crop_engine (crop_size W) n buf = tilewise W (centre_crop W) n buf.
Proof.
  intros (_ & _ & _ & Eibs & Eobs) HCS.
  unfold crop_engine, tilewise. rewrite Eibs, Eobs.
  set (ibs := crop_size W + 16). set (obs := crop_size W + 2).
  assert (Hobs : 0 < obs) by (unfold obs; lia).
  assert (Hplane : 0 < obs * obs) by (apply Z.mul_pos_pos; assumption).
  f_equal. unfold ztab. apply map_ext_in. intros a Ha.
  apply in_seq in Ha.
  set (k := Z.of_nat a).
  pose proof (Z.mod_pos_bound k (obs * obs) Hplane) as Hc.
  cbv beta zeta.
  set (cell := k mod (obs * obs)) in *.
  unfold centre_crop. rewrite Eibs, Eobs. fold ibs obs.
  rewrite zth_ztab by exact Hc.
  pose proof (Z.mod_pos_bound cell obs Hobs) as Hm.
  assert (Hd : 0 <= cell / obs < obs).
  { split; [apply Z.div_pos; lia | apply Z.div_lt_upper_bound; lia]. }
  rewrite zth_slot.
  - f_equal. unfold layer_num. lia.
  - unfold layer_num, ibs, obs in *. nia.
Qed.

Lemma core_value_crop_engine (W : Waifu2x) (im : Mat) (k i j : Z) :
  sized W -> 0 < crop_size W ->
  core_value W (crop_engine (crop_size W)) im k i j
  = core_value W (tilewise W (centre_crop W)) im k i j.
Proof.
  intros Hs HCS. unfold core_value. now rewrite crop_engine_tilewise.
Qed.

(** The cores that network returns are the canvas. *)
Lemma reconstructed_crop_engine (W : Waifu2x) (im : Mat) :
  configured W -> 0 < crop_size W -> 0 < batch_size W -> Mat_wf im ->
  Z.rem (cols im) (output_size W) = 0 ->
  Z.rem (rows im) (output_size W) = 0 ->
  reconstructed W (crop_engine (crop_size W)) im = im.
Proof.
  intros Hcfg HCS Hbs Hwf HW HH.
  destruct (pass_geometry W im Hcfg HCS Hwf HW HH)
    as (Eos & Eibs & Eobs & Eop & EW & EH & HWN & HHN & EBN).
  pose proof Hwf as (Hr0 & Hc0 & _).
  apply Mat_ext; auto.
  - apply Mat_tab_wf; assumption.
  - intros y x Hy Hx. cbn [rows cols reconstructed Mat_tab] in Hy, Hx.
    unfold reconstructed. rewrite Mat_at_tab by assumption.
    rewrite core_value_crop_engine by (try exact (proj1 Hcfg); assumption).
    pose proof (Z.mod_pos_bound y (crop_size W) HCS) as Hym.
    pose proof (Z.mod_pos_bound x (crop_size W) HCS) as Hxm.
    pose proof (Z.div_mod y (crop_size W) ltac:(lia)) as Ey.
    pose proof (Z.div_mod x (crop_size W) ltac:(lia)) as Ex.
    destruct (tile_of_pixel (crop_size W) (Z.quot (cols im) (output_size W))
                (Z.quot (rows im) (output_size W)) y x HCS ltac:(lia) ltac:(lia))
      as (Hk & Er & Eq).
    fold (tile_of W (cols im) y x) in Hk, Er, Eq.
    rewrite <- EBN in Hk.
    rewrite (core_value_tilewise W im Hcfg HCS Hbs Hwf HW HH) by assumption.
    unfold centre_crop.
    rewrite zth_ztab
      by (rewrite Eobs; destruct (core_row_fits (crop_size W) (y mod crop_size W) HCS Hym);
          lia).
    destruct (cell_div_mod (output_block_size W) (y mod crop_size W + 1)
                (1 + x mod crop_size W) ltac:(lia)) as [Ed Em].
    replace ((y mod crop_size W + 1) * output_block_size W + 1 + x mod crop_size W)
      with ((y mod crop_size W + 1) * output_block_size W + (1 + x mod crop_size W))
      by lia.
    rewrite Ed, Em.
    pose proof (tile_input_inside W im (tile_of W (cols im) y x)
                  (y mod crop_size W + 1 + layer_num) (1 + x mod crop_size W + layer_num)
                  (proj1 Hcfg) HCS Hwf HW HH Hk ltac:(unfold layer_num; lia)
                  ltac:(unfold layer_num; lia)) as Hin.
    cbv zeta in Hin. destruct Hcfg as ((Ein & Eout & _) & _).
    unfold tile_h, tile_w, tile_hn, tile_wn in Hin.
    rewrite Er, Eq, Ein, Eout, Eos in Hin. unfold layer_num in *.
    rewrite Hin by lia. f_equal; lia.
Qed.

(** A pass with the network that hands back the middle of every tile. *)
Lemma identity_pass (W : Waifu2x) (im : Mat) (junk : Z -> float) :
  configured W -> 0 < crop_size W -> 0 < batch_size W -> Mat_wf im ->
  Z.rem (cols im) (output_size W) = 0 ->
  Z.rem (rows im) (output_size W) = 0 ->
  exists s,
    ReconstructImage W (crop_engine (crop_size W)) im junk
    = Some (eWaifu2xError_OK, im, with_buffers W s) /\
    configured (with_buffers W s).
Proof.
  intros Hcfg HCS Hbs Hwf HW HH.
  destruct (pass_outcome W (crop_engine (crop_size W)) im junk Hcfg HCS Hbs Hwf HW HH)
    as (e & s & E & Hc & _ & Hiff).
  assert (He : e = eWaifu2xError_OK).
  { apply Hiff. intros q _ _ Hf. exact (crop_engine_total _ _ _ Hf). }
  subst e. cbn [is_OK] in E. exists s. split; [|exact Hc].
  now rewrite E, reconstructed_crop_engine.
Qed.

Lemma reconstruct_identity (env : Env) (k : NetKind) (W : Waifu2x) (im : Mat)
    (t : list Event) :
  net_of env k = crop_engine (crop_size W) ->
  configured W -> 0 < crop_size W -> 0 < batch_size W -> Mat_wf im ->
  Z.rem (cols im) (output_size W) = 0 ->
  Z.rem (rows im) (output_size W) = 0 ->
  exists s,
    reconstruct env k W im t
    = (Ret (eWaifu2xError_OK, im, with_buffers W s),
       t ++ [EvReconstruct k eWaifu2xError_OK]) /\
    configured (with_buffers W s).
Proof.
  intros En Hcfg HCS Hbs Hwf HW HH.
  destruct (identity_pass W im (uninit env) Hcfg HCS Hbs Hwf HW HH) as (s & E & Hc).
  exists s. split; [|exact Hc]. unfold reconstruct. now rewrite En, E.
Qed.

Lemma noise_stage_identity (env : Env) (W : Waifu2x) (im : Mat) (t : list Event) :
  net_noise env = crop_engine (crop_size W) ->
  configured W -> 0 < crop_size W -> 0 < batch_size W -> Mat_wf im ->
  exists s,
    noise_stage env W im (Mat_size im) true t
    = (Ret (with_buffers W s, im), t ++ [EvReconstruct NetNoise eWaifu2xError_OK]) /\
    configured (with_buffers W s).
Proof.
  intros En Hcfg HCS Hbs Hwf.
  assert (Ht : 0 < output_size W).
  { destruct Hcfg as ((_ & _ & Eos & _) & _). lia. }
  destruct (PaddingImage_spec W im Ht Hwf) as (Hp & (_ & Mc) & (_ & Mr) & _ & _ & _ & Ecrop).
  destruct (reconstruct_identity env NetNoise W (PaddingImage W im) t En Hcfg HCS Hbs
              Hp Mc Mr) as (s & E & Hc).
  exists s. split; [|exact Hc].
  unfold noise_stage, bind. rewrite E. cbn [is_OK]. unfold ret. now rewrite Ecrop.
Qed.

Lemma zoom2x_sized (env : Env) (m : Mat) :
  resize_sized env -> Mat_wf m ->
  Mat_wf (zoom2x env m) /\ Mat_size (zoom2x env m) = mkSize (cols m * 2) (rows m * 2).
Proof.
  intros Hres (Hr & Hc & _). unfold zoom2x.
  apply Hres; cbn [width height]; lia.
Qed.

Lemma zoomed_S (env : Env) (n : nat) (m : Mat) :
  zoomed env (S n) m = zoomed env n (zoom2x env m).
Proof. reflexivity. Qed.

Lemma scale_loop_identity (env : Env) (n : nat) :
  resize_sized env ->
  forall W im t,
    net_scale env = crop_engine (crop_size W) ->
    configured W -> 0 < crop_size W -> 0 < batch_size W -> Mat_wf im ->
    exists W',
      scale_loop env n W im (Mat_size im) t
      = (Ret (W', zoomed env n im, scaled (Mat_size im) n), t ++ ok_passes NetScale n) /\
      configured W' /\ config W' = config W /\
      Mat_wf (zoomed env n im) /\ Mat_size (zoomed env n im) = scaled (Mat_size im) n.
Proof.
  intros Hres. induction n as [|n IH]; intros W im t En Hcfg HCS Hbs Hwf.
  - exists W. cbn [scale_loop zoomed ok_passes repeat]. unfold ret.
    rewrite scaled_0, app_nil_r. auto.
  - assert (Ht : 0 < output_size W).
    { destruct Hcfg as ((_ & _ & Eos & _) & _). lia. }
    destruct (zoom2x_sized env im Hres Hwf) as [Hzwf Hzs].
    destruct (PaddingImage_spec W (zoom2x env im) Ht Hzwf)
      as (Hp & (_ & Mc) & (_ & Mr) & _ & _ & _ & Ecrop).
    rewrite Hzs in Ecrop.
    cbn [scale_loop]. unfold Zoom2xAndPaddingImage, Mat_size at 1 2. cbn [width height].
    fold (zoom2x env im).
    destruct (reconstruct_identity env NetScale W (PaddingImage W (zoom2x env im)) t
                En Hcfg HCS Hbs Hp Mc Mr) as (s & E & Hc).
    unfold bind. rewrite E. cbn [is_OK].
    change (mkSize (width (Mat_size im) * 2) (height (Mat_size im) * 2))
      with (mkSize (cols im * 2) (rows im * 2)).
    rewrite Ecrop.
    destruct (IH (with_buffers W s) (zoom2x env im)
                (t ++ [EvReconstruct NetScale eWaifu2xError_OK]) En Hc HCS Hbs Hzwf)
      as (W' & E' & Hc' & Hcf & Hw' & Hs').
    rewrite Hzs in E', Hs'.
    exists W'. rewrite E'. rewrite ok_passes_S.
    change (mkSize (cols im * 2) (rows im * 2))
      with (mkSize (width (Mat_size im) * 2) (height (Mat_size im) * 2)) in *.
    rewrite scaled_S in *. auto.
Qed.

(** X2. With the network that hands back the middle of every tile, a pass
    over a padded canvas ends well and returns the canvas it was given,
    cell for cell, for every crop size and batch size: cutting the canvas
    into bordered tiles and stitching the cores loses nothing and moves
    nothing. *)
Theorem identity_network_pass (W : Waifu2x) (im : Mat) (junk : Z -> float) :
  configured W -> 0 < crop_size W -> 0 < batch_size W -> Mat_wf im ->
  Z.rem (cols im) (output_size W) = 0 ->
  Z.rem (rows im) (output_size W) = 0 ->
  exists W',
    ReconstructImage W (crop_engine (crop_size W)) im junk
    = Some (eWaifu2xError_OK, im, W') /\
    configured W' /\ config W' = config W.
Proof.
  intros Hcfg HCS Hbs Hwf HW HH.
  destruct (pass_result W (crop_engine (crop_size W)) im Hcfg HCS Hbs Hwf HW HH junk)
    as (e & s & E & _ & Hc & [(-> & _ & Hres) | (-> & q & _ & _ & Hf)]).
  - exists (with_buffers W s). split; [|split; [exact Hc | reflexivity]].
    rewrite (ReconstructImage_of_run _ _ _ _ _ _ E) by auto.
    cbn [is_OK]. rewrite Hres.
    now rewrite (reconstructed_crop_engine W im Hcfg HCS Hbs Hwf HW HH).
  - exfalso. exact (crop_engine_total _ _ _ Hf).
Qed.

(** X8. With that network, and a [cv::resize] that returns the size it is
    asked for, the denoise stage returns the plane it was given, of any
    size, and [n] turns of the upscale loop return the plane doubled [n]
    times by [cv::resize] alone, with [image_size] the size times [2 ^ n]:
    padding, pass and the removal of the padding cancel out in every
    turn. *)
Theorem stages_with_identity_network (env : Env) (W : Waifu2x) (im : Mat)
    (n : nat) (t : list Event) :
  resize_sized env ->
  configured W -> 0 < crop_size W -> 0 < batch_size W -> Mat_wf im ->
  (net_noise env = crop_engine (crop_size W) ->
   exists W',
     noise_stage env W im (Mat_size im) true t
     = (Ret (W', im), t ++ [EvReconstruct NetNoise eWaifu2xError_OK]) /\
     configured W' /\ config W' = config W) /\
  (net_scale env = crop_engine (crop_size W) ->
   exists W',
     scale_loop env n W im (Mat_size im) t
     = (Ret (W', zoomed env n im, scaled (Mat_size im) n), t ++ ok_passes NetScale n) /\
     configured W' /\ config W' = config W /\
     Mat_size (zoomed env n im) = scaled (Mat_size im) n).
Proof.
  intros Hres Hcfg HCS Hbs Hwf. split.
  - intros En. destruct (noise_stage_identity env W im t En Hcfg HCS Hbs Hwf) as (s & E & Hc).
    exists (with_buffers W s). split; [exact E|]. split; [exact Hc | reflexivity].
  - intros En.
    destruct (scale_loop_identity env n Hres W im t En Hcfg HCS Hbs Hwf)
      as (W' & E & Hc & Hcf & _ & Hs).
    exists W'. auto.
Qed.

(** X9. A whole call with the two networks handing back what they are
    given, a [cv::resize] that returns the size it is asked for and no
    cancellation: the call goes through to the output file, and the
    luminance merged with the colour planes is the luminance of the input
    doubled by [cv::resize] once per upscale turn; the image is resized to
    the final size if that differs, converted to 8 bits and written, and
    the code is that of the write. *)
Theorem waifu2x_with_identity_networks (env : Env) (W : Waifu2x)
    (input_file output_file : string) (c : waifu2xCancelFunc) (float_image : Image) :
  is_inited W = true -> configured W -> 0 < crop_size W -> 0 < batch_size W ->
  resize_sized env ->
  net_noise env = crop_engine (crop_size W) ->
  net_scale env = crop_engine (crop_size W) ->
  LoadImage env input_file = (eWaifu2xError_OK, float_image) ->
  Mat_wf (CreateBrightnessImage env float_image) ->
  probe_fires c (after_noise W input_file) = false ->
  probe_fires c (after_scale env W input_file c) = false ->
  let im0 := CreateBrightnessImage env float_image in
  let image_size := scaled (Mat_size im0) (scale_turns env W) in
  let process_image :=
    recompose env float_image (zoomed env (scale_turns env W) im0) image_size in
  let ns := shrink_size image_size (shrink_ratio env (scale_ratio W)) in
  let resized := negb (Size_eqb image_size ns) in
  let write_iamge :=
    map convertTo_8U
      (if resized then map (fun p => resize env p ns INTER_LINEAR) process_image
       else process_image) in
  let ok := imwrite env output_file write_iamge in
  let b := after_scale env W input_file c in
  waifu2x env W input_file output_file c
  = (Some (if ok then eWaifu2xError_OK else eWaifu2xError_FailedOpenOutputFile),
     b ++ poll_events c b ++ (if resized then [EvResize ns] else [])
       ++ [EvWrite output_file write_iamge ok]).
Proof.
  intros Hi Hcfg HCS Hbs Hres Enn Ens HL Hwf0 Hp1 Hp2 im0.
  assert (N : exists W1,
    noise_stage env W im0 (Mat_size im0) (isReconstructNoise_of W (isJpeg_of input_file)) []
    = (Ret (W1, im0), after_noise W input_file) /\
    configured W1 /\ config W1 = config W).
  { unfold after_noise. destruct (isReconstructNoise_of W (isJpeg_of input_file)).
    - destruct (noise_stage_identity env W im0 [] Enn Hcfg HCS Hbs Hwf0) as (s & E & Hc).
      exists (with_buffers W s). rewrite E. auto.
    - exists W. auto. }
  destruct N as (W1 & EN & Hcfg1 & Hc1).
  destruct (config_all _ _ Hc1) as (Ecs & Ebs & _).
  destruct (config_fields _ _ Hc1) as (_ & _ & Esr & _).
  assert (S : exists W2,
    scale_stage env W1 im0 (Mat_size im0) (isReconstructScale_of W)
      (ceil_log2 env (scale_ratio W))
      (after_noise W input_file ++ poll_events c (after_noise W input_file))
    = (Ret (W2, zoomed env (scale_turns env W) im0, scaled (Mat_size im0) (scale_turns env W)),
       after_scale env W input_file c)).
  { unfold scale_stage, after_scale, scale_turns.
    destruct (isReconstructScale_of W).
    - destruct (scale_loop_identity env (Z.to_nat (ceil_log2 env (scale_ratio W))) Hres W1 im0
                  (after_noise W input_file ++ poll_events c (after_noise W input_file))
                  ltac:(now rewrite Ecs) Hcfg1 ltac:(lia) ltac:(lia) Hwf0)
        as (W2 & E & _).
      exists W2. rewrite E, <- app_assoc. reflexivity.
    - exists W1. unfold ret. cbn [zoomed ok_passes repeat].
      now rewrite scaled_0, !app_nil_r. }
  destruct S as (W2 & ES).
  cbv zeta. unfold waifu2x, waifu2x_body.
  rewrite Hi, HL. cbn [negb is_OK]. cbv zeta. fold im0.
  unfold bind at 1. rewrite EN.
  unfold bind at 1. rewrite poll_cases, Hp1.
  unfold bind at 1. rewrite Esr, ES.
  unfold bind at 1. rewrite poll_cases, Hp2.
  rewrite write_stage_run. cbv zeta.
  fold (shrink_ratio env (scale_ratio W)).
  rewrite <- app_assoc.
  match goal with
  | |- context [imwrite env output_file ?img] => destruct (imwrite env output_file img)
  end; reflexivity.
Qed.

(** ** [init] and [destroy] *)

Lemma dleb_0_false (q : Q) : dleb (Fin q) (Fin 0) = false <-> (0 < q)%Q.
Proof.
  cbn [dleb]. split.
  - intros E. apply Qnot_le_lt. intros H. apply Qle_bool_iff in H. congruence.
  - intros H. apply Qle_bool_false. exact H.
Qed.

Lemma not_inited_run (env : Env) (W : Waifu2x) (input_file output_file : string)
    (c : waifu2xCancelFunc) :
  is_inited W = false ->
  waifu2x env W input_file output_file c = (Some eWaifu2xError_NotInitialized, []).
Proof. intros E. unfold waifu2x, waifu2x_body. now rewrite E. Qed.

Lemma init_not_inited (W : Waifu2x) (Mode : string) (NoiseLevel : Z) (ScaleRatio : double)
    (CropSize BatchSize : Z) (env : eWaifu2xError) (junk : Z -> float) :
  is_inited W = false -> dleb ScaleRatio (Fin 0) = false ->
  let r := init W Mode NoiseLevel ScaleRatio CropSize BatchSize env junk in
  (env <> eWaifu2xError_OK -> fst r = env /\ is_inited (snd r) = false) /\
  (env = eWaifu2xError_OK -> room CropSize BatchSize = false ->
   fst r = eWaifu2xError_InvalidParameter /\ is_inited (snd r) = false) /\
  (env = eWaifu2xError_OK -> room CropSize BatchSize = true ->
   r = (eWaifu2xError_OK,
        mkWaifu2x true Mode NoiseLevel ScaleRatio CropSize BatchSize
          7 1 CropSize (CropSize + 16) 142 (CropSize + 2)
          (ztab ((CropSize + 16) * (CropSize + 16) * BatchSize) junk)
          (ztab ((CropSize + 16) * (CropSize + 16) * BatchSize) (fun _ => 0%Q))
          (ztab ((CropSize + 2) * (CropSize + 2) * BatchSize) junk))).
Proof.
  intros Hi Hr r. subst r. unfold init, room. rewrite Hi, Hr. cbv zeta.
  unfold layer_num, offset.
  replace (CropSize + (7 + 1) * 2) with (CropSize + 16) by lia.
  replace (CropSize + (7 + 1 - 7) * 2) with (CropSize + 2) by lia.
  replace (CropSize - 0 * 2) with CropSize by lia.
  change (128 + 7 * 2) with 142.
  split; [|split].
  - intros Hne. destruct env; try contradiction; split; reflexivity.
  - intros -> Hroom. apply andb_false_iff in Hroom.
    destruct (Z.ltb_spec ((CropSize + 16) * (CropSize + 16) * BatchSize) 0);
      [split; reflexivity|].
    destruct (Z.ltb_spec ((CropSize + 2) * (CropSize + 2) * BatchSize) 0);
      [split; reflexivity|].
    exfalso. destruct Hroom as [H1 | H1]; apply Z.leb_gt in H1; lia.
  - intros -> Hroom. apply andb_true_iff in Hroom as [H1 H2].
    apply Z.leb_le in H1, H2.
    destruct (Z.ltb_spec ((CropSize + 16) * (CropSize + 16) * BatchSize) 0); [lia|].
    destruct (Z.ltb_spec ((CropSize + 2) * (CropSize + 2) * BatchSize) 0); [lia|].
    reflexivity.
Qed.

Lemma room_batch (CropSize BatchSize : Z) :
  room CropSize BatchSize = true -> 0 <= BatchSize.
Proof.
  unfold room. intros H. apply andb_true_iff in H as [H1 H2].
  apply Z.leb_le in H1, H2.
  destruct (Z_lt_le_dec BatchSize 0) as [Hneg | Hpos]; [exfalso | exact Hpos].
  assert (A : (CropSize + 16) * (CropSize + 16) <= 0) by nia.
  assert (B : (CropSize + 2) * (CropSize + 2) <= 0) by nia.
  assert (CropSize + 16 = 0) by nia. assert (CropSize + 2 = 0) by nia. lia.
Qed.

(** X10. [init] on an object that is not initialised.  A ratio for which
    [ScaleRatio <= 0.0] holds gives [eWaifu2xError_InvalidParameter] and
    leaves the object as it was; the test lets through the positive
    ratios, the positive infinity and NaN.  Past the test, a failure of the
    outside steps is returned as it is; when they succeed, the call returns
    [eWaifu2xError_InvalidParameter] if a buffer would get a negative
    length, as it does for every negative batch size, and
    [eWaifu2xError_OK] otherwise.  The object is initialised exactly on
    success, and then the batch size is not negative and the sizes are
    those the passes rely on; after a failure every call of [waifu2x]
    returns [eWaifu2xError_NotInitialized] without doing anything. *)
Theorem init_outcome (W : Waifu2x) (Mode : string) (NoiseLevel : Z) (ScaleRatio : double)
    (CropSize BatchSize : Z) (env : eWaifu2xError) (junk : Z -> float) :
  is_inited W = false ->
  let e := fst (init W Mode NoiseLevel ScaleRatio CropSize BatchSize env junk) in
  let W' := snd (init W Mode NoiseLevel ScaleRatio CropSize BatchSize env junk) in
  (e = eWaifu2xError_OK <->
   dleb ScaleRatio (Fin 0) = false /\ env = eWaifu2xError_OK /\
   room CropSize BatchSize = true) /\
  (dleb ScaleRatio (Fin 0) = true -> e = eWaifu2xError_InvalidParameter /\ W' = W) /\
  (dleb NaN (Fin 0) = false /\ dleb (Inf false) (Fin 0) = false /\
   dleb (Inf true) (Fin 0) = true /\
   forall q, dleb (Fin q) (Fin 0) = false <-> (0 < q)%Q) /\
  (dleb ScaleRatio (Fin 0) = false -> env <> eWaifu2xError_OK -> e = env) /\
  (dleb ScaleRatio (Fin 0) = false -> env = eWaifu2xError_OK ->
   room CropSize BatchSize = false -> e = eWaifu2xError_InvalidParameter) /\
  (BatchSize < 0 -> e <> eWaifu2xError_OK) /\
  is_inited W' = is_OK e /\
  (e = eWaifu2xError_OK ->
   sized W' /\ mode W' = Mode /\ noise_level W' = NoiseLevel /\
   scale_ratio W' = ScaleRatio /\ crop_size W' = CropSize /\ batch_size W' = BatchSize /\
   0 <= BatchSize /\ (0 < CropSize -> configured W')) /\
  (e <> eWaifu2xError_OK ->
   forall env' input_file output_file c,
     waifu2x env' W' input_file output_file c
     = (Some eWaifu2xError_NotInitialized, [])).
Proof.
  intros Hi e W'.
  assert (T : dleb NaN (Fin 0) = false /\ dleb (Inf false) (Fin 0) = false /\
              dleb (Inf true) (Fin 0) = true /\
              forall q, dleb (Fin q) (Fin 0) = false <-> (0 < q)%Q).
  { repeat (split; [reflexivity|]). exact dleb_0_false. }
  destruct (dleb ScaleRatio (Fin 0)) eqn:Er.
  - assert (E : init W Mode NoiseLevel ScaleRatio CropSize BatchSize env junk
                = (eWaifu2xError_InvalidParameter, W)).
    { unfold init. now rewrite Hi, Er. }
    subst e W'. rewrite E. cbn [fst snd is_OK]. rewrite Hi.
    split; [split; [discriminate | intros [H _]; discriminate H]|].
    split; [auto|]. split; [exact T|].
    split; [discriminate|]. split; [discriminate|]. split; [discriminate|].
    split; [reflexivity|]. split; [discriminate|].
    intros _ env' input_file output_file c. now apply not_inited_run.
  - destruct (init_not_inited W Mode NoiseLevel ScaleRatio CropSize BatchSize env junk Hi Er)
      as (F1 & F2 & F3).
    cbv zeta in F1, F2, F3. fold e W' in F1, F2.
    assert (Cases : (e <> eWaifu2xError_OK /\ is_inited W' = false /\
                     (env <> eWaifu2xError_OK \/ room CropSize BatchSize = false)) \/
                    (e = eWaifu2xError_OK /\ env = eWaifu2xError_OK /\
                     room CropSize BatchSize = true /\
                     init W Mode NoiseLevel ScaleRatio CropSize BatchSize env junk
                     = (eWaifu2xError_OK,
                        mkWaifu2x true Mode NoiseLevel ScaleRatio CropSize BatchSize
                          7 1 CropSize (CropSize + 16) 142 (CropSize + 2)
                          (ztab ((CropSize + 16) * (CropSize + 16) * BatchSize) junk)
                          (ztab ((CropSize + 16) * (CropSize + 16) * BatchSize)
                             (fun _ => 0%Q))
                          (ztab ((CropSize + 2) * (CropSize + 2) * BatchSize) junk)))).
    { destruct (is_OK env) eqn:Eo.
      - assert (Ee : env = eWaifu2xError_OK) by (destruct env; try discriminate; reflexivity).
        destruct (room CropSize BatchSize) eqn:Em.
        + right. specialize (F3 Ee eq_refl). subst e. rewrite F3. auto.
        + left. destruct (F2 Ee eq_refl) as [G1 G2]. rewrite G1.
          split; [discriminate|]. auto.
      - assert (Ne : env <> eWaifu2xError_OK) by (intros ->; discriminate).
        left. destruct (F1 Ne) as [G1 G2]. rewrite G1. auto. }
    split.
    { split.
      - intros Ee. destruct Cases as [(Ne & _) | (_ & E1 & E2 & _)]; [contradiction | auto].
      - intros (_ & E1 & E2). destruct Cases as [(_ & _ & [N | N]) | (Ee & _)];
          [contradiction | congruence | exact Ee]. }
    split; [discriminate|]. split; [exact T|].
    split; [intros _ Ne; exact (proj1 (F1 Ne))|].
    split; [intros _ Ee Em; exact (proj1 (F2 Ee Em))|].
    split.
    { intros Hb Ee. destruct Cases as [(Ne & _) | (_ & _ & Em & _)]; [contradiction|].
      apply room_batch in Em. lia. }
    split.
    { destruct Cases as [(Ne & Hn & _) | (Ee & _ & _ & E)].
      - rewrite Hn. destruct e; try reflexivity. contradiction.
      - rewrite Ee. subst W'. rewrite E. reflexivity. }
    split.
    { intros Ee. destruct Cases as [(Ne & _) | (_ & _ & Em & E)]; [contradiction|].
      subst W'. rewrite E. cbn [snd].
      assert (Hs : forall ib dd ob, sized (mkWaifu2x true Mode NoiseLevel ScaleRatio CropSize
                BatchSize 7 1 CropSize (CropSize + 16) 142 (CropSize + 2) ib dd ob)).
      { intros. unfold sized, layer_num. cbn. repeat split; lia. }
      split; [apply Hs|]. repeat (split; [reflexivity|]).
      pose proof (room_batch _ _ Em) as HB. split; [exact HB|].
      intros HC. split; [apply Hs|].
      cbn [input_block output_block input_block_size output_block_size batch_size].
      rewrite !zlen_ztab; [auto | |]; nia. }
    intros Ne env' input_file output_file c. apply not_inited_run.
    destruct Cases as [(_ & Hn & _) | (Ee & _)]; [exact Hn | contradiction].
Qed.

(** X11. On an initialised object [init] returns [eWaifu2xError_OK] and
    changes nothing, whatever its arguments, even a ratio that is not
    positive or outside steps that would fail.  After [destroy] the object
    is not initialised, [waifu2x] returns [eWaifu2xError_NotInitialized]
    with an empty history, a successful [init] gives the object a fresh
    one would give, and a second [destroy] changes nothing. *)
Theorem init_destroy_lifecycle (W : Waifu2x) :
  is_inited W = true ->
  (forall Mode NoiseLevel ScaleRatio CropSize BatchSize env junk,
     init W Mode NoiseLevel ScaleRatio CropSize BatchSize env junk
     = (eWaifu2xError_OK, W)) /\
  is_inited (destroy W) = false /\
  (forall env input_file output_file c,
     waifu2x env (destroy W) input_file output_file c
     = (Some eWaifu2xError_NotInitialized, [])) /\
  (forall Mode NoiseLevel ScaleRatio CropSize BatchSize junk,
     dleb ScaleRatio (Fin 0) = false ->
     init (destroy W) Mode NoiseLevel ScaleRatio CropSize BatchSize eWaifu2xError_OK junk
     = init Waifu2x_new Mode NoiseLevel ScaleRatio CropSize BatchSize eWaifu2xError_OK junk) /\
  destroy (destroy W) = destroy W.
Proof.
  intros Hi. split; [|split; [|split; [|split]]].
  - intros. unfold init. now rewrite Hi.
  - reflexivity.
  - intros. now apply not_inited_run.
  - intros Mode NL SR CS BS junk H.
    unfold init. cbn [is_inited destroy Waifu2x_new]. rewrite H. reflexivity.
  - reflexivity.
Qed.

(** ** What a history can hold *)

Lemma out_after_quiet (l tail t1 t2 : list Event) (x : Event) :
  Forall (fun ev => is_out ev = false) l -> is_out x = true ->
  l ++ tail = t1 ++ x :: t2 ->
  exists m, tail = m ++ x :: t2 /\ t1 = l ++ m.
Proof.
  intros Hl Hx E. apply split_mid in E as [(m & E & _) | (m & E & ->)].
  - subst l. apply Forall_mid in Hl. congruence.
  - exists m. auto.
Qed.

Lemma no_out_after_noise W input_file :
  Forall (fun ev => is_out ev = false) (after_noise W input_file).
Proof. unfold after_noise. destruct (isReconstructNoise_of _ _); repeat constructor. Qed.

Lemma no_out_poll_events c t : Forall (fun ev => is_out ev = false) (poll_events c t).
Proof. destruct c; repeat constructor. Qed.

Lemma no_out_ok_passes k n : Forall (fun ev => is_out ev = false) (ok_passes k n).
Proof. induction n; cbn; constructor; auto. Qed.

Lemma no_out_after_scale env W input_file c :
  Forall (fun ev => is_out ev = false) (after_scale env W input_file c).
Proof.
  unfold after_scale. rewrite !Forall_app.
  auto using no_out_after_noise, no_out_poll_events, no_out_ok_passes.
Qed.

Lemma no_out_nil : Forall (fun ev : Event => is_out ev = false) [].
Proof. constructor. Qed.

Lemma no_out_pass k e : Forall (fun ev => is_out ev = false) [EvReconstruct k e].
Proof. repeat constructor. Qed.

Lemma no_out_not_in (l t1 t2 : list Event) (x : Event) :
  Forall (fun ev => is_out ev = false) l -> is_out x = true -> l <> t1 ++ x :: t2.
Proof. intros Hl Hx ->. apply Forall_mid in Hl. congruence. Qed.

Lemma no_out_counts (l : list Event) :
  Forall (fun ev => is_out ev = false) l -> writes l = O /\ resizes l = [].
Proof.
  induction 1 as [|x l Hx _ [IH1 IH2]]; [split; reflexivity|].
  unfold writes, count in *. cbn [filter resizes flat_map].
  destruct x; cbn in Hx |- *; try discriminate; auto.
Qed.

(** The part of a history that holds neither a resize nor a write, and the
    rest, which is empty unless the call reached the output file. *)
Lemma run_tail env W input_file output_file c r t :
  run_shape env W input_file output_file c r t ->
  exists pre,
    Forall (fun ev => is_out ev = false) pre /\
    ((t = pre /\ r <> Some eWaifu2xError_OK /\
      r <> Some eWaifu2xError_FailedOpenOutputFile) \/
     (exists image ns (resized : bool),
        let ok := imwrite env output_file image in
        t = pre ++ (if resized then [EvResize ns] else []) ++ [EvWrite output_file image ok] /\
        r = Some (if ok then eWaifu2xError_OK else eWaifu2xError_FailedOpenOutputFile))).
Proof.
  intros Sh. inversion Sh; subst; unlet.
  - exists []. split; [constructor|]. left. repeat split; discriminate.
  - exists []. split; [constructor|]. left. repeat split; discriminate.
  - exists []. split; [constructor|]. left. repeat split; discriminate.
  - eexists. split; [apply no_out_pass|]. left. repeat split; discriminate.
  - eexists. split; [|left; split; [reflexivity | split; discriminate]].
    rewrite Forall_app. auto using no_out_after_noise, no_out_poll_events.
  - eexists. split; [|left; split; [reflexivity | split; discriminate]].
    rewrite !Forall_app. auto using no_out_after_noise, no_out_poll_events, no_out_ok_passes.
  - eexists. split; [|left; split; [reflexivity | split; discriminate]].
    rewrite !Forall_app.
    auto using no_out_after_noise, no_out_poll_events, no_out_ok_passes, no_out_pass.
  - eexists. split; [|left; split; [reflexivity | split; discriminate]].
    rewrite Forall_app. auto using no_out_after_scale, no_out_poll_events.
  - exists (after_scale env W input_file c ++ poll_events c (after_scale env W input_file c)).
    split; [rewrite Forall_app; auto using no_out_after_scale, no_out_poll_events|].
    right. eexists _, _, _. cbv zeta. rewrite <- app_assoc. split; reflexivity.
Qed.

(** X12. A call writes at most one file and resizes at most once.  A write
    is the last event of the history, its file is [output_file], and the
    code of the call is that of the write; a resize is followed by the
    write and nothing else.  The call returns [eWaifu2xError_OK] exactly
    when its history ends with a write that succeeded, and
    [eWaifu2xError_FailedOpenOutputFile] exactly when it ends with a write
    that failed; with any other code nothing was resized or written. *)
Theorem output_file_written_last env W input_file output_file c r t :
  waifu2x env W input_file output_file c = (r, t) ->
  (writes t <= 1)%nat /\ (List.length (resizes t) <= 1)%nat /\
  (forall t1 file image ok t2, t = t1 ++ EvWrite file image ok :: t2 ->
     t2 = [] /\ file = output_file /\ ok = imwrite env output_file image /\
     r = Some (if ok then eWaifu2xError_OK else eWaifu2xError_FailedOpenOutputFile)) /\
  (forall t1 ns t2, t = t1 ++ EvResize ns :: t2 ->
     exists image ok, t2 = [EvWrite output_file image ok]) /\
  (r = Some eWaifu2xError_OK <->
   exists t1 image, t = t1 ++ [EvWrite output_file image true]) /\
  (r = Some eWaifu2xError_FailedOpenOutputFile <->
   exists t1 image, t = t1 ++ [EvWrite output_file image false]) /\
  (r <> Some eWaifu2xError_OK -> r <> Some eWaifu2xError_FailedOpenOutputFile ->
   writes t = O /\ resizes t = []).
Proof.
  intros E. apply waifu2x_shape in E.
  destruct (run_tail _ _ _ _ _ _ _ E) as (pre & Hpre & H).
  destruct (no_out_counts pre Hpre) as [Hw Hr].
  assert (W1 : forall t1 file image ok t2, t = t1 ++ EvWrite file image ok :: t2 ->
     t2 = [] /\ file = output_file /\ ok = imwrite env output_file image /\
     r = Some (if ok then eWaifu2xError_OK else eWaifu2xError_FailedOpenOutputFile)).
  { intros t1 file image ok t2 Et.
    destruct H as [(-> & _) | (img & ns & resized & Et' & ->)].
    - exfalso. exact (no_out_not_in _ _ _ (EvWrite file image ok) Hpre eq_refl Et).
    - cbv zeta in Et'. rewrite Et' in Et.
      apply (out_after_quiet _ _ _ _ (EvWrite file image ok) Hpre eq_refl) in Et
        as (m & Em & ->).
      destruct resized; cbn [app] in Em.
      + destruct m as [|x m]; [discriminate|]. injection Em as <- Em.
        destruct m as [|y m]; [|injection Em as _ Em; destruct m; discriminate].
        cbn in Em. injection Em as <- <- <- <-. auto.
      + destruct m as [|x m]; [|injection Em as _ Em; destruct m; discriminate].
        cbn in Em. injection Em as <- <- <- <-. auto. }
  split; [|split; [|split; [exact W1|split; [|split; [|split]]]]].
  - destruct H as [(-> & _) | (img & ns & resized & Et' & _)]; [lia|].
    cbv zeta in Et'. rewrite Et'. unfold writes in *. rewrite !count_app, Hw.
    destruct resized; cbn; lia.
  - destruct H as [(-> & _) | (img & ns & resized & Et' & _)]; [rewrite Hr; cbn; lia|].
    cbv zeta in Et'. rewrite Et', !resizes_app, Hr.
    destruct resized; cbn; lia.
  - intros t1 ns t2 Et.
    destruct H as [(-> & _) | (img & ns' & resized & Et' & _)].
    + exfalso. exact (no_out_not_in _ _ _ (EvResize ns) Hpre eq_refl Et).
    + cbv zeta in Et'. rewrite Et' in Et.
      apply (out_after_quiet _ _ _ _ (EvResize ns) Hpre eq_refl) in Et as (m & Em & ->).
      destruct resized; cbn [app] in Em.
      * destruct m as [|x m].
        -- injection Em as <- <-. eauto.
        -- injection Em as _ Em. destruct m as [|y m]; [discriminate|].
           injection Em as _ Em. destruct m; discriminate.
      * destruct m as [|x m]; [discriminate|].
        injection Em as _ Em. destruct m; discriminate.
  - split.
    + intros ->. destruct H as [(_ & Hn & _) | (img & ns & resized & Et' & Er)].
      * contradiction Hn. reflexivity.
      * cbv zeta in Et'. destruct (imwrite env output_file img); [|discriminate].
        exists (pre ++ (if resized then [EvResize ns] else [])), img.
        rewrite Et', <- app_assoc. reflexivity.
    + intros (t1 & img & Et). destruct (W1 _ _ _ _ _ Et) as (_ & _ & _ & ->). reflexivity.
  - split.
    + intros ->. destruct H as [(_ & _ & Hn) | (img & ns & resized & Et' & Er)].
      * contradiction Hn. reflexivity.
      * cbv zeta in Et'. destruct (imwrite env output_file img); [discriminate|].
        exists (pre ++ (if resized then [EvResize ns] else [])), img.
        rewrite Et', <- app_assoc. reflexivity.
    + intros (t1 & img & Et). destruct (W1 _ _ _ _ _ Et) as (_ & _ & _ & ->). reflexivity.
  - intros H1 H2. destruct H as [(-> & _) | (img & ns & resized & _ & ->)]; [auto|].
    destruct (imwrite env output_file img); [contradiction H1 | contradiction H2]; reflexivity.
Qed.

Lemma not_noise_poll_events c t :
  Forall (fun ev => is_pass NetNoise ev = false) (poll_events c t).
Proof. destruct c; repeat constructor. Qed.

Lemma not_noise_ok_passes n :
  Forall (fun ev => is_pass NetNoise ev = false) (ok_passes NetScale n).
Proof. induction n; cbn; constructor; auto. Qed.

Lemma count_none (p : Event -> bool) (l : list Event) :
  Forall (fun ev => p ev = false) l -> count p l = O.
Proof.
  intros H. unfold count. induction H as [|x l Hx _ IH]; [reflexivity|].
  cbn [filter]. now rewrite Hx.
Qed.

Lemma passes_scale_ok_passes n : passes NetScale (ok_passes NetScale n) = n.
Proof. unfold passes, ok_passes. now rewrite count_repeat. Qed.

(** The head of a history: the denoise pass, if there is one. *)
Lemma run_head env W input_file output_file c r t :
  run_shape env W input_file output_file c r t ->
  exists N rest,
    t = N ++ rest /\
    (N = [] \/
     exists e, N = [EvReconstruct NetNoise e] /\
       isReconstructNoise_of W (isJpeg_of input_file) = true) /\
    Forall (fun ev => is_pass NetNoise ev = false) rest /\
    (passes NetScale rest <= scale_turns env W)%nat /\
    (r = Some eWaifu2xError_OK ->
     passes NetScale rest = scale_turns env W /\
     (isReconstructNoise_of W (isJpeg_of input_file) = true -> N <> [])).
Proof.
  assert (HN : after_noise W input_file = [] \/
               exists e, after_noise W input_file = [EvReconstruct NetNoise e] /\
                 isReconstructNoise_of W (isJpeg_of input_file) = true).
  { unfold after_noise. destruct (isReconstructNoise_of W (isJpeg_of input_file));
      [right; eexists; split; reflexivity | left; reflexivity]. }
  assert (HNne : isReconstructNoise_of W (isJpeg_of input_file) = true ->
                 after_noise W input_file <> []).
  { unfold after_noise. intros ->. discriminate. }
  intros Sh. inversion Sh; subst; unlet.
  - exists [], []. repeat split; try constructor; try discriminate; auto. cbn. lia.
  - exists [], []. repeat split; try constructor; try discriminate; auto. cbn. lia.
  - exists [], []. repeat split; try constructor; try discriminate; auto. cbn. lia.
  - exists [EvReconstruct NetNoise eWaifu2xError_FailedProcessCaffe], [].
    split; [reflexivity|]. split; [right; eauto|]. split; [constructor|].
    split; [cbn; lia | discriminate].
  - exists (after_noise W input_file), (poll_events c (after_noise W input_file)).
    split; [reflexivity|]. split; [exact HN|]. split; [apply not_noise_poll_events|].
    rewrite passes_poll_events. split; [lia | discriminate].
  - exists (after_noise W input_file),
      (poll_events c (after_noise W input_file) ++ ok_passes NetScale j).
    split; [reflexivity|]. split; [exact HN|].
    split; [rewrite Forall_app; auto using not_noise_poll_events, not_noise_ok_passes|].
    unfold passes. rewrite count_app. fold (passes NetScale (poll_events c (after_noise W input_file))).
    fold (passes NetScale (ok_passes NetScale j)).
    rewrite passes_poll_events, passes_scale_ok_passes. split; [lia | discriminate].
  - exists (after_noise W input_file),
      (poll_events c (after_noise W input_file) ++ ok_passes NetScale j
         ++ [EvReconstruct NetScale eWaifu2xError_FailedProcessCaffe]).
    split; [reflexivity|]. split; [exact HN|].
    split; [rewrite !Forall_app; repeat split;
            auto using not_noise_poll_events, not_noise_ok_passes; repeat constructor|].
    unfold passes. rewrite !count_app.
    fold (passes NetScale (poll_events c (after_noise W input_file))).
    fold (passes NetScale (ok_passes NetScale j)).
    rewrite passes_poll_events, passes_scale_ok_passes. cbn. split; [lia | discriminate].
  - exists (after_noise W input_file),
      (poll_events c (after_noise W input_file) ++ ok_passes NetScale (scale_turns env W)
         ++ poll_events c (after_scale env W input_file c)).
    unfold after_scale at 1. rewrite <- !app_assoc.
    split; [reflexivity|]. split; [exact HN|].
    split; [rewrite !Forall_app; repeat split;
            auto using not_noise_poll_events, not_noise_ok_passes|].
    unfold passes. rewrite !count_app.
    fold (passes NetScale (poll_events c (after_noise W input_file))).
    fold (passes NetScale (ok_passes NetScale (scale_turns env W))).
    fold (passes NetScale (poll_events c (after_scale env W input_file c))).
    rewrite !passes_poll_events, passes_scale_ok_passes. split; [lia | discriminate].
  - eexists (after_noise W input_file),
      (poll_events c (after_noise W input_file) ++ ok_passes NetScale (scale_turns env W)
         ++ poll_events c (after_scale env W input_file c) ++ _).
    unfold after_scale at 1. rewrite <- !app_assoc.
    split; [reflexivity|]. split; [exact HN|].
    split.
    { rewrite !Forall_app; repeat split;
        auto using not_noise_poll_events, not_noise_ok_passes;
        try match goal with |- context [negb ?b] => destruct (negb b) end;
        repeat constructor. }
    unfold passes. rewrite !count_app.
    fold (passes NetScale (poll_events c (after_noise W input_file))).
    fold (passes NetScale (ok_passes NetScale (scale_turns env W))).
    fold (passes NetScale (poll_events c (after_scale env W input_file c))).
    rewrite !passes_poll_events, passes_scale_ok_passes.
    match goal with |- context [negb ?b] => destruct (negb b) end; cbn;
      (split; [lia | intros _; split; [lia | exact HNne]]).
Qed.

(** X13. In the history of a call there is at most one denoise pass, none
    when the mode and the file name ask for none, and it is the first event;
    there are at most as many upscale passes as the loop has turns; no pass
    comes after a resize or a write; and a call that returns
    [eWaifu2xError_OK] has run the denoise pass if one was asked for and
    all the turns of the loop. *)
Theorem passes_in_order env W input_file output_file c r t :
  waifu2x env W input_file output_file c = (r, t) ->
  (passes NetNoise t <= 1)%nat /\
  (isReconstructNoise_of W (isJpeg_of input_file) = false -> passes NetNoise t = O) /\
  (forall t1 e t2, t = t1 ++ EvReconstruct NetNoise e :: t2 -> t1 = []) /\
  (passes NetScale t <= scale_turns env W)%nat /\
  (forall t1 k e t2, t = t1 ++ EvReconstruct k e :: t2 ->
     writes t1 = O /\ resizes t1 = []) /\
  (r = Some eWaifu2xError_OK ->
   passes NetScale t = scale_turns env W /\
   passes NetNoise t
   = if isReconstructNoise_of W (isJpeg_of input_file) then 1%nat else O).
Proof.
  intros E. apply waifu2x_shape in E.
  destruct (run_head _ _ _ _ _ _ _ E) as (N & rest & Et & HN & Hrest & Hsc & Hok).
  pose proof (count_none _ _ Hrest) as Hn0. fold (passes NetNoise rest) in Hn0.
  assert (HcN : passes NetNoise t = List.length N /\ passes NetScale t = passes NetScale rest).
  { subst t. unfold passes. rewrite !count_app. fold (passes NetNoise rest). rewrite Hn0.
    destruct HN as [-> | (e & -> & _)]; cbn; split; lia. }
  destruct HcN as [HcN HcS].
  split; [|split; [|split; [|split; [|split]]]].
  - rewrite HcN. destruct HN as [-> | (e & -> & _)]; cbn; lia.
  - intros Hf. rewrite HcN. destruct HN as [-> | (e & -> & Ht)]; [reflexivity | congruence].
  - intros t1 e t2 Et2. rewrite Et in Et2.
    destruct HN as [-> | (e0 & -> & _)].
    + cbn [app] in Et2. subst rest. apply Forall_mid in Hrest. discriminate.
    + destruct t1 as [|x t1]; [reflexivity|].
      cbn [app] in Et2. injection Et2 as _ Et2. subst rest.
      apply Forall_mid in Hrest. discriminate.
  - now rewrite HcS.
  - intros t1 k e t2 Et2.
    destruct (run_tail _ _ _ _ _ _ _ E) as (pre & Hpre & H).
    assert (Hsub : exists m, pre = t1 ++ EvReconstruct k e :: m).
    { destruct H as [(-> & _) | (img & ns & resized & Et' & _)].
      - exists t2. exact Et2.
      - cbv zeta in Et'. rewrite Et' in Et2.
        apply split_mid in Et2 as [(m & Em & _) | (m & Em & _)]; [eauto|].
        exfalso. destruct resized; cbn [app] in Em.
        + destruct m as [|x m]; [discriminate|]. injection Em as _ Em.
          destruct m as [|y m]; [discriminate|]. injection Em as _ Em.
          destruct m; discriminate.
        + destruct m as [|x m]; [discriminate|]. injection Em as _ Em.
          destruct m; discriminate. }
    destruct Hsub as (m & ->). apply Forall_app in Hpre as [Hpre _].
    exact (no_out_counts _ Hpre).
  - intros Hr. destruct (Hok Hr) as [Hs Hne]. split; [congruence|].
    rewrite HcN. destruct HN as [-> | (e & -> & ->)]; [|reflexivity].
    destruct (isReconstructNoise_of W (isJpeg_of input_file)); [|reflexivity].
    exfalso. now apply Hne.
Qed.

(** ** Modes that run no pass *)

(** X14. When the mode is none of "noise", "noise_scale" and "scale", and
    is not "auto_scale" on a JPEG file name (so for "auto_scale" on any
    other file, and for any string that is no mode at all), a call on an
    initialised object runs no pass: without a cancellation it still goes
    through to the output file, and what it writes is made of the
    luminance of the input as it was read, resized by the final factor.
    Neither the batch size nor the networks matter. *)
Theorem no_pass_when_mode_asks_none (env : Env) (W : Waifu2x)
    (input_file output_file : string) (c : waifu2xCancelFunc) (float_image : Image) :
  is_inited W = true ->
  mode W <> "noise"%string -> mode W <> "noise_scale"%string ->
  mode W <> "scale"%string ->
  (mode W = "auto_scale"%string -> isJpeg_of input_file = false) ->
  LoadImage env input_file = (eWaifu2xError_OK, float_image) ->
  probe_fires c [] = false ->
  probe_fires c (poll_events c []) = false ->
  let im0 := CreateBrightnessImage env float_image in
  let image_size := Mat_size im0 in
  let process_image := recompose env float_image im0 image_size in
  let ns := shrink_size image_size (shrink_ratio env (scale_ratio W)) in
  let resized := negb (Size_eqb image_size ns) in
  let write_iamge :=
    map convertTo_8U
      (if resized then map (fun p => resize env p ns INTER_LINEAR) process_image
       else process_image) in
  let ok := imwrite env output_file write_iamge in
  waifu2x env W input_file output_file c
  = (Some (if ok then eWaifu2xError_OK else eWaifu2xError_FailedOpenOutputFile),
     poll_events c [] ++ poll_events c (poll_events c [])
       ++ (if resized then [EvResize ns] else [])
       ++ [EvWrite output_file write_iamge ok]).
Proof.
  intros Hi Hm1 Hm2 Hm3 Hm4 HL Hp1 Hp2. cbv zeta.
  assert (Hn : isReconstructNoise_of W (isJpeg_of input_file) = false).
  { unfold isReconstructNoise_of.
    apply String.eqb_neq in Hm1, Hm2. rewrite Hm1, Hm2. cbn [orb].
    destruct (String.eqb_spec (mode W) "auto_scale") as [E | _]; [|reflexivity].
    now rewrite (Hm4 E). }
  assert (Hs : isReconstructScale_of W = false).
  { unfold isReconstructScale_of.
    apply String.eqb_neq in Hm2, Hm3. now rewrite Hm2, Hm3. }
  unfold waifu2x, waifu2x_body.
  rewrite Hi, HL, Hn, Hs. cbn [negb is_OK]. cbv zeta.
  unfold noise_stage, scale_stage.
  unfold bind at 1. unfold ret at 1.
  unfold bind at 1. rewrite poll_cases, Hp1. cbn [app].
  unfold bind at 1. unfold ret at 1.
  unfold bind at 1. rewrite poll_cases, Hp2.
  rewrite write_stage_run. cbv zeta.
  fold (shrink_ratio env (scale_ratio W)).
  rewrite <- app_assoc.
  match goal with
  | |- context [imwrite env output_file ?img] => destruct (imwrite env output_file img)
  end; reflexivity.
Qed.

(** ** The size of the output *)



(** The exponent of a ratio between two powers of two. *)
Lemma Qlog2_bracket (r : Q) (k : Z) :
  (Qpower 2 (k - 1) < r)%Q -> (r <= Qpower 2 k)%Q -> k - 1 <= Qlog2 r <= k.
Proof.
  intros Hlo Hhi. pose proof (Qpow2_pos (k - 1)) as Pk.
  destruct (Qlog2_spec r ltac:(lra)) as [Slo Shi]. split.
  - destruct (Z_le_gt_dec (k - 1) (Qlog2 r)) as [H | H]; [exact H | exfalso].
    pose proof (Qpow2_le (Qlog2 r + 1) (k - 1) ltac:(lia)). lra.
  - destruct (Z_le_gt_dec (Qlog2 r) k) as [H | H]; [exact H | exfalso].
    pose proof (Qpow2_le (k + 1) (Qlog2 r) ltac:(lia)).
    pose proof (Qpow2_succ k). pose proof (Qpow2_pos k). lra.
Qed.

(** X16. The final resize neither enlarges nor goes below half, when the
    library's [ceil(log2(r))] is the ceiling of the logarithm: for a ratio
    that is a positive [double] with [2 ^ (k - 1) < r <= 2 ^ k], a finite
    [log2] and [scale2 = k], [k] from -1021 to 1023, the factor of line 810 is
    [r / 2 ^ k] without rounding, above 1/2 and at most 1; each side of the
    final size, for sides from 2 to [INT_MAX], is positive and at most the
    side it had, equal to it when the factor is 1 and below it otherwise.
    And for any finite ratio with a finite [log2], a [scale2] of 1024 or
    more makes [pow(2.0, scale2)] infinite, the factor 0 and the final size
    0 by 0. *)
Theorem final_resize_factor (env : Env) (r l : Q) (k : Z) (sz : Size) :
  is_double r = true -> (0 < r)%Q ->
  log2 env (Fin r) = Fin l ->
  ceil_log2 env (Fin r) = k ->
  (Qpower 2 (k - 1) < r)%Q -> (r <= Qpower 2 k)%Q ->
  -1021 <= k <= 1023 ->
  2 <= width sz <= INT_MAX -> 2 <= height sz <= INT_MAX ->
  let f := (r / Qpower 2 k)%Q in
  let ns := shrink_size sz (shrink_ratio env (Fin r)) in
  shrink_ratio env (Fin r) = Fin (Qred f) /\
  (1 # 2 < f)%Q /\ (f <= 1)%Q /\
  1 <= width ns <= width sz /\ 1 <= height ns <= height sz /\
  ((f == 1)%Q -> ns = sz) /\
  ((f < 1)%Q -> width ns < width sz /\ height ns < height sz) /\
  (forall r' l' : Q, log2 env (Fin r') = Fin l' -> 1024 <= ceil_log2 env (Fin r') ->
     shrink_ratio env (Fin r') = Fin 0 /\ shrink_size sz (Fin 0) = mkSize 0 0).
Proof.
  intros D Hr El Ek Hlo Hhi Hk Hw Hh f ns.
  pose proof (Qlog2_bracket r k Hlo Hhi) as He.
  pose proof (Qpow2_pos k) as Pk.
  assert (Ef : shrink_ratio env (Fin r) = Fin (Qred f)).
  { unfold shrink_ratio. rewrite Ek. apply ddiv_pow2_exact; try assumption; lia. }
  assert (E2 : (Qpower 2 k == Qpower 2 (k - 1) * 2)%Q).
  { rewrite <- Qpow2_succ. replace (k - 1 + 1) with k by lia. reflexivity. }
  assert (Hf1 : (1 # 2 < f)%Q).
  { unfold f. apply Qlt_shift_div_l; [exact Pk|]. lra. }
  assert (Hf2 : (f <= 1)%Q).
  { unfold f. apply Qle_shift_div_r; [exact Pk|]. lra. }
  assert (Hw53 : width sz < 2 ^ 53) by (apply int_below_2_53; lia).
  assert (Hh53 : height sz < 2 ^ 53) by (apply int_below_2_53; lia).
  assert (One : (f == 1)%Q -> ns = sz).
  { intros E1. unfold ns. rewrite Ef. apply shrink_size_one; try lia.
    now rewrite Qred_correct. }
  assert (Less : (f < 1)%Q ->
                 1 <= width ns < width sz /\ 1 <= height ns < height sz).
  { intros E1. unfold ns. rewrite Ef. unfold shrink_ratio in Ef. rewrite Ek in Ef.
    apply (shrink_size_smaller sz _ _ (Qred f) Ef); try lia;
      rewrite Qred_correct; lra. }
  split; [exact Ef|]. split; [exact Hf1|]. split; [exact Hf2|].
  assert (Cases : (f == 1)%Q \/ (f < 1)%Q).
  { destruct (Qlt_le_dec f 1) as [H | H]; [right; exact H | left; lra]. }
  split; [|split; [|split; [exact One | split]]].
  - destruct Cases as [E1 | E1]; [rewrite (One E1); lia | destruct (Less E1); lia].
  - destruct Cases as [E1 | E1]; [rewrite (One E1); lia | destruct (Less E1); lia].
  - intros E1. destruct (Less E1). lia.
  - intros r' l' _ Hbig. split.
    + unfold shrink_ratio, pow2, of_int. rewrite Qfloor_Z.
      destruct (Z.leb_spec 1024 (ceil_log2 env (Fin r'))); [reflexivity | lia].
    + unfold shrink_size, dmul, of_int.
      rewrite (round_double_comp (inject_Z (width sz) * 0) 0) by ring.
      rewrite (round_double_comp (inject_Z (height sz) * 0) 0) by ring.
      reflexivity.
Qed.

(** ** The alpha weighting and its removal, plane by plane *)

Lemma premultiply_range (c a : Q) :
  (0 <= c <= 1)%Q -> (0 <= a <= 1)%Q -> (0 <= premultiply c a <= 1)%Q.
Proof.
  intros [Hc0 Hc1] [Ha0 Ha1]. unfold premultiply.
  assert (H1 : (0 <= c * a)%Q) by (apply Qmult_le_0_compat; assumption).
  assert (H2 : (c * a <= 1 * a)%Q) by (apply Qmult_le_compat_r; assumption).
  lra.
Qed.

Lemma Mat_map2_within (f : float -> float -> float) (lo hi : Q) (p w : Mat) :
  (forall c a, (lo <= c <= hi)%Q -> (lo <= a <= hi)%Q -> (lo <= f c a <= hi)%Q) ->
  samples_within lo hi p -> samples_within lo hi w ->
  samples_within lo hi (Mat_map2 f p w).
Proof.
  intros Hf. unfold samples_within, Mat_map2. cbn [data].
  generalize (data w). induction (data p) as [|c l IH]; intros l' Hp Hw.
  - constructor.
  - destruct l' as [|a l']; [constructor|].
    inversion Hp; subst. inversion Hw; subst.
    cbn [combine map fst snd]. constructor; auto.
Qed.

Lemma convertTo_32F_within (m : Mat) :
  samples_within 0 (255 # 1) m -> samples_within 0 1 (convertTo_32F m).
Proof.
  unfold samples_within, convertTo_32F, Mat_map. cbn [data].
  induction 1 as [|v l Hv _ IH]; cbn [map]; constructor; auto. lra.
Qed.

Lemma unpremultiply_premultiply_plane (p w : Mat) :
  List.length (data p) = List.length (data w) ->
  Forall (fun a => ~ (a == 0)%Q) (data w) ->
  Mat_Qeq (Mat_map2 unpremultiply (Mat_map2 premultiply p w) w) p.
Proof.
  intros Hl Hw. unfold Mat_Qeq, Mat_map2. cbn [rows cols data].
  split; [reflexivity|]. split; [reflexivity|].
  revert Hl Hw. generalize (data w). induction (data p) as [|c l IH]; intros l' Hl Hw.
  - constructor.
  - destruct l' as [|a l']; [discriminate|].
    inversion Hw; subst. cbn [combine map fst snd]. constructor.
    + unfold unpremultiply, premultiply. field. assumption.
    + apply IH; [now injection Hl | assumption].
Qed.

Lemma Mat_Qeq_refl (m : Mat) : Mat_Qeq m m.
Proof.
  unfold Mat_Qeq. split; [reflexivity|]. split; [reflexivity|].
  induction (data m); constructor; [reflexivity | assumption].
Qed.

Lemma convertTo_32F_nonzero (m : Mat) :
  Forall (fun a => ~ (a == 0)%Q) (data m) ->
  Forall (fun a => ~ (a == 0)%Q) (data (convertTo_32F m)).
Proof.
  unfold convertTo_32F, Mat_map. cbn [data].
  induction 1 as [|v l Hv _ IH]; cbn [map]; constructor; auto.
  intros H. apply Hv. lra.
Qed.

Lemma convertTo_32F_length (m : Mat) :
  List.length (data (convertTo_32F m)) = List.length (data m).
Proof. unfold convertTo_32F, Mat_map. cbn [data]. apply length_map. Qed.

(** X17. For a file of four planes [LoadImage] succeeds, keeps the alpha
    plane and weights the three colour planes with it over white; where no
    alpha sample is 0, the removal of the weighting at lines 866-872,
    applied to those colour planes and that alpha plane, gives back the
    planes of the file as [LoadImage] scaled them, sample for sample. *)
Theorem alpha_weighting_round_trip (env : Env) (input_file : string) (b g r a : Mat) :
  imread env input_file = Some [b; g; r; a] ->
  List.length (data b) = List.length (data a) ->
  List.length (data g) = List.length (data a) ->
  List.length (data r) = List.length (data a) ->
  Forall (fun v => ~ (v == 0)%Q) (data a) ->
  let float_image := snd (LoadImage env input_file) in
  fst (LoadImage env input_file) = eWaifu2xError_OK /\
  float_image
  = [Mat_map2 premultiply (convertTo_32F b) (convertTo_32F a);
     Mat_map2 premultiply (convertTo_32F g) (convertTo_32F a);
     Mat_map2 premultiply (convertTo_32F r) (convertTo_32F a);
     convertTo_32F a] /\
  Forall2 Mat_Qeq
    (remove_alpha (firstn 3 float_image) (plane float_image 3))
    (map convertTo_32F [b; g; r; a]).
Proof.
  intros Hread Hb Hg Hr Ha float_image. subst float_image.
  assert (E : LoadImage env input_file
              = (eWaifu2xError_OK,
                 [Mat_map2 premultiply (convertTo_32F b) (convertTo_32F a);
                  Mat_map2 premultiply (convertTo_32F g) (convertTo_32F a);
                  Mat_map2 premultiply (convertTo_32F r) (convertTo_32F a);
                  convertTo_32F a])).
  { unfold LoadImage. rewrite Hread. reflexivity. }
  rewrite E. cbn [fst snd].
  split; [reflexivity|]. split; [reflexivity|].
  unfold remove_alpha. cbn [firstn app plane nth set_plane map].
  pose proof (convertTo_32F_nonzero a Ha) as Ha'.
  repeat constructor;
    try (apply unpremultiply_premultiply_plane;
         [rewrite !convertTo_32F_length; assumption | exact Ha']).
  apply Mat_Qeq_refl.
Qed.

(** X18. For a file of three or four planes with samples from 0 to 255,
    [LoadImage] succeeds, keeps the number of planes, and every sample of
    every plane it returns lies between 0 and 1, also those it has weighted
    with the alpha plane. *)
Theorem LoadImage_samples_in_unit_range (env : Env) (input_file : string)
    (original_image : Image) :
  imread env input_file = Some original_image ->
  channels original_image = 3 \/ channels original_image = 4 ->
  Forall (samples_within 0 (255 # 1)) original_image ->
  fst (LoadImage env input_file) = eWaifu2xError_OK /\
  channels (snd (LoadImage env input_file)) = channels original_image /\
  Forall (samples_within 0 1) (snd (LoadImage env input_file)).
Proof.
  intros Hread Hch Hall. unfold LoadImage. rewrite Hread. cbn [fst snd].
  assert (H32 : Forall (samples_within 0 1) (map convertTo_32F original_image)).
  { clear Hread Hch. induction Hall as [|p l Hp _ IH]; cbn [map]; constructor;
      [now apply convertTo_32F_within | exact IH]. }
  unfold channels in *. rewrite length_map.
  destruct original_image as [|p0 [|p1 [|p2 [|p3 [|p4 l]]]]];
    cbn [List.length] in Hch; try lia.
  - change (channels (map convertTo_32F [p0; p1; p2]) =? 1) with false.
    change (channels (map convertTo_32F [p0; p1; p2]) =? 4) with false.
    cbn [List.length]. split; [reflexivity|]. split; [reflexivity|]. exact H32.
  - change (channels (map convertTo_32F [p0; p1; p2; p3]) =? 1) with false.
    change (channels (map convertTo_32F [p0; p1; p2; p3]) =? 4) with true.
    cbn [map List.length plane nth set_plane].
    split; [reflexivity|]. split; [reflexivity|].
    cbn [map] in H32.
    inversion H32 as [|? ? H0 H32a]; subst. inversion H32a as [|? ? H1 H32b]; subst.
    inversion H32b as [|? ? H2 H32c]; subst. inversion H32c as [|? ? H3 _]; subst.
    repeat constructor; try assumption;
      apply Mat_map2_within; auto using premultiply_range.
Qed.

(** ** The conversion to 8 bits *)

Lemma cvRound_Z (q : Q) (z : Z) : (q == inject_Z z)%Q -> cvRound q = z.
Proof.
  intros E. unfold cvRound.
  rewrite (Qfloor_comp _ _ E), Qfloor_Z.
  assert (H : (q - inject_Z z ?= 1 # 2)%Q = Lt).
  { rewrite <- Qlt_alt. lra. }
  now rewrite H.
Qed.

Lemma cvRound_bounds (q : Q) : Qfloor q <= cvRound q <= Qfloor q + 1.
Proof.
  unfold cvRound. destruct (q - inject_Z (Qfloor q) ?= 1 # 2)%Q;
    [destruct (Z.even (Qfloor q))|..]; lia.
Qed.

Lemma saturate_uchar_range (z : Z) : 0 <= saturate_uchar z <= 255.
Proof. unfold saturate_uchar. lia. Qed.

Lemma convertTo_8U_high (v : Q) :
  (1 <= v)%Q -> saturate_uchar (cvRound (v * 255)) = 255.
Proof.
  intros H. pose proof (cvRound_bounds (v * 255)) as [Hb _].
  assert (Hq : (inject_Z 255 <= v * 255)%Q) by (change (inject_Z 255) with 255%Q; lra).
  apply Qfloor_resp_le in Hq. rewrite Qfloor_Z in Hq.
  unfold saturate_uchar. lia.
Qed.

Lemma convertTo_8U_low (v : Q) :
  (v <= 0)%Q -> saturate_uchar (cvRound (v * 255)) = 0.
Proof.
  intros H.
  assert (Hf : (v * 255 <= inject_Z 0)%Q) by (change (inject_Z 0) with 0%Q; lra).
  apply Qfloor_resp_le in Hf. rewrite Qfloor_Z in Hf.
  assert (Hc : cvRound (v * 255) <= 0).
  { destruct (Z.eq_dec (Qfloor (v * 255)) 0) as [E0 | Hne].
    - assert (Ev : (v * 255 == inject_Z 0)%Q).
      { pose proof (Qfloor_le (v * 255)) as Hl. rewrite E0 in Hl.
        change (inject_Z 0) with 0%Q in *. lra. }
      rewrite (cvRound_Z _ 0 Ev). lia.
    - pose proof (cvRound_bounds (v * 255)). lia. }
  unfold saturate_uchar. lia.
Qed.

(** X19. The conversion to 8 bits at line 882 gives whole numbers from 0
    to 255 for every input: samples of 1 or more become 255 and samples of
    0 or less become 0.  On the samples [LoadImage] makes of an 8-bit plane
    it is the inverse of the conversion at line 164. *)
Theorem convertTo_8U_round_trip (m : Mat) :
  is_8U (convertTo_8U m) /\
  (Forall (fun v => (1 <= v)%Q) (data m) ->
   data (convertTo_8U m) = map (fun _ => inject_Z 255) (data m)) /\
  (Forall (fun v => (v <= 0)%Q) (data m) ->
   data (convertTo_8U m) = map (fun _ => inject_Z 0) (data m)) /\
  (is_8U m -> convertTo_8U (convertTo_32F m) = m).
Proof.
  split; [|split; [|split]].
  - unfold is_8U, convertTo_8U, Mat_map. cbn [data].
    induction (data m) as [|v l IH]; cbn [map]; constructor; [|exact IH].
    eexists. split; [reflexivity | apply saturate_uchar_range].
  - unfold convertTo_8U, Mat_map. cbn [data].
    induction 1 as [|v l Hv _ IH]; cbn [map]; [reflexivity|].
    now rewrite IH, convertTo_8U_high.
  - unfold convertTo_8U, Mat_map. cbn [data].
    induction 1 as [|v l Hv _ IH]; cbn [map]; [reflexivity|].
    now rewrite IH, convertTo_8U_low.
  - unfold is_8U, convertTo_8U, convertTo_32F, Mat_map.
    destruct m as [r c d]. cbn [rows cols data]. intros H. f_equal.
    induction H as [|v l (z & -> & Hz) _ IH]; [reflexivity|].
    cbn [map]. rewrite IH. f_equal.
    rewrite (cvRound_Z _ z).
    + unfold saturate_uchar. f_equal. lia.
    + field.
Qed.

(** ** CUDA and the process *)

(** X20. [can_use_CUDA] answers OK exactly when both queries succeed and
    the runtime version is at least 6050 and at most the driver version,
    and "old version" exactly when both succeed with a positive driver
    version and one of the two bounds fails.  [init] returns
    [eWaifu2xError_FailedCudaCheck] exactly for the process "gpu" without
    usable CUDA; the process is changed only from "gpu" to "cudnn", when
    cuDNN is usable; [isCuda] is false exactly for "cpu"; and for every
    process other than "gpu", "cudnn" included, nothing is checked. *)
Theorem cuda_check_and_process (Process : string) (driver runtime : option Z)
    (cudnn : eWaifu2xcuDNNError) :
  let cuda := can_use_CUDA driver runtime in
  (cuda = eWaifu2xCudaError_OK <->
   exists d r, driver = Some d /\ runtime = Some r /\ MinCudaDriverVersion <= r <= d) /\
  (cuda = eWaifu2xCudaError_OldVersion <->
   exists d r, driver = Some d /\ runtime = Some r /\ 0 < d /\
     (r < MinCudaDriverVersion \/ d < r)) /\
  (select_process Process cuda cudnn = None <->
   Process = "gpu"%string /\ cuda <> eWaifu2xCudaError_OK) /\
  (forall process isCuda,
     select_process Process cuda cudnn = Some (process, isCuda) ->
     (isCuda = false <-> Process = "cpu"%string) /\
     (process <> Process ->
      Process = "gpu"%string /\ process = "cudnn"%string /\ cudnn = eWaifu2xcuDNNError_OK)) /\
  (Process <> "gpu"%string ->
   select_process Process cuda cudnn
   = Some (Process, negb (String.eqb Process "cpu"))).
Proof.
  cbv zeta. split; [|split; [|split; [|split]]].
  - unfold can_use_CUDA, MinCudaDriverVersion. split.
    + destruct driver as [d|]; [|discriminate].
      destruct (Z.gtb_spec d 0); [|discriminate].
      destruct runtime as [r|]; [|discriminate].
      rewrite !Z.geb_leb.
      destruct (Z.leb_spec 6050 r), (Z.leb_spec r d); cbn [andb]; try discriminate.
      intros _. exists d, r. repeat split; lia.
    + intros (d & r & -> & -> & H1 & H2).
      destruct (Z.gtb_spec d 0); [|lia].
      rewrite !Z.geb_leb.
      destruct (Z.leb_spec 6050 r), (Z.leb_spec r d); cbn [andb]; try lia. reflexivity.
  - unfold can_use_CUDA, MinCudaDriverVersion. split.
    + destruct driver as [d|]; [|discriminate].
      destruct (Z.gtb_spec d 0); [|discriminate].
      destruct runtime as [r|]; [|discriminate].
      rewrite !Z.geb_leb.
      destruct (Z.leb_spec 6050 r), (Z.leb_spec r d); cbn [andb]; try discriminate;
        intros _; exists d, r; repeat split; lia.
    + intros (d & r & -> & -> & H0 & H).
      destruct (Z.gtb_spec d 0); [|lia].
      rewrite !Z.geb_leb.
      destruct (Z.leb_spec 6050 r), (Z.leb_spec r d); cbn [andb]; try lia; reflexivity.
  - unfold select_process. destruct (String.eqb_spec Process "gpu") as [-> | Hne].
    + destruct (can_use_CUDA driver runtime); cbn.
      * split; [discriminate | intros [_ H]; now contradiction H].
      * split; [intros _; split; [reflexivity | discriminate] | reflexivity].
      * split; [intros _; split; [reflexivity | discriminate] | reflexivity].
    + split; [discriminate | intros [H _]; contradiction].
  - intros process isCuda. unfold select_process.
    destruct (String.eqb_spec Process "gpu") as [-> | Hne].
    + destruct (can_use_CUDA driver runtime); [|discriminate..].
      destruct cudnn; cbn; intros E; injection E as <- <-;
        (split; [split; discriminate|]); intros H; try (now contradiction H); auto.
    + intros E. injection E as <- <-. split.
      * destruct (String.eqb_spec Process "cpu"); cbn; split; congruence.
      * intros H. now contradiction H.
  - intros Hne. unfold select_process.
    destruct (String.eqb_spec Process "gpu"); [contradiction|reflexivity].
Qed.

(** ** The weights of a layer *)

Lemma fold_push (l acc : list float) :
  fold_left (fun weightList it5 => weightList ++ [it5]) l acc = acc ++ l.
Proof.
  revert acc. induction l as [|x l IH]; intros acc; cbn [fold_left].
  - now rewrite app_nil_r.
  - rewrite IH, <- app_assoc. reflexivity.
Qed.

Lemma fold_concat {A : Type} (f : list float -> A -> list float) (g : A -> list float) :
  (forall acc x, f acc x = acc ++ g x) ->
  forall l acc, fold_left f l acc = acc ++ List.concat (map g l).
Proof.
  intros Hf. induction l as [|x l IH]; intros acc; cbn [fold_left map List.concat].
  - now rewrite app_nil_r.
  - rewrite IH, Hf, <- app_assoc. reflexivity.
Qed.

Lemma flatten_weight_concat (weight : Weight) :
  flatten_weight weight = List.concat (map (fun it2 => List.concat (map (@List.concat float) it2)) weight).
Proof.
  unfold flatten_weight.
  rewrite (fold_concat _ (fun it2 => List.concat (map (@List.concat float) it2))); [reflexivity|].
  intros acc it2.
  rewrite (fold_concat _ (@List.concat float)); [reflexivity|].
  intros acc3 it3.
  rewrite (fold_concat _ (fun it4 : list float => it4)).
  - now rewrite map_id.
  - intros acc4 it4. apply fold_push.
Qed.

Lemma length_concat_uniform {A : Type} (n : nat) (ls : list (list A)) :
  Forall (fun l => List.length l = n) ls ->
  List.length (List.concat ls) = (List.length ls * n)%nat.
Proof.
  induction 1 as [|l ls Hl _ IH]; [reflexivity|].
  cbn [List.concat List.length]. rewrite length_app, IH, Hl. lia.
Qed.

Lemma nth_concat_uniform {A : Type} (n : nat) (ls : list (list A)) (i j : nat) (d : A) :
  Forall (fun l => List.length l = n) ls ->
  (i < List.length ls)%nat -> (j < n)%nat ->
  nth (i * n + j) (List.concat ls) d = nth j (nth i ls []) d.
Proof.
  intros H. revert i. induction H as [|l ls Hl _ IH]; intros i Hi Hj.
  - cbn in Hi. lia.
  - cbn [List.concat]. destruct i as [|i].
    + cbn [Nat.mul Nat.add nth]. apply app_nth1. lia.
    + cbn [nth]. rewrite app_nth2 by lia.
      replace (S i * n + j - List.length l)%nat with (i * n + j)%nat by lia.
      apply IH; [cbn in Hi; lia | assumption].
Qed.

Lemma rectangular_inner (n2 n3 n4 : nat) (weight : Weight) :
  rectangular n2 n3 n4 weight ->
  Forall (fun l => List.length l = (n2 * (n3 * n4))%nat)
    (map (fun it2 => List.concat (map (@List.concat float) it2)) weight) /\
  Forall (fun it2 =>
    Forall (fun l => List.length l = (n3 * n4)%nat) (map (@List.concat float) it2) /\
    List.length it2 = n2 /\
    Forall (fun it3 => List.length it3 = n3 /\ Forall (fun it4 => List.length it4 = n4) it3)
      it2) weight.
Proof.
  unfold rectangular. induction 1 as [|it2 w (H2 & H3) _ [IH1 IH2]]; cbn [map].
  - split; constructor.
  - assert (Hin : Forall (fun l => List.length l = (n3 * n4)%nat) (map (@List.concat float) it2)).
    { clear H2. induction H3 as [|it3 l (H3 & H4) _ IH]; cbn [map]; constructor; auto.
      rewrite (length_concat_uniform n4) by assumption. now rewrite H3. }
    split; constructor; auto.
    rewrite (length_concat_uniform (n3 * n4)) by assumption.
    now rewrite length_map, H2.
Qed.

Lemma nth_Forall {A : Type} (P : A -> Prop) (l : list A) (i : nat) (d : A) :
  Forall P l -> (i < List.length l)%nat -> P (nth i l d).
Proof. intros H Hi. rewrite Forall_forall in H. apply H, nth_In, Hi. Qed.

Lemma nth_map_in {A B : Type} (f : A -> B) (l : list A) (i : nat) (d : B) (d' : A) :
  (i < List.length l)%nat -> nth i (map f l) d = f (nth i l d').
Proof.
  intros Hi. rewrite nth_indep with (d' := f d') by (now rewrite length_map).
  apply map_nth.
Qed.

Lemma index_bound (i n j m : nat) : (i < n)%nat -> (j < m)%nat -> (i * m + j < n * m)%nat.
Proof. intros. nia. Qed.

(** The cell of a rectangular weight array in the flat list. *)
Lemma flatten_weight_nth (n2 n3 n4 : nat) (weight : Weight) (o i h w : nat) :
  rectangular n2 n3 n4 weight ->
  (o < List.length weight)%nat -> (i < n2)%nat -> (h < n3)%nat -> (w < n4)%nat ->
  nth (((o * n2 + i) * n3 + h) * n4 + w) (flatten_weight weight) 0%Q
  = nth w (nth h (nth i (nth o weight []) []) []) 0%Q.
Proof.
  intros Hrect Ho Hi Hh Hw.
  destruct (rectangular_inner _ _ _ _ Hrect) as [H1 H2].
  rewrite flatten_weight_concat.
  replace (((o * n2 + i) * n3 + h) * n4 + w)%nat
    with (o * (n2 * (n3 * n4)) + (i * (n3 * n4) + (h * n4 + w)))%nat by nia.
  pose proof (index_bound h n3 w n4 Hh Hw) as B1.
  pose proof (index_bound i n2 _ _ Hi B1) as B2.
  rewrite (nth_concat_uniform (n2 * (n3 * n4))) by (rewrite ?length_map; assumption).
  rewrite (nth_map_in _ weight o [] []) by assumption.
  pose proof (nth_Forall _ _ o [] H2 Ho) as (G1 & G2 & G3). cbv beta in G1, G2, G3.
  rewrite (nth_concat_uniform (n3 * n4)) by (rewrite ?length_map; auto; lia).
  rewrite (nth_map_in _ (nth o weight []) i [] []) by lia.
  pose proof (nth_Forall _ _ i [] G3 ltac:(lia)) as (G4 & G5). cbv beta in G4, G5.
  now rewrite (nth_concat_uniform n4) by (auto; lia).
Qed.

Lemma flatten_weight_length (n2 n3 n4 : nat) (weight : Weight) :
  rectangular n2 n3 n4 weight ->
  List.length (flatten_weight weight) = (List.length weight * (n2 * (n3 * n4)))%nat.
Proof.
  intros Hrect. destruct (rectangular_inner _ _ _ _ Hrect) as [H1 _].
  rewrite flatten_weight_concat, (length_concat_uniform _ _ H1), length_map. reflexivity.
Qed.

(** X21. For a weight array that is rectangular and not empty, the checks
    of [LoadParameter] on a layer pass exactly when the two blobs have the
    lengths of the flattened weights and of the bias, so that the two
    copies read the lists they are given and no more; the only error is
    [eWaifu2xError_FailedConstructModel]; and the flattened list holds the
    cell [weight[o][i][h][w]] at [((o * n2 + i) * n3 + h) * n4 + w].  The
    checks look at the first entries only: a ragged array can pass them
    with a list shorter than the blob. *)
Theorem load_layer_copies_whole_lists (b0_count b1_count : Z) (weight : Weight)
    (bias : list float) (n2 n3 n4 : nat) :
  rectangular n2 n3 n4 weight -> weight <> [] -> (0 < n2)%nat -> (0 < n3)%nat ->
  (load_layer b0_count b1_count weight bias = inr (flatten_weight weight, bias) <->
   b0_count = Size_of (flatten_weight weight) /\ b1_count = Size_of bias) /\
  (forall e, load_layer b0_count b1_count weight bias = inl e ->
     e = eWaifu2xError_FailedConstructModel) /\
  (forall o i h w,
     (o < List.length weight)%nat -> (i < n2)%nat -> (h < n3)%nat -> (w < n4)%nat ->
     nth (((o * n2 + i) * n3 + h) * n4 + w) (flatten_weight weight) 0%Q
     = nth w (nth h (nth i (nth o weight []) []) []) 0%Q) /\
  (let ragged : Weight := [[[[1; 2]]]; [[[3]]]]%Q in
   load_layer 4 0 ragged [] = inr (flatten_weight ragged, []) /\
   Size_of (flatten_weight ragged) = 3).
Proof.
  intros Hrect Hne H2 H3.
  assert (Hsz : Size_of weight * Size_of (nth 0 weight [])
                * Size_of (nth 0 (nth 0 weight []) [])
                * Size_of (nth 0 (nth 0 (nth 0 weight []) []) [])
                = Size_of (flatten_weight weight)).
  { unfold Size_of. rewrite (flatten_weight_length _ _ _ _ Hrect).
    destruct weight as [|it2 weight']; [contradiction|].
    inversion Hrect as [|? ? (L2 & F3) _]; subst. cbn [nth].
    destruct it2 as [|it3 it2']; [cbn in H2; lia|].
    inversion F3 as [|? ? (L3 & F4) _]; subst. cbn [nth].
    destruct it3 as [|it4 it3']; [cbn in H3; lia|].
    inversion F4 as [|? ? L4 _]; subst. cbn [nth]. lia. }
  unfold load_layer at 1 2. rewrite Hsz.
  split; [|split; [|split; [|split; reflexivity]]].
  - destruct (Z.eqb_spec b0_count (Size_of (flatten_weight weight))) as [E0 | N0];
      cbn [negb].
    + destruct (Z.eqb_spec b1_count (Size_of bias)) as [E1 | N1]; cbn [negb].
      * split; auto.
      * split; [discriminate | intros [_ H]; contradiction].
    + split; [discriminate | intros [H _]; contradiction].
  - intros e.
    destruct (negb _); [intros E; now injection E|].
    destruct (negb _); [intros E; now injection E | discriminate].
  - intros o i h w. now apply flatten_weight_nth.
Qed.

(** ** The layers of the network *)

Lemma set_layer_idem (W : Waifu2x) (process : string) (l : LayerParameter) :
  set_layer W process (set_layer W process l) = set_layer W process l.
Proof.
  unfold set_layer.
  destruct (String.eqb (layer_type l) "Convolution") eqn:E1;
    cbn [layer_type memory_data_width memory_data_height convolution_engine relu_engine];
    rewrite ?E1; [reflexivity|].
  destruct (String.eqb (layer_type l) "ReLU") eqn:E2;
    cbn [layer_type memory_data_width memory_data_height convolution_engine relu_engine];
    rewrite ?E1, ?E2; [reflexivity|].
  destruct (String.eqb (layer_type l) "MemoryData") eqn:E3;
    cbn [layer_type memory_data_width memory_data_height convolution_engine relu_engine];
    rewrite ?E1, ?E2, ?E3; [|reflexivity].
  destruct ((memory_data_width l =? original_width_height W)
            && (memory_data_height l =? original_width_height W)) eqn:E4;
    cbn [layer_type memory_data_width memory_data_height convolution_engine relu_engine];
    rewrite ?E1, ?E2, ?E3, ?E4; [|reflexivity].
  match goal with |- (if ?b then _ else _) = _ => destruct b end; reflexivity.
Qed.

(** X22. When the description can be read, [ConstractNet] keeps the
    layers and their types, gives every convolution and every ReLU layer
    the cuDNN engine exactly when the process is "cudnn" and the Caffe
    engine otherwise, and turns a data layer of 142 by 142, the size
    [init] records, into one of [crop_size + 16] squared, the size of the
    tiles a pass hands to the network.  Run on its own result it changes
    nothing. *)
Theorem ConstractNet_layers (W : Waifu2x) (layers : list LayerParameter)
    (process : string) :
  let net := snd (ConstractNet W (Some layers) process) in
  fst (ConstractNet W (Some layers) process) = eWaifu2xError_OK /\
  map layer_type net = map layer_type layers /\
  (forall l, In l net -> layer_type l = "Convolution"%string ->
     convolution_engine l
     = if String.eqb process "cudnn" then ConvolutionParameter_Engine_CUDNN
       else ConvolutionParameter_Engine_CAFFE) /\
  (forall l, In l net -> layer_type l = "ReLU"%string ->
     relu_engine l
     = if String.eqb process "cudnn" then ReLUParameter_Engine_CUDNN
       else ReLUParameter_Engine_CAFFE) /\
  (sized W -> original_width_height W = 128 + layer_num * 2 ->
   forall l, In l layers -> layer_type l = "MemoryData"%string ->
     memory_data_width l = 142 -> memory_data_height l = 142 ->
     exists l', In l' net /\ layer_type l' = "MemoryData"%string /\
       memory_data_width l' = crop_size W + 16 /\
       memory_data_height l' = crop_size W + 16) /\
  snd (ConstractNet W (Some net) process) = net.
Proof.
  cbv zeta. cbn [ConstractNet fst snd].
  assert (Ht : forall l, layer_type (set_layer W process l) = layer_type l).
  { intros l. unfold set_layer.
    destruct (String.eqb (layer_type l) "Convolution"); [reflexivity|].
    destruct (String.eqb (layer_type l) "ReLU"); [reflexivity|].
    destruct (String.eqb (layer_type l) "MemoryData"); [|reflexivity].
    destruct (_ && _); reflexivity. }
  split; [reflexivity|]. split; [|split; [|split; [|split]]].
  - rewrite map_map. apply map_ext. exact Ht.
  - intros l Hin Hl. apply in_map_iff in Hin as (l0 & <- & _).
    rewrite Ht in Hl. unfold set_layer. rewrite Hl. reflexivity.
  - intros l Hin Hl. apply in_map_iff in Hin as (l0 & <- & _).
    rewrite Ht in Hl. unfold set_layer. rewrite Hl. reflexivity.
  - intros (_ & _ & _ & Eibs & _) Eowh l Hin Hl Hw Hh.
    exists (set_layer W process l). split; [now apply in_map|].
    rewrite Ht. split; [exact Hl|].
    unfold set_layer. rewrite Hl, Hw, Hh, Eowh, Eibs. cbn. auto.
  - rewrite map_map. apply map_ext. intros l. apply set_layer_idem.
Qed.

(** ** The further properties on the small instance *)

Ltac in_range := vm_compute; repeat split; first [reflexivity | discriminate].

Lemma sample_resize_sized noise scale : resize_sized (sample_env noise scale).
Proof.
  intros m sz i Hw Hh. cbn [resize sample_env]. unfold nearest_resize. split.
  - apply Mat_tab_wf; assumption.
  - destruct sz. reflexivity.
Defined.

Lemma sample_plane_wf : Mat_wf sample_plane.
Proof. unfold Mat_wf. vm_compute. repeat split; discriminate. Defined.

Lemma sample_W_single_configured : configured sample_W_single.
Proof.
  exact (proj1 (init_configured "scale" 1 (Fin 2) 2 1 (fun _ => 0%Q) sample_W_single eq_refl
                  ltac:(lia) ltac:(lia))).
Defined.

Lemma sample_W_stale_configured : configured sample_W_stale.
Proof.
  exact (proj1 (init_configured "noise" 1 (Fin 1) 2 2 (fun _ => 1%Q) sample_W_stale eq_refl
                  ltac:(lia) ltac:(lia))).
Defined.

Lemma tile_input_neighbourhood_witness :
  zlen (tile_input (sample_W "scale" 2) sample_canvas 3) = 18 * 18 /\
  zth (tile_input (sample_W "scale" 2) sample_canvas 3) (9 * 18 + 9)
  = Mat_at sample_canvas 3 3.
Proof.
  destruct (tile_input_neighbourhood (sample_W "scale" 2) sample_canvas 3 9 9)
    as (H1 & _ & H3).
  - exact (proj1 (sample_W_configured "scale" 2 eq_refl)).
  - reflexivity.
  - exact sample_canvas_wf.
  - reflexivity.
  - reflexivity.
  - in_range.
  - in_range.
  - in_range.
  - split; [exact H1|]. apply H3; in_range.
Defined.

Lemma identity_network_pass_witness :
  exists W',
    ReconstructImage (sample_W "scale" 2) (crop_engine 2) sample_canvas (fun _ => 0%Q)
    = Some (eWaifu2xError_OK, sample_canvas, W').
Proof.
  destruct (identity_network_pass (sample_W "scale" 2) sample_canvas (fun _ => 0%Q))
    as (W' & E & _).
  - apply sample_W_configured. reflexivity.
  - reflexivity.
  - reflexivity.
  - exact sample_canvas_wf.
  - reflexivity.
  - reflexivity.
  - exists W'. exact E.
Defined.

Lemma tilewise_pass_any_batch_size_witness :
  exists out W1 W1',
    ReconstructImage (sample_W "scale" 2)
      (tilewise (sample_W "scale" 2) (centre_crop (sample_W "scale" 2)))
      sample_canvas (fun _ => 0%Q)
    = Some (eWaifu2xError_OK, out, W1) /\
    ReconstructImage sample_W_single
      (tilewise sample_W_single (centre_crop (sample_W "scale" 2)))
      sample_canvas (fun _ => 1%Q)
    = Some (eWaifu2xError_OK, out, W1').
Proof.
  apply (tilewise_pass_any_batch_size (sample_W "scale" 2) sample_W_single sample_canvas
           (centre_crop (sample_W "scale" 2)) (fun _ => 0%Q) (fun _ => 1%Q)).
  - apply sample_W_configured. reflexivity.
  - exact sample_W_single_configured.
  - reflexivity.
  - reflexivity.
  - reflexivity.
  - reflexivity.
  - exact sample_canvas_wf.
  - reflexivity.
  - reflexivity.
Defined.

Lemma pass_copies_stay_in_bounds_witness :
  memcpy_in_bounds (pass_store (sample_W "scale" 2) sample_canvas (fun _ => 0%Q))
    (mkptr Buf_input_block (18 * 18 * 1))
    (tile_input (sample_W "scale" 2) sample_canvas 1) 0 (18 * 18).
Proof.
  destruct (pass_copies_stay_in_bounds (sample_W "scale" 2) sample_canvas)
    as (H0 & H1 & _).
  - apply sample_W_configured. reflexivity.
  - reflexivity.
  - reflexivity.
  - exact sample_canvas_wf.
  - reflexivity.
  - reflexivity.
  - destruct (H1 0 1 _ (H0 (fun _ => 0%Q))) as (_ & H & _).
    + in_range.
    + in_range.
    + exact H.
Defined.

Lemma pass_ignores_stale_buffers_witness :
  exists e out W1 W1',
    ReconstructImage (sample_W "noise" 1) (crop_engine 2) sample_canvas (fun _ => 0%Q)
    = Some (e, out, W1) /\
    ReconstructImage sample_W_stale (crop_engine 2) sample_canvas (fun _ => 1%Q)
    = Some (e, out, W1').
Proof.
  destruct (pass_ignores_stale_buffers (sample_W "noise" 1) sample_W_stale (crop_engine 2)
              sample_canvas (fun _ => 0%Q) (fun _ => 1%Q))
    as (e & out & W1 & W1' & E & E' & _).
  - apply sample_W_configured. reflexivity.
  - exact sample_W_stale_configured.
  - reflexivity.
  - reflexivity.
  - reflexivity.
  - exact sample_canvas_wf.
  - reflexivity.
  - reflexivity.
  - exists e, out, W1, W1'. auto.
Defined.

Lemma PaddingImage_idempotent_witness :
  PaddingImage (sample_W "scale" 2) (PaddingImage (sample_W "scale" 2) sample_plane)
  = PaddingImage (sample_W "scale" 2) sample_plane.
Proof.
  apply (PaddingImage_idempotent (sample_W "scale" 2) sample_plane).
  - reflexivity.
  - exact sample_plane_wf.
Defined.

Lemma zoomed_canvas_is_ready_witness :
  let env := sample_env (crop_engine 2) (crop_engine 2) in
  snd (Zoom2xAndPaddingImage env (sample_W "scale" 2) sample_plane) = mkSize 6 6 /\
  crop_padding (fst (Zoom2xAndPaddingImage env (sample_W "scale" 2) sample_plane))
    (snd (Zoom2xAndPaddingImage env (sample_W "scale" 2) sample_plane))
  = zoom2x env sample_plane.
Proof.
  intros env.
  destruct (zoomed_canvas_is_ready env (sample_W "scale" 2) sample_plane)
    as (H1 & _ & _ & _ & _ & _ & H2).
  - apply sample_resize_sized.
  - reflexivity.
  - exact sample_plane_wf.
  - split; [exact H1 | exact H2].
Defined.

Lemma stages_with_identity_network_witness :
  let env := sample_env (crop_engine 2) (crop_engine 2) in
  exists W',
    scale_loop env 1 (sample_W "scale" 2) sample_plane (Mat_size sample_plane) []
    = (Ret (W', zoomed env 1 sample_plane, scaled (Mat_size sample_plane) 1),
       [] ++ ok_passes NetScale 1).
Proof.
  intros env.
  destruct (stages_with_identity_network env (sample_W "scale" 2) sample_plane 1 [])
    as (_ & H).
  - apply sample_resize_sized.
  - apply sample_W_configured. reflexivity.
  - reflexivity.
  - reflexivity.
  - exact sample_plane_wf.
  - destruct (H eq_refl) as (W' & E & _). exists W'. exact E.
Defined.

Lemma waifu2x_with_identity_networks_witness :
  fst (waifu2x (sample_env (crop_engine 2) (crop_engine 2)) (sample_W "scale" 2)
         "in.png" "out.png" None)
  = Some eWaifu2xError_OK.
Proof.
  rewrite (waifu2x_with_identity_networks (sample_env (crop_engine 2) (crop_engine 2))
             (sample_W "scale" 2) "in.png" "out.png" None sample_float_image).
  - reflexivity.
  - reflexivity.
  - apply sample_W_configured. reflexivity.
  - reflexivity.
  - reflexivity.
  - apply sample_resize_sized.
  - reflexivity.
  - reflexivity.
  - reflexivity.
  - exact sample_plane_wf.
  - reflexivity.
  - reflexivity.
Defined.

Lemma init_outcome_witness :
  fst (init Waifu2x_new "scale" 1 (Fin 2) 2 (- (1)) eWaifu2xError_OK (fun _ => 0%Q))
  = eWaifu2xError_InvalidParameter /\
  is_inited (snd (init Waifu2x_new "scale" 1 (Fin 2) 2 (- (1)) eWaifu2xError_OK
                    (fun _ => 0%Q))) = false.
Proof.
  destruct (init_outcome Waifu2x_new "scale" 1 (Fin 2) 2 (- (1)) eWaifu2xError_OK
              (fun _ => 0%Q))
    as (_ & _ & _ & _ & H & _ & H' & _).
  - reflexivity.
  - cbv zeta in H, H'. rewrite H' , (H eq_refl eq_refl eq_refl). split; reflexivity.
Defined.

Lemma init_destroy_lifecycle_witness :
  init (sample_W "scale" 2) "noise" 3 (Fin (- (1))) 5 7 eWaifu2xError_FailedOpenModelFile
    (fun _ => 1%Q)
  = (eWaifu2xError_OK, sample_W "scale" 2).
Proof.
  destruct (init_destroy_lifecycle (sample_W "scale" 2)) as (H & _).
  - reflexivity.
  - apply H.
Defined.

Lemma output_file_written_last_witness :
  (writes (snd (waifu2x (sample_env (crop_engine 2) (crop_engine 2)) (sample_W "scale" 2)
                  "in.png" "out.png" None)) <= 1)%nat.
Proof.
  refine (proj1 (output_file_written_last (sample_env (crop_engine 2) (crop_engine 2))
                   (sample_W "scale" 2) "in.png" "out.png" None _ _ _)).
  vm_compute. reflexivity.
Defined.

Lemma passes_in_order_witness :
  (passes NetNoise
     (snd (waifu2x (sample_env (crop_engine 2) (crop_engine 2)) (sample_W "noise_scale" 2)
             "in.png" "out.png" None)) <= 1)%nat.
Proof.
  refine (proj1 (passes_in_order (sample_env (crop_engine 2) (crop_engine 2))
                   (sample_W "noise_scale" 2) "in.png" "out.png" None _ _ _)).
  vm_compute. reflexivity.
Defined.

Lemma no_pass_when_mode_asks_none_witness :
  exists t,
    waifu2x (sample_env failing_engine failing_engine) (sample_W "auto_scale" 2)
      "in.png" "out.png" None
    = (Some eWaifu2xError_OK, t) /\ passes NetNoise t = O /\ passes NetScale t = O.
Proof.
  eexists. split.
  - rewrite (no_pass_when_mode_asks_none (sample_env failing_engine failing_engine)
               (sample_W "auto_scale" 2) "in.png" "out.png" None sample_float_image).
    + reflexivity.
    + reflexivity.
    + vm_compute. discriminate.
    + vm_compute. discriminate.
    + vm_compute. discriminate.
    + intros _. reflexivity.
    + reflexivity.
    + reflexivity.
    + reflexivity.
  - split; reflexivity.
Defined.


Lemma final_resize_factor_witness :
  shrink_ratio (sample_env failing_engine failing_engine) (Fin 3) = Fin (3 # 4) /\
  shrink_size (mkSize 3 3) (shrink_ratio (sample_env failing_engine failing_engine) (Fin 3))
  = mkSize 2 2.
Proof.
  destruct (final_resize_factor (sample_env failing_engine failing_engine) 3 (3 # 2) 2
              (mkSize 3 3))
    as (H1 & _ & _ & _ & _ & _ & _ & _).
  - vm_compute. reflexivity.
  - reflexivity.
  - vm_compute. reflexivity.
  - vm_compute. reflexivity.
  - vm_compute. reflexivity.
  - vm_compute. discriminate.
  - lia.
  - vm_compute. split; discriminate.
  - vm_compute. split; discriminate.
  - split; [exact H1 | vm_compute; reflexivity].
Defined.

Lemma alpha_weighting_round_trip_witness :
  fst (LoadImage sample_rgba_env "in.png") = eWaifu2xError_OK /\
  Forall2 Mat_Qeq
    (remove_alpha (firstn 3 (snd (LoadImage sample_rgba_env "in.png")))
       (plane (snd (LoadImage sample_rgba_env "in.png")) 3))
    (map convertTo_32F [sample_plane; sample_plane; sample_plane; sample_plane]).
Proof.
  destruct (alpha_weighting_round_trip sample_rgba_env "in.png"
              sample_plane sample_plane sample_plane sample_plane)
    as (H1 & _ & H2).
  - reflexivity.
  - reflexivity.
  - reflexivity.
  - reflexivity.
  - unfold sample_plane. cbn [data map].
    repeat (constructor; [intros H; vm_compute in H; discriminate H|]). constructor.
  - split; [exact H1 | exact H2].
Defined.

Lemma LoadImage_samples_in_unit_range_witness :
  Forall (samples_within 0 1)
    (snd (LoadImage (sample_env (crop_engine 2) (crop_engine 2)) "in.png")).
Proof.
  destruct (LoadImage_samples_in_unit_range (sample_env (crop_engine 2) (crop_engine 2))
              "in.png" [sample_plane; sample_plane; sample_plane])
    as (_ & _ & H).
  - reflexivity.
  - left. reflexivity.
  - assert (Hp : samples_within 0 (255 # 1) sample_plane).
    { unfold samples_within, sample_plane. cbn [data map].
      repeat (constructor; [vm_compute; split; discriminate|]). constructor. }
    repeat (apply Forall_cons; [exact Hp|]). apply Forall_nil.
  - exact H.
Defined.

Lemma load_layer_copies_whole_lists_witness :
  load_layer 4 1 sample_weight [5%Q] = inr (flatten_weight sample_weight, [5%Q]).
Proof.
  destruct (load_layer_copies_whole_lists 4 1 sample_weight [5%Q] 1 2 2) as (H & _).
  - unfold rectangular, sample_weight. repeat constructor.
  - discriminate.
  - lia.
  - lia.
  - apply H. split; reflexivity.
Defined.
